(** * Health Guard: credential cipher and result cache

    A shallow embedding of the two subsystems of the Health Guard backend
    that carry invariants:

    - [utils/encryption.js] (class [PasswordEncryption]): PBKDF2 key
      derivation, AES-256-CBC envelope encryption of the password,
      compare-by-decrypt, the password strength scorer and the password
      generator;
    - [config/redis.js] (class [RedisClient]) and [middleware/cache.js]:
      the fail-open cache client, the session / health-profile / calorie
      wrappers, the analytics, and the response cache, invalidation and
      warming middleware;
    - [routes/auth.js]: what login and logout do to the cache.

    JavaScript strings are sequences of UTF-16 code units, Buffers are
    sequences of bytes, both written as [list Z].  Exceptions are explicit
    ([completion]); the Redis server, the link to it and the clock are an
    explicit [world] threaded through every client call.  What the program
    takes from its runtime without defining it (the HMAC and AES block
    primitives, [JSON], number and date formatting, sorting) is an interface
    ([Primitives], [Engine], [Sorting]) with its laws stated apart; the encodings and
    modes built on top (UTF-8, hex, base64, PKCS#7, CBC, PBKDF2) are
    defined in full. *)

From Stdlib Require Import ZArith QArith Qround Lia List String Ascii.
From stdpp Require Import base tactics option list gmap strings countable.

Local Open Scope Z_scope.
Set Warnings "-register-all".

(** ** JavaScript strings and completions *)

Abbreviation jsstring := (list Z) (only parsing).
Abbreviation bytes := (list Z) (only parsing).

(** A string literal as its code units (ASCII literals only). *)
Definition js (s : string) : jsstring :=
  map (fun a => Z.of_nat (nat_of_ascii a)) (list_ascii_of_string s).
Arguments js _%_string.

Definition is_byte (b : Z) : Prop := 0 <= b < 256.
Definition is_code_unit (c : Z) : Prop := 0 <= c < 65536.

(** [s.length], [buf.length] *)
Definition len {A} (l : list A) : Z := Z.of_nat (length l).

(** [haystack.includes(needle)], also the meaning of a regular expression
    literal without metacharacters under [test]. *)
Fixpoint starts_with (needle hay : jsstring) : bool :=
  match needle, hay with
  | [], _ => true
  | _ :: _, [] => false
  | n :: needle', h :: hay' => (n =? h) && starts_with needle' hay'
  end.

Fixpoint includes (hay needle : jsstring) : bool :=
  starts_with needle hay ||
  match hay with
  | [] => false
  | _ :: hay' => includes hay' needle
  end.

(** Lexicographic order on code units, the order of [<] on strings and of
    the default [Array.prototype.sort]. *)
Fixpoint str_lt (a b : jsstring) : bool :=
  match a, b with
  | _, [] => false
  | [], _ :: _ => true
  | x :: a', y :: b' => (x <? y) || ((x =? y) && str_lt a' b')
  end.

(** [arr.join(sep)] on strings. *)
Fixpoint join (sep : jsstring) (parts : list jsstring) : jsstring :=
  match parts with
  | [] => []
  | [p] => p
  | p :: rest => p ++ sep ++ join sep rest
  end.

(** [s.split(sep)] for a separator of one code unit. *)
Fixpoint split_from (sep : Z) (s piece : jsstring) : list jsstring :=
  match s with
  | [] => [piece]
  | c :: rest =>
      if c =? sep then piece :: split_from sep rest []
      else split_from sep rest (piece ++ [c])
  end.

Definition String_split (s : jsstring) (sep : Z) : list jsstring :=
  split_from sep s [].

(** [s[i]] appended to a string: the code unit, or the text of
    [undefined] outside the string. *)
Definition String_at (s : jsstring) (i : Z) : jsstring :=
  if i <? 0 then js "undefined"
  else match s !! Z.to_nat i with
       | Some c => [c]
       | None => js "undefined"
       end.

(** Decimal digits of a non-negative integer, most significant first. *)
Fixpoint digits_fuel (fuel : nat) (n : Z) (acc : jsstring) : jsstring :=
  match fuel with
  | O => acc
  | S fuel' =>
      let acc' := (48 + n mod 10) :: acc in
      if n <? 10 then acc' else digits_fuel fuel' (n / 10) acc'
  end.

Definition decimal (n : Z) : jsstring :=
  if n <? 0 then 45 :: digits_fuel (S (Z.to_nat (Z.log2 (- n)))) (- n) []
  else digits_fuel (S (Z.to_nat (Z.log2 n))) n [].

Inductive exn :=
  | TypeError (msg : string)
  | RangeError (msg : string)
  | SyntaxError (msg : string)
  | Error (msg : string).

(** The outcome of evaluating a function body: a value, or a thrown
    exception (for an [async] function: a fulfilled or a rejected promise). *)
Inductive completion (A : Type) :=
  | Return (a : A)
  | Throw (e : exn).
Arguments Return {A} a.
Arguments Throw {A} e.

Global Instance completion_ret : MRet completion := fun A a => Return a.
Global Instance completion_bind : MBind completion := fun A B f m =>
  match m with
  | Return a => f a
  | Throw e => Throw e
  end.

(** [try { body } catch (error) { handler }] *)
Definition try_catch {A} (body : completion A) (handler : exn -> completion A)
  : completion A :=
  match body with
  | Return a => Return a
  | Throw e => handler e
  end.

(** ** Buffers: UTF-8, hex and base64 *)

Module Buffer.

Definition is_high_surrogate (c : Z) : bool := (0xD800 <=? c) && (c <=? 0xDBFF).
Definition is_low_surrogate (c : Z) : bool := (0xDC00 <=? c) && (c <=? 0xDFFF).

(** The UTF-8 form of one code point. *)
Definition utf8_of_code_point (cp : Z) : bytes :=
  if cp <? 0x80 then [cp]
  else if cp <? 0x800 then [0xC0 + cp / 64; 0x80 + cp mod 64]
  else if cp <? 0x10000 then
    [0xE0 + cp / 4096; 0x80 + (cp / 64) mod 64; 0x80 + cp mod 64]
  else
    [0xF0 + cp / 262144; 0x80 + (cp / 4096) mod 64;
     0x80 + (cp / 64) mod 64; 0x80 + cp mod 64].

Definition replacement_character : Z := 0xFFFD.

(** [Buffer.from(s, 'utf8')]: surrogate pairs are combined, and an unpaired
    surrogate is written as U+FFFD, which UTF-8 cannot tell from a real one. *)
Fixpoint from_utf8 (s : jsstring) : bytes :=
  match s with
  | [] => []
  | c :: rest =>
      if is_high_surrogate c then
        match rest with
        | d :: rest' =>
            if is_low_surrogate d then
              utf8_of_code_point
                (0x10000 + (c - 0xD800) * 0x400 + (d - 0xDC00))
                ++ from_utf8 rest'
            else utf8_of_code_point replacement_character ++ from_utf8 rest
        | [] => utf8_of_code_point replacement_character
        end
      else if is_low_surrogate c then
        utf8_of_code_point replacement_character ++ from_utf8 rest
      else utf8_of_code_point c ++ from_utf8 rest
  end.

(** The decoder's state inside a multi-byte sequence: the code point so
    far, the continuation bytes still due, and the range allowed for the
    next one. *)
Record pending := {
  p_cp : Z;
  p_need : Z;
  p_lower : Z;
  p_upper : Z
}.

(** A byte met outside a sequence. *)
Definition lead (b : Z) : list Z * option pending :=
  if (0 <=? b) && (b <=? 0x7F) then ([b], None)
  else if (0xC2 <=? b) && (b <=? 0xDF) then
    ([], Some {| p_cp := b - 0xC0; p_need := 1; p_lower := 0x80; p_upper := 0xBF |})
  else if (0xE0 <=? b) && (b <=? 0xEF) then
    ([], Some {| p_cp := b - 0xE0; p_need := 2;
                 p_lower := if b =? 0xE0 then 0xA0 else 0x80;
                 p_upper := if b =? 0xED then 0x9F else 0xBF |})
  else if (0xF0 <=? b) && (b <=? 0xF4) then
    ([], Some {| p_cp := b - 0xF0; p_need := 3;
                 p_lower := if b =? 0xF0 then 0x90 else 0x80;
                 p_upper := if b =? 0xF4 then 0x8F else 0xBF |})
  else ([replacement_character], None).

(** The code points of a byte sequence; every maximal ill-formed part
    becomes one U+FFFD. *)
Fixpoint code_points (st : option pending) (bs : bytes) : list Z :=
  match bs with
  | [] => match st with None => [] | Some _ => [replacement_character] end
  | b :: bs' =>
      match st with
      | None => let '(out, st') := lead b in out ++ code_points st' bs'
      | Some p =>
          if (p_lower p <=? b) && (b <=? p_upper p) then
            let cp := p_cp p * 64 + (b - 0x80) in
            if p_need p =? 1 then cp :: code_points None bs'
            else code_points
                   (Some {| p_cp := cp; p_need := p_need p - 1;
                            p_lower := 0x80; p_upper := 0xBF |}) bs'
          else
            replacement_character ::
              (let '(out, st') := lead b in out ++ code_points st' bs')
      end
  end.

Definition utf16_of_code_point (cp : Z) : jsstring :=
  if cp <? 0x10000 then [cp]
  else [0xD800 + (cp - 0x10000) / 0x400; 0xDC00 + (cp - 0x10000) mod 0x400].

(** [buf.toString('utf8')] *)
Definition toString_utf8 (bs : bytes) : jsstring :=
  flat_map utf16_of_code_point (code_points None bs).

(** [buf.toString('hex')] *)
Definition hex_digit (n : Z) : Z := if n <? 10 then 48 + n else 87 + n.

Definition toString_hex (bs : bytes) : jsstring :=
  flat_map (fun b => [hex_digit (b / 16); hex_digit (b mod 16)]) bs.

Definition unhex (c : Z) : option Z :=
  if (48 <=? c) && (c <=? 57) then Some (c - 48)
  else if (97 <=? c) && (c <=? 102) then Some (c - 87)
  else if (65 <=? c) && (c <=? 70) then Some (c - 55)
  else None.

(** [Buffer.from(s, 'hex')]: decoding stops at the first pair that is not
    two hex digits. *)
Fixpoint from_hex (s : jsstring) : bytes :=
  match s with
  | c1 :: c2 :: rest =>
      match unhex c1, unhex c2 with
      | Some h, Some l => (h * 16 + l) :: from_hex rest
      | _, _ => []
      end
  | _ => []
  end.

(** The base64 alphabet. *)
Definition base64_char (n : Z) : Z :=
  if n <? 26 then 65 + n
  else if n <? 52 then 97 + (n - 26)
  else if n <? 62 then 48 + (n - 52)
  else if n =? 62 then 43
  else 47.

(** [buf.toString('base64')] *)
Fixpoint toString_base64 (bs : bytes) : jsstring :=
  match bs with
  | [] => []
  | [x] => [base64_char (x / 4); base64_char ((x mod 4) * 16); 61; 61]
  | [x; y] =>
      [base64_char (x / 4); base64_char ((x mod 4) * 16 + y / 16);
       base64_char ((y mod 16) * 4); 61]
  | x :: y :: z :: rest =>
      [base64_char (x / 4); base64_char ((x mod 4) * 16 + y / 16);
       base64_char ((y mod 16) * 4 + z / 64); base64_char (z mod 64)]
        ++ toString_base64 rest
  end.

(** The value of a base64 character; the URL-safe [-] and [_] are accepted
    as well. *)
Definition unbase64 (c : Z) : option Z :=
  if (65 <=? c) && (c <=? 90) then Some (c - 65)
  else if (97 <=? c) && (c <=? 122) then Some (c - 97 + 26)
  else if (48 <=? c) && (c <=? 57) then Some (c - 48 + 52)
  else if (c =? 43) || (c =? 45) then Some 62
  else if (c =? 47) || (c =? 95) then Some 63
  else None.

(** The six-bit values of the characters up to the first [=]; characters
    outside the alphabet are skipped. *)
Fixpoint sextets (s : jsstring) : list Z :=
  match s with
  | [] => []
  | c :: rest =>
      if c =? 61 then []
      else match unbase64 c with
           | Some v => v :: sextets rest
           | None => sextets rest
           end
  end.

Fixpoint bytes_of_sextets (sx : list Z) : bytes :=
  match sx with
  | a :: b :: c :: d :: rest =>
      [a * 4 + b / 16; (b mod 16) * 16 + c / 4; (c mod 4) * 64 + d]
        ++ bytes_of_sextets rest
  | [a; b; c] => [a * 4 + b / 16; (b mod 16) * 16 + c / 4]
  | [a; b] => [a * 4 + b / 16]
  | _ => []
  end.

(** [Buffer.from(s, 'base64')]: never throws. *)
Definition from_base64 (s : jsstring) : bytes := bytes_of_sextets (sextets s).

(** [buf.slice(start, end)] for [0 <= start <= end]; both ends are clamped
    to the buffer. *)
Definition slice (b : bytes) (start stop : Z) : bytes :=
  take (Z.to_nat (stop - start)) (drop (Z.to_nat start) b).

(** [buf.slice(start)] *)
Definition slice_from (b : bytes) (start : Z) : bytes := drop (Z.to_nat start) b.

(** [Buffer.concat(list)] *)
Definition concat (parts : list bytes) : bytes := List.concat parts.

End Buffer.

(** [s.isWellFormed()]: no surrogate stands alone. *)
Fixpoint isWellFormed (s : jsstring) : bool :=
  match s with
  | [] => true
  | c :: rest =>
      if Buffer.is_high_surrogate c then
        match rest with
        | d :: rest' => Buffer.is_low_surrogate d && isWellFormed rest'
        | [] => false
        end
      else negb (Buffer.is_low_surrogate c) && isWellFormed rest
  end.

(** ** The [crypto] module *)

(** The two primitives [crypto] is built on, as functions on bytes:
    HMAC-SHA-512 (key, message) and the AES-256 block permutation and its
    inverse (key, block). *)
Class Primitives := {
  hmac_sha512 : bytes -> bytes -> bytes;
  aes256_encrypt_block : bytes -> bytes -> bytes;
  aes256_decrypt_block : bytes -> bytes -> bytes
}.

(** What the development uses of them: output sizes, and that decryption
    inverts encryption under the same 32-byte key. *)
Class PrimitivesLaws `{Primitives} : Prop := {
  hmac_sha512_length : forall k m, length (hmac_sha512 k m) = 64%nat;
  hmac_sha512_bytes : forall k m, Forall is_byte (hmac_sha512 k m);
  aes256_encrypt_length : forall k b,
    length k = 32%nat -> Forall is_byte k ->
    length b = 16%nat -> Forall is_byte b ->
    length (aes256_encrypt_block k b) = 16%nat;
  aes256_encrypt_bytes : forall k b,
    length k = 32%nat -> Forall is_byte k ->
    length b = 16%nat -> Forall is_byte b ->
    Forall is_byte (aes256_encrypt_block k b);
  aes256_decrypt_encrypt : forall k b,
    length k = 32%nat -> Forall is_byte k ->
    length b = 16%nat -> Forall is_byte b ->
    aes256_decrypt_block k (aes256_encrypt_block k b) = b
}.

(** The system's random source: an unbounded tape of bytes and the read
    position. *)
Record RandomSource := {
  tape : nat -> Z;
  position : nat
}.

Module crypto.

(** [crypto.randomBytes(size)] *)
Definition randomBytes (size : Z) (rnd : RandomSource) : bytes * RandomSource :=
  let n := Z.to_nat size in
  (map (fun i => tape rnd i mod 256) (seq (position rnd) n),
   {| tape := tape rnd; position := (position rnd + n)%nat |}).

(** [crypto.randomInt(max)] for a positive [max]: one draw from the source,
    brought into the range from 0 to [max - 1]. *)
Definition randomInt (max : Z) (rnd : RandomSource) : Z * RandomSource :=
  (tape rnd (position rnd) mod max,
   {| tape := tape rnd; position := S (position rnd) |}).

Definition xor_bytes (a b : bytes) : bytes := zip_with Z.lxor a b.

Definition int32be (i : Z) : bytes :=
  [(i / 16777216) mod 256; (i / 65536) mod 256; (i / 256) mod 256; i mod 256].

(** A byte sequence cut into 16-byte blocks (the last one may be short). *)
Fixpoint blocks_fuel (fuel : nat) (bs : bytes) : list bytes :=
  match fuel with
  | O => []
  | S fuel' =>
      match bs with
      | [] => []
      | _ :: _ => take 16 bs :: blocks_fuel fuel' (drop 16 bs)
      end
  end.

Definition blocks (bs : bytes) : list bytes := blocks_fuel (length bs) bs.

(** PKCS#7 padding to a multiple of 16 bytes. *)
Definition pkcs7_pad (bs : bytes) : bytes :=
  let n := 16 - len bs mod 16 in
  bs ++ replicate (Z.to_nat n) n.

Definition pkcs7_unpad (block : bytes) : option bytes :=
  let n := List.last block 0 in
  let keep := (length block - Z.to_nat n)%nat in
  if (1 <=? n) && (n <=? 16) && (n <=? len block)
     && forallb (Z.eqb n) (drop keep block)
  then Some (take keep block)
  else None.

Section with_primitives.
Context `{Primitives}.

(** PBKDF2 (RFC 8018) with HMAC-SHA-512: block [i] of the derived key. *)
Definition pbkdf2_block (P S : bytes) (c : Z) (i : Z) : bytes :=
  let U1 := hmac_sha512 P (S ++ int32be i) in
  fst (N.iter (Z.to_N (c - 1))
         (fun '(T, U) => let U' := hmac_sha512 P U in (xor_bytes T U', U'))
         (U1, U1)).

(** [crypto.pbkdf2Sync(password, salt, iterations, keylen, digest)] for a
    string password and a Buffer salt.  Only the digest ['sha512'] is
    modelled.  The salt may have any length. *)
Definition pbkdf2Sync (password : jsstring) (salt : bytes)
    (iterations keylen : Z) (digest : jsstring) : completion bytes :=
  if negb (bool_decide (digest = js "sha512")) then
    Throw (TypeError "Invalid digest")
  else if iterations <? 1 then Throw (RangeError "iterations")
  else if keylen <? 0 then Throw (RangeError "keylen")
  else
    Return (take (Z.to_nat keylen)
              (flat_map (pbkdf2_block (Buffer.from_utf8 password) salt iterations)
                 (seqZ 1 ((keylen + 63) / 64)))).

(** CBC chaining over whole blocks. *)
Fixpoint cbc_encrypt (key prev : bytes) (ps : list bytes) : list bytes :=
  match ps with
  | [] => []
  | p :: ps' =>
      let c := aes256_encrypt_block key (xor_bytes p prev) in
      c :: cbc_encrypt key c ps'
  end.

Fixpoint cbc_decrypt (key prev : bytes) (cs : list bytes) : list bytes :=
  match cs with
  | [] => []
  | c :: cs' =>
      xor_bytes (aes256_decrypt_block key c) prev :: cbc_decrypt key c cs'
  end.

(** A [Cipher] or [Decipher] object: the key, the chaining value (at first
    the IV) and the input not yet processed. *)
Record Cipher := {
  key : bytes;
  chain : bytes;
  buffered : bytes
}.

(** [crypto.createCipheriv(algorithm, key, iv)] and
    [crypto.createDecipheriv(algorithm, key, iv)].  Only ['aes-256-cbc'] is
    modelled. *)
Definition createCipheriv (algorithm : jsstring) (k iv : bytes)
  : completion Cipher :=
  if negb (bool_decide (algorithm = js "aes-256-cbc")) then
    Throw (TypeError "Invalid cipher")
  else if negb (len k =? 32) then Throw (RangeError "Invalid key length")
  else if negb (len iv =? 16) then
    Throw (TypeError "Invalid initialization vector")
  else Return {| key := k; chain := iv; buffered := [] |}.

Definition createDecipheriv := createCipheriv.

(** [cipher.update(data)]: every complete block is encrypted. *)
Definition Cipher_update (c : Cipher) (data : bytes) : Cipher * bytes :=
  let buf := buffered c ++ data in
  let n := (length buf / 16 * 16)%nat in
  let out := cbc_encrypt (key c) (chain c) (blocks (take n buf)) in
  ({| key := key c; chain := List.last out (chain c); buffered := drop n buf |},
   List.concat out).

(** [cipher.final()]: the rest is padded and encrypted. *)
Definition Cipher_final (c : Cipher) : completion bytes :=
  Return (List.concat
            (cbc_encrypt (key c) (chain c) (blocks (pkcs7_pad (buffered c))))).

(** [decipher.update(data)]: every complete block but the last one is
    decrypted; the last is held back for [final]. *)
Definition Decipher_update (c : Cipher) (data : bytes) : Cipher * bytes :=
  let buf := buffered c ++ data in
  let n := ((length buf - 1) / 16 * 16)%nat in
  let cs := blocks (take n buf) in
  ({| key := key c; chain := List.last cs (chain c); buffered := drop n buf |},
   List.concat (cbc_decrypt (key c) (chain c) cs)).

(** [decipher.final()]: throws unless exactly one block is left and its
    plaintext ends in well-formed padding. *)
Definition Decipher_final (c : Cipher) : completion bytes :=
  if len (buffered c) =? 16 then
    match pkcs7_unpad
            (xor_bytes (aes256_decrypt_block (key c) (buffered c)) (chain c))
    with
    | Some p => Return p
    | None => Throw (Error "bad decrypt")
    end
  else Throw (Error "wrong final block length").

End with_primitives.
End crypto.

(** [arr.sort(comparefn)] on the code units of a string, for a comparison
    function that draws from the random source.  With a comparison that is
    not consistent the order of the result is implementation-defined; what
    every engine keeps is the elements ([SortingLaws]). *)
Class Sorting := {
  Array_sort_by :
    (Z -> Z -> RandomSource -> Z * RandomSource) ->
    list Z -> RandomSource -> list Z * RandomSource
}.

Class SortingLaws `{Sorting} : Prop := {
  Array_sort_by_permutation : forall comparefn items rnd,
    (Array_sort_by comparefn items rnd).1 ≡ₚ items
}.

(** ** [utils/encryption.js]: class [PasswordEncryption] *)

Module PasswordEncryption.

Record t := {
  algorithm : jsstring;
  keyLength : Z;
  ivLength : Z;
  saltLength : Z;
  iterations : Z;
  hashAlgorithm : jsstring
}.

Definition constructor : t := {|
  algorithm := js "aes-256-cbc";
  keyLength := 32;
  ivLength := 16;
  saltLength := 32;
  iterations := 100000;
  hashAlgorithm := js "sha512"
|}.

Definition generateSalt (this : t) (rnd : RandomSource) : bytes * RandomSource :=
  crypto.randomBytes (saltLength this) rnd.

Section with_primitives.
Context `{Primitives}.

Definition deriveKey (this : t) (password : jsstring) (salt : bytes)
  : completion bytes :=
  crypto.pbkdf2Sync password salt (iterations this) (keyLength this)
    (hashAlgorithm this).

Definition hashPassword (this : t) (rnd : RandomSource) (password : jsstring)
  : completion jsstring :=
  try_catch
    (let '(salt, rnd) := generateSalt this rnd in
     let '(iv, rnd) := crypto.randomBytes (ivLength this) rnd in
     key ← deriveKey this password salt;
     cipher ← crypto.createCipheriv (algorithm this) key iv;
     let '(cipher, out) := crypto.Cipher_update cipher (Buffer.from_utf8 password) in
     let encrypted := Buffer.toString_hex out in
     out ← crypto.Cipher_final cipher;
     let encrypted := encrypted ++ Buffer.toString_hex out in
     let combined := Buffer.concat [salt; iv; Buffer.from_hex encrypted] in
     Return (Buffer.toString_base64 combined))
    (fun error => Throw (Error "Password encryption failed")).

(** The [try] block of [comparePassword].  The plaintext pieces returned
    by [update] and [final] pass through the decipher's UTF-8 string
    decoder, which yields the decoding of their concatenation:
    [decrypted]. *)
Definition comparePassword_try (this : t)
    (candidatePassword hashedPassword : jsstring) : completion bool :=
  let combined := Buffer.from_base64 hashedPassword in
  let salt := Buffer.slice combined 0 (saltLength this) in
  let iv := Buffer.slice combined (saltLength this)
              (saltLength this + ivLength this) in
  let encrypted := Buffer.slice_from combined (saltLength this + ivLength this) in
  key ← deriveKey this candidatePassword salt;
  decipher ← crypto.createDecipheriv (algorithm this) key iv;
  let '(decipher, out1) := crypto.Decipher_update decipher encrypted in
  out2 ← crypto.Decipher_final decipher;
  let decrypted := Buffer.toString_utf8 (out1 ++ out2) in
  let isMatch := bool_decide (decrypted = candidatePassword) in
  Return isMatch.

Definition comparePassword (this : t) (candidatePassword hashedPassword : jsstring)
  : completion bool :=
  try_catch (comparePassword_try this candidatePassword hashedPassword)
    (fun error => Return false).

End with_primitives.

(** *** [validatePasswordStrength] *)

Record Criteria := {
  minLength : bool;
  hasUppercase : bool;
  hasLowercase : bool;
  hasNumbers : bool;
  hasSymbols : bool;
  noCommonPatterns : bool
}.

Record Strength := {
  isValid : bool;
  strength : jsstring;
  score : Z;
  suggestions : list jsstring;
  criteria : Criteria
}.

(** [/[A-Z]/], [/[a-z]/], [/\d/] and the symbol class, each under [test]. *)
Definition test_uppercase (s : jsstring) : bool :=
  existsb (fun c => (65 <=? c) && (c <=? 90)) s.
Definition test_lowercase (s : jsstring) : bool :=
  existsb (fun c => (97 <=? c) && (c <=? 122)) s.
Definition test_digit (s : jsstring) : bool :=
  existsb (fun c => (48 <=? c) && (c <=? 57)) s.
Definition symbol_class : jsstring := js "!@#$%^&*()_+-=[]{}|;:,.<>?".
Definition test_symbol (s : jsstring) : bool :=
  existsb (fun c => existsb (Z.eqb c) symbol_class) s.

(** [s.toLowerCase()], as far as matching ASCII patterns can see it: ASCII
    capitals are lowered, the two other code units whose lower-case form
    contains an ASCII letter are expanded (U+0130 to [i] and U+0307, U+212A
    to [k]), and every other code unit, whose lower-case form has no ASCII
    letter or digit, stands for it. *)
Definition lower_code_unit (c : Z) : jsstring :=
  if (65 <=? c) && (c <=? 90) then [c + 32]
  else if c =? 0x130 then [0x69; 0x307]
  else if c =? 0x212A then [0x6B]
  else [c].

Definition toLowerCase (s : jsstring) : jsstring := flat_map lower_code_unit s.

Definition commonPatterns : list jsstring :=
  [js "123456"; js "password"; js "qwerty"; js "abc123";
   js "111111"; js "000000"; js "admin"; js "login"].

(** The [for ... of] loop over [commonPatterns], left at the first match. *)
Fixpoint check_patterns (patterns : list jsstring) (password : jsstring)
    (result : Strength) : Strength :=
  match patterns with
  | [] => result
  | pattern :: rest =>
      if includes (toLowerCase password) pattern then
        {| isValid := isValid result;
           strength := strength result;
           score := Z.max 0 (score result - 1);
           suggestions := suggestions result ++ [js "Avoid common patterns"];
           criteria :=
             {| minLength := minLength (criteria result);
                hasUppercase := hasUppercase (criteria result);
                hasLowercase := hasLowercase (criteria result);
                hasNumbers := hasNumbers (criteria result);
                hasSymbols := hasSymbols (criteria result);
                noCommonPatterns := false |} |}
      else check_patterns rest password result
  end.

Definition validatePasswordStrength (password : jsstring) : Strength :=
  (* each check adds one to the score or pushes a suggestion *)
  let c1 := len password >=? 8 in
  let c2 := test_uppercase password in
  let c3 := test_lowercase password in
  let c4 := test_digit password in
  let c5 := test_symbol password in
  let point (c : bool) : Z := if c then 1 else 0 in
  let advice (c : bool) (msg : jsstring) : list jsstring :=
    if c then [] else [msg] in
  let result :=
    {| isValid := false;
       strength := js "weak";
       score := 0 + point c1 + point c2 + point c3 + point c4 + point c5;
       suggestions :=
         advice c1 (js "Use at least 8 characters")
         ++ advice c2 (js "Include uppercase letters")
         ++ advice c3 (js "Include lowercase letters")
         ++ advice c4 (js "Include numbers")
         ++ advice c5 (js "Include special characters");
       criteria :=
         {| minLength := c1; hasUppercase := c2; hasLowercase := c3;
            hasNumbers := c4; hasSymbols := c5; noCommonPatterns := true |} |} in
  let result := check_patterns commonPatterns password result in
  if score result >=? 4 then
    {| isValid := true; strength := js "strong"; score := score result;
       suggestions := suggestions result; criteria := criteria result |}
  else if score result >=? 3 then
    {| isValid := true; strength := js "medium"; score := score result;
       suggestions := suggestions result; criteria := criteria result |}
  else
    {| isValid := false; strength := js "weak"; score := score result;
       suggestions := suggestions result; criteria := criteria result |}.

(** *** [generateSecurePassword] *)

Definition charset : jsstring :=
  js "ABCDEFGHIJKLMNOPQRSTUVWXYZabcdefghijklmnopqrstuvwxyz0123456789!@#$%^&*()_+-=[]{}|;:,.<>?".
Definition uppercase : jsstring := js "ABCDEFGHIJKLMNOPQRSTUVWXYZ".
Definition lowercase : jsstring := js "abcdefghijklmnopqrstuvwxyz".
Definition numbers : jsstring := js "0123456789".
Definition symbols : jsstring := js "!@#$%^&*()_+-=[]{}|;:,.<>?".

(** The [for] loop: [n] more characters of [charset]. *)
Fixpoint fill (n : nat) (password : jsstring) (rnd : RandomSource)
  : jsstring * RandomSource :=
  match n with
  | O => (password, rnd)
  | S n' =>
      let '(i, rnd) := crypto.randomInt (len charset) rnd in
      fill n' (password ++ String_at charset i) rnd
  end.

Section with_sorting.
Context `{Sorting}.

(** An omitted [length] is [None] and takes the default.  The string is
    split into its code units, sorted by a comparison that answers -1, 0
    or 1 at random, and joined again. *)
Definition generateSecurePassword (length : option Z) (rnd : RandomSource)
  : jsstring * RandomSource :=
  let length := default 16 length in
  let password : jsstring := [] in
  let '(i, rnd) := crypto.randomInt (len uppercase) rnd in
  let password := password ++ String_at uppercase i in
  let '(i, rnd) := crypto.randomInt (len lowercase) rnd in
  let password := password ++ String_at lowercase i in
  let '(i, rnd) := crypto.randomInt (len numbers) rnd in
  let password := password ++ String_at numbers i in
  let '(i, rnd) := crypto.randomInt (len symbols) rnd in
  let password := password ++ String_at symbols i in
  let '(password, rnd) := fill (Z.to_nat (length - len password)) password rnd in
  Array_sort_by
    (fun _ _ rnd => let '(r, rnd) := crypto.randomInt 3 rnd in (r - 1, rnd))
    password rnd.

End with_sorting.

End PasswordEncryption.

(** The singleton the module exports its functions from. *)
Definition passwordEncryption : PasswordEncryption.t :=
  PasswordEncryption.constructor.

(** A small instance of the primitives, to run the model on: a block is
    encrypted by XOR with the first bytes of the key, and the MAC repeats a
    checksum of its input.  The theorems below hold for every instance
    that satisfies [PrimitivesLaws]. *)
Definition checksum (bs : bytes) : Z := fold_right (fun b acc => (b + 31 * acc) mod 256) 7 bs.

Definition xor_primitives : Primitives := {|
  hmac_sha512 := fun k m => replicate 64 (checksum (k ++ m));
  aes256_encrypt_block := fun k b => crypto.xor_bytes b k;
  aes256_decrypt_block := fun k b => crypto.xor_bytes b k
|}.

(** ** JavaScript values *)

(** The values the cache handles: what [JSON] can carry, and [undefined]
    and [NaN].  Numbers are exact rationals in lowest terms (binary
    floating-point rounding is not modelled); an object is the list of its
    own properties in the engine's order. *)
Inductive value :=
  | VUndefined
  | VNull
  | VBool (b : bool)
  | VNum (q : Q)
  | VNaN
  | VStr (s : jsstring)
  | VArr (items : list value)
  | VObj (props : list (jsstring * value)).

(** What the program takes from the engine: number and date formatting and
    the JSON codec.  [JSON_stringify] is [None] where [JSON.stringify]
    returns [undefined]; [JSON_parse] throws on text that is not JSON. *)
Class Engine := {
  Number_toString : Q -> jsstring;
  Date_toISOString : Z -> jsstring;
  JSON_stringify : value -> option jsstring;
  JSON_parse : jsstring -> completion value
}.

(** Equality of numerator and denominator. *)
Definition Q_same (a b : Q) : bool :=
  (Qnum a =? Qnum b) && (Qden a =? Qden b)%positive.

Definition truthy (v : value) : bool :=
  match v with
  | VUndefined | VNull | VNaN => false
  | VBool b => b
  | VNum q => negb (Qeq_bool q 0)
  | VStr s => negb (bool_decide (s = []))
  | VArr _ | VObj _ => true
  end.

(** [a || b] *)
Definition js_or (a b : value) : value := if truthy a then a else b.

Definition Array_isArray (v : value) : bool :=
  match v with VArr _ => true | _ => false end.

Fixpoint lookup_prop (props : list (jsstring * value)) (name : jsstring)
  : option value :=
  match props with
  | [] => None
  | (k, v) :: rest =>
      if bool_decide (k = name) then Some v else lookup_prop rest name
  end.

(** [v.name] for a property name that no prototype defines. *)
Definition get_prop (v : value) (name : jsstring) : completion value :=
  match v with
  | VUndefined | VNull => Throw (TypeError "Cannot read properties")
  | VObj props => Return (default VUndefined (lookup_prop props name))
  | _ => Return VUndefined
  end.

(** [obj.name = v]: an existing property keeps its place. *)
Fixpoint set_prop (props : list (jsstring * value)) (name : jsstring) (v : value)
  : list (jsstring * value) :=
  match props with
  | [] => [(name, v)]
  | (k, old) :: rest =>
      if bool_decide (k = name) then (k, v) :: rest
      else (k, old) :: set_prop rest name v
  end.

(** The own enumerable properties [{...v}] copies. *)
Definition spread (v : value) : list (jsstring * value) :=
  match v with
  | VObj props => props
  | VArr items => imap (fun i x => (decimal (Z.of_nat i), x)) items
  | VStr s => imap (fun i c => (decimal (Z.of_nat i), VStr [c])) s
  | _ => []
  end.

(** Values [JSON] carries unchanged: no [undefined] or [NaN] inside,
    numbers in lowest terms, distinct property names. *)
Fixpoint json_safe (v : value) : bool :=
  match v with
  | VUndefined | VNaN => false
  | VNull | VBool _ | VStr _ => true
  | VNum q => Q_same (Qred q) q
  | VArr items => forallb json_safe items
  | VObj props =>
      bool_decide (NoDup (map fst props))
      && forallb (fun kv => json_safe (snd kv)) props
  end.

Section with_engine.
Context `{Engine}.

(** [String(v)], [`${v}`] *)
Fixpoint ToString (v : value) : jsstring :=
  match v with
  | VUndefined => js "undefined"
  | VNull => js "null"
  | VBool true => js "true"
  | VBool false => js "false"
  | VNum q => Number_toString q
  | VNaN => js "NaN"
  | VStr s => s
  | VArr items =>
      join (js ",")
        (map (fun x => match x with
                       | VUndefined | VNull => []
                       | _ => ToString x
                       end) items)
  | VObj _ => js "[object Object]"
  end.

(** [arr.join(sep)] *)
Definition Array_join (items : list value) (sep : jsstring) : jsstring :=
  join sep
    (map (fun x => match x with
                   | VUndefined | VNull => []
                   | _ => ToString x
                   end) items).

(** [arr.sort()] with the default comparison: by string form, stable,
    [undefined] last. *)
Fixpoint sort_insert (x : value) (sorted : list value) : list value :=
  match sorted with
  | [] => [x]
  | y :: rest =>
      if str_lt (ToString y) (ToString x) then y :: sort_insert x rest
      else x :: y :: rest
  end.

Definition is_undefined (v : value) : bool :=
  match v with VUndefined => true | _ => false end.

Definition Array_sort (items : list value) : list value :=
  fold_right sort_insert [] (List.filter (fun x => negb (is_undefined x)) items)
    ++ List.filter is_undefined items.

(** [a + b] *)
Definition ToPrimitive (v : value) : value :=
  match v with
  | VArr _ | VObj _ => VStr (ToString v)
  | _ => v
  end.

Definition js_add (a b : value) : value :=
  match ToPrimitive a, ToPrimitive b with
  | VStr s, b' => VStr (s ++ ToString b')
  | a', VStr s => VStr (ToString a' ++ s)
  | a', b' =>
      let number (p : value) : option Q :=
        match p with
        | VNum q => Some q
        | VBool true => Some 1%Q
        | VBool false | VNull => Some 0%Q
        | _ => None
        end in
      match number a', number b' with
      | Some x, Some y => VNum (Qred (x + y))
      | _, _ => VNaN
      end
  end.

End with_engine.

(** [s.replace(pattern, replacement)] for a string pattern: the first
    occurrence is replaced; in the replacement, [$$] stands for [$], [$&]
    for the match, and [$`] and [$'] for the text before and after it. *)
Fixpoint substitution (replacement matched before after : jsstring) : jsstring :=
  match replacement with
  | 36 :: c :: rest =>
      if c =? 36 then 36 :: substitution rest matched before after
      else if c =? 38 then matched ++ substitution rest matched before after
      else if c =? 96 then before ++ substitution rest matched before after
      else if c =? 39 then after ++ substitution rest matched before after
      else 36 :: c :: substitution rest matched before after
  | c :: rest => c :: substitution rest matched before after
  | [] => []
  end.

Fixpoint replace_from (before s pattern replacement : jsstring) : jsstring :=
  if starts_with pattern s then
    before ++ substitution replacement pattern before (drop (length pattern) s)
           ++ drop (length pattern) s
  else
    match s with
    | [] => before
    | c :: rest => replace_from (before ++ [c]) rest pattern replacement
    end.

Definition String_replace (s pattern replacement : jsstring) : jsstring :=
  replace_from [] s pattern replacement.

(** ** The Redis server and the client library *)

(** A stored string and the instant (milliseconds) at which it expires. *)
Record entry := {
  data : jsstring;
  expires : Z
}.

(** Everything outside the process: the server's keys, whether commands
    reach it, and the clock. *)
Record world := {
  store : gmap (list Z) entry;
  link_up : bool;
  clock : Z
}.

(** An action on the world that returns or throws. *)
Definition io (A : Type) : Type := world -> completion A * world.

Definition io_ret {A} (a : A) : io A := fun w => (Return a, w).
Definition io_throw {A} (e : exn) : io A := fun w => (Throw e, w).
Definition io_bind {A B} (m : io A) (f : A -> io B) : io B := fun w =>
  match m w with
  | (Return a, w') => f a w'
  | (Throw e, w') => (Throw e, w')
  end.
Definition io_try {A} (body : io A) (handler : exn -> io A) : io A := fun w =>
  match body w with
  | (Return a, w') => (Return a, w')
  | (Throw e, w') => handler e w'
  end.
Definition io_lift {A} (c : completion A) : io A := fun w => (c, w).
(** [Date.now()] *)
Definition Date_now : io Z := fun w => (Return (clock w), w).

Notation "x <- m ;; k" := (io_bind m (fun x => k))
  (at level 100, m at next level, right associativity).
Notation "m ;;; k" := (io_bind m (fun _ => k))
  (at level 100, right associativity).

(** The value a key holds at the world's clock. *)
Definition live (w : world) (k : jsstring) : option jsstring :=
  match store w !! k with
  | Some e => if clock w <? expires e then Some (data e) else None
  | None => None
  end.

Definition with_store (w : world) (s : gmap (list Z) entry) : world :=
  {| store := s; link_up := link_up w; clock := clock w |}.

Module redis.

(** The client object of the [redis] package. *)
Record Client := {
  url : jsstring
}.

(** A command sent over the link: it is rejected when the link is down. *)
Definition command {A} (run : world -> completion A * world) : io A := fun w =>
  if link_up w then run w else (Throw (Error "The client is closed"), w).

(** [client.get(key)]: the string, or [null]. *)
Definition get (c : Client) (k : jsstring) : io (option jsstring) :=
  command (fun w => (Return (live w k), w)).

(** [client.setEx(key, seconds, value)]; the server refuses an expire time
    that is not positive, the client a value that is not a string. *)
Definition setEx (c : Client) (k : jsstring) (seconds : Z) (v : option jsstring)
  : io unit :=
  match v with
  | None => io_throw (TypeError "Invalid argument type")
  | Some s =>
      command (fun w =>
        if seconds <=? 0 then (Throw (Error "ERR invalid expire time"), w)
        else
          (Return tt,
           with_store w
             (<[k := {| data := s; expires := clock w + seconds * 1000 |}]> (store w))))
  end.

(** [client.del(key)]: the number of keys removed. *)
Definition del (c : Client) (k : jsstring) : io Z :=
  command (fun w =>
    (Return (match live w k with Some _ => 1 | None => 0 end),
     with_store w (delete k (store w)))).

(** [client.exists(key)] *)
Definition exists_ (c : Client) (k : jsstring) : io Z :=
  command (fun w =>
    (Return (match live w k with Some _ => 1 | None => 0 end), w)).

(** [client.mGet(keys)] *)
Definition mGet (c : Client) (ks : list jsstring) : io (list (option jsstring)) :=
  command (fun w =>
    match ks with
    | [] => (Throw (Error "ERR wrong number of arguments"), w)
    | _ :: _ => (Return (map (live w) ks), w)
    end).

(** [client.set(key, value, { EX: seconds })] *)
Definition set_EX (c : Client) (k : jsstring) (v : option jsstring) (seconds : Z)
  : io unit :=
  setEx c k seconds v.

(** A glob pattern of literal code units, [*] and [?] against a key. *)
Fixpoint glob (pattern : jsstring) (k : jsstring) : bool :=
  match pattern with
  | [] => match k with [] => true | _ :: _ => false end
  | p :: pattern' =>
      if p =? 42 then
        (fix star (k : jsstring) : bool :=
           glob pattern' k
           || match k with
              | [] => false
              | _ :: k' => star k'
              end) k
      else
        match k with
        | [] => false
        | c :: k' => ((p =? 63) || (p =? c)) && glob pattern' k'
        end
  end.

(** [client.keys(pattern)]: the keys that hold a value and match, in the
    server's order. *)
Definition keys (c : Client) (pattern : jsstring) : io (list jsstring) :=
  command (fun w =>
    (Return
       (List.filter
          (fun k => glob pattern k
                    && match live w k with Some _ => true | None => false end)
          (map fst (map_to_list (store w)))),
     w)).

(** [client.multi()], [pipeline.setEx(..)] and [pipeline.exec()]: the
    queued commands run in order when [exec] is called. *)
Definition Pipeline := list (jsstring * Z * option jsstring).

Definition multi (c : Client) : Pipeline := [].

Definition pipeline_setEx (p : Pipeline) (k : jsstring) (seconds : Z)
    (v : option jsstring) : Pipeline :=
  p ++ [(k, seconds, v)].

Fixpoint exec_all (c : Client) (p : Pipeline) : io unit :=
  match p with
  | [] => io_ret tt
  | (k, seconds, v) :: rest => (setEx c k seconds v ;;; exec_all c rest)
  end.

Definition exec (c : Client) (p : Pipeline) : io unit := exec_all c p.

End redis.

(** ** [config/redis.js]: class [RedisClient] *)

Module RedisClient.

Record t := {
  client : option redis.Client;
  isConnected : bool
}.

Definition constructor : t := {| client := None; isConnected := false |}.

Section with_engine.
Context `{Engine}.

(** [data ? JSON.parse(data) : null] *)
Definition parse_or_null (data : option jsstring) : completion value :=
  match data with
  | Some (c :: s) => JSON_parse (c :: s)
  | _ => Return VNull
  end.

Definition get (this : t) (key : jsstring) : io value :=
  io_try
    (match isConnected this, client this with
     | true, Some client =>
         data <- redis.get client key ;;
         io_lift (parse_or_null data)
     | _, _ => io_ret VNull
     end)
    (fun error => io_ret VNull).

(** An omitted [expireInSeconds] is [None] and takes the default. *)
Definition set (this : t) (key : jsstring) (data : value)
    (expireInSeconds : option Z) : io bool :=
  let expireInSeconds := default 3600 expireInSeconds in
  io_try
    (match isConnected this, client this with
     | true, Some client =>
         (redis.setEx client key expireInSeconds (JSON_stringify data) ;;;
          io_ret true)
     | _, _ => io_ret false
     end)
    (fun error => io_ret false).

Definition del (this : t) (key : jsstring) : io bool :=
  io_try
    (match isConnected this, client this with
     | true, Some client => (redis.del client key ;;; io_ret true)
     | _, _ => io_ret false
     end)
    (fun error => io_ret false).

Definition exists_ (this : t) (key : jsstring) : io bool :=
  io_try
    (match isConnected this, client this with
     | true, Some client =>
         result <- redis.exists_ client key ;;
         io_ret (result =? 1)
     | _, _ => io_ret false
     end)
    (fun error => io_ret false).

(** [results.map(result => result ? JSON.parse(result) : null)] *)
Fixpoint parse_all (results : list (option jsstring)) : completion (list value) :=
  match results with
  | [] => Return []
  | result :: rest =>
      match parse_or_null result with
      | Return v =>
          match parse_all rest with
          | Return vs => Return (v :: vs)
          | Throw e => Throw e
          end
      | Throw e => Throw e
      end
  end.

Definition mget (this : t) (keys : list jsstring) : io (list value) :=
  io_try
    (match isConnected this, client this, keys with
     | true, Some client, _ :: _ =>
         results <- redis.mGet client keys ;;
         io_lift (parse_all results)
     | _, _, _ => io_ret []
     end)
    (fun error => io_ret []).

(** [keyValuePairs] as the list [Object.entries] gives. *)
Definition mset (this : t) (keyValuePairs : list (jsstring * value))
    (expireInSeconds : option Z) : io bool :=
  let expireInSeconds := default 3600 expireInSeconds in
  io_try
    (match isConnected this, client this with
     | true, Some client =>
         let pipeline :=
           fold_left
             (fun pipeline '(key, value) =>
                redis.pipeline_setEx pipeline key expireInSeconds
                  (JSON_stringify value))
             keyValuePairs (redis.multi client) in
         (redis.exec client pipeline ;;; io_ret true)
     | _, _ => io_ret false
     end)
    (fun error => io_ret false).

(** *** Session management *)

Definition setSession (this : t) (userId : value) (token : jsstring)
    (ttlSeconds : option Z) : io bool :=
  let ttlSeconds := default 3600 ttlSeconds in
  io_try
    (match isConnected this, client this with
     | true, Some client =>
         let sessionKey := js "session:" ++ ToString userId in
         (redis.setEx client sessionKey ttlSeconds (Some token) ;;;
          io_ret true)
     | _, _ => io_ret false
     end)
    (fun error => io_ret false).

Definition getSession (this : t) (userId : value) : io (option jsstring) :=
  io_try
    (match isConnected this, client this with
     | true, Some client =>
         let sessionKey := js "session:" ++ ToString userId in
         token <- redis.get client sessionKey ;;
         io_ret token
     | _, _ => io_ret None
     end)
    (fun error => io_ret None).

Definition deleteSession (this : t) (userId : value) : io bool :=
  io_try
    (match isConnected this, client this with
     | true, Some client =>
         let sessionKey := js "session:" ++ ToString userId in
         (redis.del client sessionKey ;;; io_ret true)
     | _, _ => io_ret false
     end)
    (fun error => io_ret false).

(** *** Health data caching *)

Definition setHealthData (this : t) (userId : value) (healthData : value)
    (ttlSeconds : option Z) : io bool :=
  let ttlSeconds := default 1800 ttlSeconds in
  io_try
    (match isConnected this, client this with
     | true, Some client =>
         let healthKey := js "healthData:" ++ ToString userId in
         now <- Date_now ;;
         let dataWithTimestamp :=
           VObj (set_prop
                   (set_prop (spread healthData) (js "cachedAt")
                      (VStr (Date_toISOString now)))
                   (js "expiresAt")
                   (VStr (Date_toISOString (now + ttlSeconds * 1000)))) in
         (redis.setEx client healthKey ttlSeconds
            (JSON_stringify dataWithTimestamp) ;;;
          io_ret true)
     | _, _ => io_ret false
     end)
    (fun error => io_ret false).

Definition getHealthData (this : t) (userId : value) : io value :=
  io_try
    (match isConnected this, client this with
     | true, Some client =>
         let healthKey := js "healthData:" ++ ToString userId in
         data <- redis.get client healthKey ;;
         match data with
         | Some (c :: s) =>
             parsedData <- io_lift (JSON_parse (c :: s)) ;;
             io_ret parsedData
         | _ => io_ret VNull
         end
     | _, _ => io_ret VNull
     end)
    (fun error => io_ret VNull).

(** *** Calorie calculation caching *)

(** [Math.floor(x)] *)
Definition Math_floor (x : Q) : Q := inject_Z (Qfloor x).

(** The key computed by [setCaloricResult]: its locals [bmiRange],
    [diseaseTypes] (sorted in place when it is an array) and [cacheKey]. *)
Definition setCaloricResult_key (bmi : Q) (diseaseTypes : value)
  : Q * value * jsstring :=
  let bmiRange := Qred (Math_floor (bmi / (5 # 2)) * (5 # 2)) in
  let diseaseTypes :=
    match diseaseTypes with
    | VArr items => VArr (Array_sort items)
    | _ => diseaseTypes
    end in
  let diseaseKey :=
    match diseaseTypes with
    | VArr sorted => VStr (Array_join sorted (js ","))
    | _ => js_or diseaseTypes (VStr (js "none"))
    end in
  let cacheKey :=
    js "calorie:" ++ Number_toString bmiRange ++ js ":" ++ ToString diseaseKey in
  (bmiRange, diseaseTypes, cacheKey).

Definition setCaloricResult (this : t) (bmi : Q) (diseaseTypes : value)
    (calorieData : value) (ttlSeconds : option Z) : io bool :=
  let ttlSeconds := default 7200 ttlSeconds in
  io_try
    (match isConnected this, client this with
     | true, Some client =>
         let '(bmiRange, diseaseTypes, cacheKey) :=
           setCaloricResult_key bmi diseaseTypes in
         now <- Date_now ;;
         let resultData :=
           [(js "bmiRange", VNum bmiRange);
            (js "diseases", diseaseTypes);
            (js "result", calorieData);
            (js "cachedAt", VStr (Date_toISOString now));
            (js "hitCount", VNum 1)] in
         existing <- redis.get client cacheKey ;;
         resultData <-
           match existing with
           | Some (c :: s) =>
               existingData <- io_lift (JSON_parse (c :: s)) ;;
               hitCount <- io_lift (get_prop existingData (js "hitCount")) ;;
               io_ret (set_prop resultData (js "hitCount")
                         (js_add (js_or hitCount (VNum 0)) (VNum 1)))
           | _ => io_ret resultData
           end ;;
         (redis.setEx client cacheKey ttlSeconds
            (JSON_stringify (VObj resultData)) ;;;
          io_ret true)
     | _, _ => io_ret false
     end)
    (fun error => io_ret false).

(** The key computed by [getCaloricResult]. *)
Definition getCaloricResult_key (bmi : Q) (diseaseTypes : value) : jsstring :=
  let bmiRange := Qred (Math_floor (bmi / (5 # 2)) * (5 # 2)) in
  let diseaseKey :=
    match diseaseTypes with
    | VArr items => VStr (Array_join (Array_sort items) (js ","))
    | _ => js_or diseaseTypes (VStr (js "none"))
    end in
  js "calorie:" ++ Number_toString bmiRange ++ js ":" ++ ToString diseaseKey.

Definition getCaloricResult (this : t) (bmi : Q) (diseaseTypes : value)
  : io value :=
  io_try
    (match isConnected this, client this with
     | true, Some client =>
         let cacheKey := getCaloricResult_key bmi diseaseTypes in
         data <- redis.get client cacheKey ;;
         match data with
         | Some (c :: s) =>
             parsedData <- io_lift (JSON_parse (c :: s)) ;;
             io_lift (get_prop parsedData (js "result"))
         | _ => io_ret VNull
         end
     | _, _ => io_ret VNull
     end)
    (fun error => io_ret VNull).

(** *** Cache analytics *)

Definition getCacheAnalytics (this : t) : io value :=
  io_try
    (match isConnected this, client this with
     | true, Some client =>
         sessionKeys <- redis.keys client (js "session:*") ;;
         healthKeys <- redis.keys client (js "healthData:*") ;;
         calorieKeys <- redis.keys client (js "calorie:*") ;;
         io_ret
           (VObj
              [(js "activeSessions", VNum (inject_Z (len sessionKeys)));
               (js "cachedHealthProfiles", VNum (inject_Z (len healthKeys)));
               (js "calorieCalculations", VNum (inject_Z (len calorieKeys)));
               (js "totalKeys",
                VNum (inject_Z
                        (len sessionKeys + len healthKeys + len calorieKeys)))])
     | _, _ => io_ret VNull
     end)
    (fun error => io_ret VNull).

End with_engine.
End RedisClient.

(** ** [middleware/cache.js] *)

Module cache.
Section with_engine.
Context `{Engine}.

(** [req.user?._id || req.user?.userId] *)
Definition request_userId (user : value) : value :=
  match user with
  | VObj props =>
      js_or (default VUndefined (lookup_prop props (js "_id")))
            (default VUndefined (lookup_prop props (js "userId")))
  | _ => VUndefined
  end.

(** The key generators, applied to the request's user. *)
Definition userCacheKey (endpoint : jsstring) (user : value) : jsstring :=
  js "cache:user:" ++ ToString (request_userId user) ++ js ":" ++ endpoint.

Definition healthCacheKey (dataType : jsstring) (user : value) : jsstring :=
  js "cache:health:" ++ ToString (request_userId user) ++ js ":" ++ dataType.

Definition keysToDelete (userId : value) : list jsstring :=
  [js "cache:" ++ ToString userId ++ js ":/api/health/metrics";
   js "cache:" ++ ToString userId ++ js ":/api/health/diseases";
   js "cache:" ++ ToString userId ++ js ":/api/health/medications";
   js "cache:" ++ ToString userId ++ js ":/api/health/summary";
   js "cache:" ++ ToString userId ++ js ":/api/meals/daily";
   js "cache:" ++ ToString userId ++ js ":/api/meals/weekly";
   js "cache:" ++ ToString userId ++ js ":/api/ai/recommendations"].

(** The [for (const key of keysToDelete)] loop. *)
Fixpoint delete_matching (redisClient : RedisClient.t) (keys : list jsstring)
    (needle : jsstring) : io unit :=
  match keys with
  | [] => io_ret tt
  | key :: rest =>
      (if includes key needle
       then (RedisClient.del redisClient key ;;; io_ret tt)
       else io_ret tt) ;;;
      delete_matching redisClient rest needle
  end.

(** The callback [patterns.forEach] runs for one pattern. *)
Definition invalidate_pattern (redisClient : RedisClient.t) (userId : value)
    (pattern : jsstring) : io unit :=
  io_try
    (let fullPattern := String_replace pattern (js ":userId") (ToString userId) in
     delete_matching redisClient (keysToDelete userId)
       (String_replace (String_replace fullPattern (js "cache:") [])
          (js ":userId:") (ToString userId)))
    (fun error => io_ret tt).

Fixpoint forEach (redisClient : RedisClient.t) (userId : value)
    (patterns : list jsstring) : io unit :=
  match patterns with
  | [] => io_ret tt
  | pattern :: rest =>
      (invalidate_pattern redisClient userId pattern ;;;
       forEach redisClient userId rest)
  end.

(** The invalidation step of [invalidateAfterResponse], run when the
    handler sends its response with status [statusCode]. *)
Definition invalidateAfterResponse (redisClient : RedisClient.t)
    (patterns : list jsstring) (userId : value) (statusCode : Z) : io unit :=
  if (statusCode >=? 200) && (statusCode <? 300)
  then forEach redisClient userId patterns
  else io_ret tt.

(** [invalidateCache(patterns)] around a handler that answers with
    [statusCode]: what it does to the cache. *)
Definition invalidateCache (redisClient : RedisClient.t)
    (patterns : list jsstring) (user : value) (statusCode : Z) : io unit :=
  if negb (RedisClient.isConnected redisClient) then io_ret tt
  else
    let userId := request_userId user in
    if negb (truthy userId) then io_ret tt
    else invalidateAfterResponse redisClient patterns userId statusCode.

(** The request, as far as the middleware reads it: [req.user],
    [req.originalUrl], [req.path] and [req.query]. *)
Record Request := {
  user : value;
  originalUrl : jsstring;
  path : jsstring;
  query : value
}.

(** What a handler sends with [res.status(statusCode).json(body)]; the
    status is 200 when the handler sets none. *)
Record Response := {
  statusCode : Z;
  body : value
}.

(** [mealCacheKey(timeframe)], applied to the request. *)
Definition mealCacheKey (timeframe : jsstring) (req : Request) : io jsstring :=
  let userId := request_userId (user req) in
  queryDate <- io_lift (get_prop (query req) (js "date")) ;;
  now <- Date_now ;;
  let date :=
    js_or queryDate
      (VStr (hd (js "undefined") (String_split (Date_toISOString now) 84))) in
  io_ret (js "cache:meals:" ++ ToString userId ++ js ":" ++ timeframe
            ++ js ":" ++ ToString date).

(** [cache(expireInSeconds, keyGenerator)] around the rest of the route,
    [next], which answers with [res.json].  On a hit the cached data is the
    answer; on a miss [res.json] is replaced by a function that stores the
    data and then sends it.  An omitted argument is [None]. *)
Definition cache (redisClient : RedisClient.t) (expireInSeconds : option Z)
    (keyGenerator : option (Request -> io jsstring)) (req : Request)
    (next : world -> Response * world) (w : world) : Response * world :=
  let expireInSeconds := default 3600 expireInSeconds in
  if negb (RedisClient.isConnected redisClient) then next w
  else
    match
      (cacheKey <-
         match keyGenerator with
         | Some keyGenerator => keyGenerator req
         | None =>
             let userId :=
               js_or (request_userId (user req)) (VStr (js "anonymous")) in
             let path := js_or (VStr (originalUrl req)) (VStr (path req)) in
             io_ret (js "cache:" ++ ToString userId ++ js ":" ++ ToString path)
         end ;;
       cachedData <- RedisClient.get redisClient cacheKey ;;
       io_ret (cacheKey, cachedData)) w
    with
    | (Return (cacheKey, cachedData), w) =>
        if truthy cachedData then ({| statusCode := 200; body := cachedData |}, w)
        else
          let '(response, w) := next w in
          (response,
           snd (RedisClient.set redisClient cacheKey (body response)
                  (Some expireInSeconds) w))
    | (Throw error, w) => next w
    end.

(** [arr.filter(m => m.active)] *)
Fixpoint filter_active (items : list value) : completion (list value) :=
  match items with
  | [] => Return []
  | m :: rest =>
      active ← get_prop m (js "active");
      kept ← filter_active rest;
      Return (if truthy active then m :: kept else kept)
  end.

(** [warmCache(userId, userData)] *)
Definition warmCache (redisClient : RedisClient.t) (userId userData : value)
  : io unit :=
  io_try
    (if negb (RedisClient.isConnected redisClient) then io_ret tt
     else
       healthMetrics <- io_lift (get_prop userData (js "healthMetrics")) ;;
       (RedisClient.set redisClient
          (js "cache:health:" ++ ToString userId ++ js ":metrics")
          healthMetrics (Some 3600) ;;;
        diseases <- io_lift (get_prop userData (js "diseases")) ;;
        (RedisClient.set redisClient
           (js "cache:health:" ++ ToString userId ++ js ":diseases")
           diseases (Some 3600) ;;;
         medications <- io_lift (get_prop userData (js "medications")) ;;
         active <-
           io_lift
             match medications with
             | VArr items => kept ← filter_active items; Return (VArr kept)
             | _ => Throw (TypeError "filter is not a function")
             end ;;
         (RedisClient.set redisClient
            (js "cache:health:" ++ ToString userId ++ js ":medications")
            active (Some 3600) ;;;
          io_ret tt))))
    (fun error => io_ret tt).

End with_engine.
End cache.

(** ** [routes/auth.js]: what login and logout do to the cache *)

Module auth.
Section with_engine.
Context `{Engine}.

(** [jwt.verify(token, process.env.JWT_SECRET)]: the payload, or an
    exception. *)
Variable jwt_verify : jsstring -> completion value.

(** [process.env.NODE_ENV === 'development'] *)
Variable development : bool.

(** [warmCache(userId, userData)], the helper of this file. *)
Definition warmCache (redisClient : RedisClient.t) (userId userData : value)
  : io unit :=
  io_try
    (match RedisClient.isConnected redisClient, RedisClient.client redisClient with
     | true, Some client =>
         let cacheKey := js "user:" ++ ToString userId ++ js ":profile" in
         redis.set_EX client cacheKey (JSON_stringify userData) 3600
     | _, _ => io_ret tt
     end)
    (fun error => io_ret tt).

(** The session management of [POST /login] and [POST /register], for the
    user document [user] and the signed [token]. *)
Definition storeSession (redisClient : RedisClient.t) (user : value)
    (token : jsstring) : io unit :=
  (if RedisClient.isConnected redisClient then
     io_try
       (_id <- io_lift (get_prop user (js "_id")) ;;
        (RedisClient.setSession redisClient _id token (Some 604800) ;;;
         warmCache redisClient _id user))
       (fun error => io_ret tt)
   else io_ret tt) ;;;
  match RedisClient.isConnected redisClient, RedisClient.client redisClient with
  | true, Some client =>
      io_try
        (_id <- io_lift (get_prop user (js "_id")) ;;
         now <- Date_now ;;
         redis.set_EX client (js "session:legacy:" ++ ToString _id)
           (JSON_stringify
              (VObj [(js "userId", _id);
                     (js "loginTime", VStr (Date_toISOString now))]))
           604800)
        (fun error => io_ret tt)
  | _, _ => io_ret tt
  end.

(** [req.headers.authorization?.split(' ')[1]] *)
Definition bearer_token (authorization : value) : completion value :=
  match authorization with
  | VUndefined | VNull => Return VUndefined
  | VStr s =>
      Return (match String_split s 32 with
              | _ :: token :: _ => VStr token
              | _ => VUndefined
              end)
  | _ => Throw (TypeError "split is not a function")
  end.

(** [POST /logout], for the request's [Authorization] header.  The call
    [invalidateCache([...])] at its end only builds a middleware, which is
    never run. *)
Definition logout (redisClient : RedisClient.t) (authorization : value)
  : world -> cache.Response * world := fun w =>
  match
    (token <- io_lift (bearer_token authorization) ;;
     match token with
     | VStr (c :: t) =>
         decoded <- io_lift (jwt_verify (c :: t)) ;;
         userId <- io_lift (get_prop decoded (js "userId")) ;;
         (RedisClient.deleteSession redisClient userId ;;;
          (if RedisClient.isConnected redisClient then
             let sessionKey := js "session:legacy:" ++ ToString userId in
             let cacheKey := js "user:" ++ ToString userId ++ js ":profile" in
             let healthKey := js "healthData:" ++ ToString userId in
             (RedisClient.del redisClient sessionKey ;;;
              RedisClient.del redisClient cacheKey ;;;
              RedisClient.del redisClient healthKey ;;;
              io_ret tt)
           else io_ret tt) ;;;
          io_ret {| cache.statusCode := 200;
                    cache.body :=
                      VObj [(js "message", VStr (js "Logout successful"))] |})
     | _ =>
         io_ret {| cache.statusCode := 401;
                   cache.body :=
                     VObj [(js "message", VStr (js "No token provided"))] |}
     end) w
  with
  | (Return response, w) => (response, w)
  | (Throw error, w) =>
      ({| cache.statusCode := 500;
          cache.body :=
            VObj [(js "message", VStr (js "Error during logout"));
                  (js "error",
                   if development then
                     VStr (js match error with
                              | TypeError msg | RangeError msg
                              | SyntaxError msg | Error msg => msg
                              end)
                   else VObj [])] |}, w)
  end.

End with_engine.
End auth.

(** The singleton [config/redis.js] exports, once connected. *)
Definition connected (c : redis.Client) : RedisClient.t :=
  {| RedisClient.client := Some c; RedisClient.isConnected := true |}.

(** ** A reference engine

    An instance of [Engine] to run the model on: plain decimal notation
    for numbers, the proleptic Gregorian calendar for dates, and a codec
    that writes a value as the binary digits of its code.  The theorems
    hold for every engine that satisfies [EngineLaws]. *)

(** [JSON.parse(JSON.stringify(v))] gives [v] back for every value JSON
    carries, and [JSON.stringify] never yields the empty string. *)
Class EngineLaws `{Engine} : Prop := {
  JSON_round_trip : forall v,
    json_safe v = true ->
    exists s, JSON_stringify v = Some s /\ s <> [] /\ JSON_parse s = Return v
}.

Fixpoint fraction_digits (fuel : nat) (r d : Z) : jsstring :=
  match fuel with
  | O => []
  | S fuel' =>
      if r =? 0 then []
      else (48 + (r * 10) / d) :: fraction_digits fuel' ((r * 10) mod d) d
  end.

Definition decimal_notation (q : Q) : jsstring :=
  let d := Z.pos (Qden q) in
  let a := Z.abs (Qnum q) in
  (if Qnum q <? 0 then [45] else [])
    ++ decimal (a / d)
    ++ (if a mod d =? 0 then [] else 46 :: fraction_digits 17 (a mod d) d).

Definition pad (width : nat) (n : Z) : jsstring :=
  replicate (width - length (decimal n)) 48 ++ decimal n.

Definition iso_8601 (ms : Z) : jsstring :=
  let z := ms / 86400000 + 719468 in
  let t := ms mod 86400000 in
  let era := z / 146097 in
  let doe := z mod 146097 in
  let yoe := (doe - doe / 1460 + doe / 36524 - doe / 146096) / 365 in
  let doy := doe - (365 * yoe + yoe / 4 - yoe / 100) in
  let mp := (5 * doy + 2) / 153 in
  let d := doy - (153 * mp + 2) / 5 + 1 in
  let m := if mp <? 10 then mp + 3 else mp - 9 in
  let y := yoe + era * 400 + (if m <=? 2 then 1 else 0) in
  pad 4 y ++ js "-" ++ pad 2 m ++ js "-" ++ pad 2 d ++ js "T"
    ++ pad 2 (t / 3600000) ++ js ":" ++ pad 2 ((t / 60000) mod 60) ++ js ":"
    ++ pad 2 ((t / 1000) mod 60) ++ js "." ++ pad 3 (t mod 1000) ++ js "Z".

Definition leaf : Type := bool + Z * positive + list Z.

Fixpoint value_to_tree (v : value) : gen_tree leaf :=
  match v with
  | VUndefined => GenNode 0 []
  | VNull => GenNode 1 []
  | VNaN => GenNode 2 []
  | VBool b => GenLeaf (inl (inl b))
  | VNum q => GenLeaf (inl (inr (Qnum q, Qden q)))
  | VStr s => GenLeaf (inr s)
  | VArr items => GenNode 3 (map value_to_tree items)
  | VObj props =>
      GenNode 4
        (map (fun kv =>
                GenNode 5 [GenLeaf (inr (fst kv)); value_to_tree (snd kv)])
           props)
  end.

Fixpoint all_some {A} (l : list (option A)) : option (list A) :=
  match l with
  | [] => Some []
  | None :: _ => None
  | Some x :: rest =>
      match all_some rest with
      | Some xs => Some (x :: xs)
      | None => None
      end
  end.

Fixpoint tree_to_value (t : gen_tree leaf) : option value :=
  match t with
  | GenLeaf (inl (inl b)) => Some (VBool b)
  | GenLeaf (inl (inr (n, d))) => Some (VNum (n # d))
  | GenLeaf (inr s) => Some (VStr s)
  | GenNode 0 [] => Some VUndefined
  | GenNode 1 [] => Some VNull
  | GenNode 2 [] => Some VNaN
  | GenNode 3 ts =>
      match all_some (map tree_to_value ts) with
      | Some vs => Some (VArr vs)
      | None => None
      end
  | GenNode 4 ts =>
      match
        all_some
          (map (fun t =>
                  match t with
                  | GenNode 5 [GenLeaf (inr k); t'] =>
                      match tree_to_value t' with
                      | Some v => Some (k, v)
                      | None => None
                      end
                  | _ => None
                  end) ts)
      with
      | Some kvs => Some (VObj kvs)
      | None => None
      end
  | _ => None
  end.

Fixpoint positive_text (p : positive) : jsstring :=
  match p with
  | xH => [35]
  | xO p' => 48 :: positive_text p'
  | xI p' => 49 :: positive_text p'
  end.

Fixpoint text_positive (s : jsstring) : option positive :=
  match s with
  | [] => None
  | c :: s' =>
      if c =? 48 then xO <$> text_positive s'
      else if c =? 49 then xI <$> text_positive s'
      else if (c =? 35) && bool_decide (s' = []) then Some xH
      else None
  end.

Definition text_value (s : jsstring) : option value :=
  match text_positive s with
  | Some p =>
      match @decode (gen_tree leaf) _ _ p with
      | Some t => tree_to_value t
      | None => None
      end
  | None => None
  end.

Definition reference_engine : Engine := {|
  Number_toString := decimal_notation;
  Date_toISOString := iso_8601;
  JSON_stringify := fun v =>
    match v with
    | VUndefined => None
    | _ => Some (positive_text (encode (value_to_tree v)))
    end;
  JSON_parse := fun s =>
    match text_value s with
    | Some v => Return v
    | None => Throw (SyntaxError "Unexpected token")
    end
|}.

(** ** A reference sort

    An instance of [Sorting] to run the model on. *)

(** Insertion sort, which asks the comparison function about each pair it
    meets. *)
Fixpoint insert_by (comparefn : Z -> Z -> RandomSource -> Z * RandomSource)
    (x : Z) (sorted : list Z) (rnd : RandomSource) : list Z * RandomSource :=
  match sorted with
  | [] => ([x], rnd)
  | y :: rest =>
      let '(order, rnd) := comparefn x y rnd in
      if order <? 0 then (x :: y :: rest, rnd)
      else let '(placed, rnd) := insert_by comparefn x rest rnd in
           (y :: placed, rnd)
  end.

Fixpoint insertion_sort (comparefn : Z -> Z -> RandomSource -> Z * RandomSource)
    (items : list Z) (rnd : RandomSource) : list Z * RandomSource :=
  match items with
  | [] => ([], rnd)
  | x :: rest =>
      let '(sorted, rnd) := insertion_sort comparefn rest rnd in
      insert_by comparefn x sorted rnd
  end.

Definition insertion_sorting : Sorting := {| Array_sort_by := insertion_sort |}.

(** * Properties *)

Example decimal_ex : decimal 1800 = js "1800" /\ decimal 0 = js "0" /\ decimal (-25) = js "-25".
Proof. vm_compute. repeat split; reflexivity. Qed.

Example utf8_ex :
  Buffer.from_utf8 [0x41; 0xE9; 0x20AC; 0xD83D; 0xDE00] =
    [0x41; 0xC3; 0xA9; 0xE2; 0x82; 0xAC; 0xF0; 0x9F; 0x98; 0x80]
  /\ Buffer.toString_utf8 [0x41; 0xC3; 0xA9; 0xE2; 0x82; 0xAC; 0xF0; 0x9F; 0x98; 0x80]
     = [0x41; 0xE9; 0x20AC; 0xD83D; 0xDE00]
  /\ Buffer.toString_utf8 [0xC3; 0x41; 0xE2; 0x82; 0xFF; 0xED; 0xA0; 0x80]
     = [0xFFFD; 0x41; 0xFFFD; 0xFFFD; 0xFFFD; 0xFFFD; 0xFFFD].
Proof. vm_compute. repeat split; reflexivity. Qed.

Example base64_ex :
  Buffer.toString_base64 (Buffer.from_utf8 (js "Man is")) = js "TWFuIGlz"
  /\ Buffer.toString_base64 (Buffer.from_utf8 (js "Ma")) = js "TWE="
  /\ Buffer.from_base64 (js "TW E=") = [77; 97]
  /\ Buffer.toString_hex [0; 171; 255] = js "00abff"
  /\ Buffer.from_hex (js "00ABfg12") = [0; 171].
Proof. vm_compute. repeat split; reflexivity. Qed.

Example reference_engine_ex :
  decimal_notation (45 # 2) = js "22.5"
  /\ decimal_notation (-5 # 2) = js "-2.5"
  /\ decimal_notation 20 = js "20"
  /\ iso_8601 0 = js "1970-01-01T00:00:00.000Z"
  /\ iso_8601 1700000000123 = js "2023-11-14T22:13:20.123Z"
  /\ iso_8601 951782400000 = js "2000-02-29T00:00:00.000Z".
Proof. vm_compute. repeat split; reflexivity. Qed.

Example replace_ex :
  String_replace (js "cache:health:x") (js "cache:") [] = js "health:x"
  /\ String_replace (js "a-b-a") (js "a") (js "[$&$$]") = js "[a$]-b-a"
  /\ String_replace (js "abc") (js "z") (js "y") = js "abc"
  /\ includes (js "cache:1:/api/health/metrics") (js "health") = true
  /\ includes (js "cache:1:/api/meals/daily") (js "health") = false.
Proof. vm_compute. repeat split; reflexivity. Qed.

(** ** Fail-open *)

(** The client is marked disconnected, or was never created. *)
Definition disconnected (this : RedisClient.t) : Prop :=
  RedisClient.isConnected this = false \/ RedisClient.client this = None.

Lemma disconnected_cases (this : RedisClient.t) :
  disconnected this ->
  match RedisClient.isConnected this, RedisClient.client this with
  | true, Some _ => False
  | _, _ => True
  end.
Proof. intros [Hd|Hd]; rewrite Hd; [done|]. by destruct (RedisClient.isConnected this). Qed.

(** C3. With the client marked disconnected (or null), every operation of
    the cache backend and every session, health-data and calorie wrapper
    returns its empty value (null, false or the empty list) as a normal
    result, and leaves the world untouched. *)
Theorem fail_open `{Engine} (this : RedisClient.t) (w : world) :
  disconnected this ->
  (forall key, RedisClient.get this key w = (Return VNull, w))
  /\ (forall key data ttl, RedisClient.set this key data ttl w = (Return false, w))
  /\ (forall key, RedisClient.del this key w = (Return false, w))
  /\ (forall key, RedisClient.exists_ this key w = (Return false, w))
  /\ (forall keys, RedisClient.mget this keys w = (Return [], w))
  /\ (forall pairs ttl, RedisClient.mset this pairs ttl w = (Return false, w))
  /\ (forall userId, RedisClient.getSession this userId w = (Return None, w))
  /\ (forall userId token ttl,
        RedisClient.setSession this userId token ttl w = (Return false, w))
  /\ (forall userId, RedisClient.deleteSession this userId w = (Return false, w))
  /\ (forall userId, RedisClient.getHealthData this userId w = (Return VNull, w))
  /\ (forall userId healthData ttl,
        RedisClient.setHealthData this userId healthData ttl w = (Return false, w))
  /\ (forall bmi diseaseTypes,
        RedisClient.getCaloricResult this bmi diseaseTypes w = (Return VNull, w))
  /\ (forall bmi diseaseTypes calorieData ttl,
        RedisClient.setCaloricResult this bmi diseaseTypes calorieData ttl w
        = (Return false, w)).
Proof.
  intros Hd. apply disconnected_cases in Hd.
  destruct this as [[c|] [|]]; simpl in Hd; try contradiction;
    repeat split; intros; reflexivity.
Qed.

Definition quiet_world : world := {| store := ∅; link_up := false; clock := 0 |}.

Lemma fail_open_witness :
  disconnected RedisClient.constructor
  /\ RedisClient.get (H := reference_engine) RedisClient.constructor
       (js "perf:test") quiet_world = (Return VNull, quiet_world).
Proof.
  split; [by left|].
  exact (proj1 (fail_open (H := reference_engine) RedisClient.constructor
                  quiet_world (or_introl eq_refl)) (js "perf:test")).
Defined.

(** ** The calorie cache key *)

Section caloric_key.
Context `{Engine}.

(** The number both functions format into the key. *)
Definition bmi_bucket (bmi : Q) : Q :=
  Qred (RedisClient.Math_floor (bmi / (5 # 2)) * (5 # 2)).

Lemma setCaloricResult_key_get (bmi : Q) (diseaseTypes : value) :
  snd (RedisClient.setCaloricResult_key bmi diseaseTypes)
  = RedisClient.getCaloricResult_key bmi diseaseTypes.
Proof. by destruct diseaseTypes. Qed.

Lemma sort_insert_length (x : value) (l : list value) :
  length (sort_insert x l) = S (length l).
Proof.
  induction l as [|y l IH]; simpl; [done|].
  destruct (str_lt _ _); simpl; by rewrite ?IH.
Qed.

Lemma Array_sort_strings_length (names : list jsstring) :
  length (Array_sort (map VStr names)) = length names.
Proof.
  unfold Array_sort.
  assert (forall l : list jsstring,
            List.filter (fun x => negb (is_undefined x)) (map VStr l) = map VStr l
            /\ List.filter is_undefined (map VStr l) = []) as Hf.
  { intros l. induction l as [|n l [IH1 IH2]]; [done|]. split; simpl.
    - by f_equal.
    - done. }
  destruct (Hf names) as [-> ->]. rewrite length_app. simpl.
  rewrite Nat.add_0_r.
  induction names as [|n l IH]; simpl; [done|].
  by rewrite sort_insert_length, IH.
Qed.

Lemma join_two_comma (a b : jsstring) (rest : list jsstring) :
  In 44 (join (js ",") (a :: b :: rest)).
Proof. simpl. apply in_or_app. right. by left. Qed.

Lemma Array_join_two (x y : value) (rest : list value) :
  In 44 (Array_join (x :: y :: rest) (js ",")).
Proof. unfold Array_join. simpl map. apply join_two_comma. Qed.

(** Among arrays of strings, only [["none"]] is joined to ["none"]. *)
Lemma array_segment_none (names : list jsstring) :
  Array_join (Array_sort (map VStr names)) (js ",") = js "none"
  <-> names = [js "none"].
Proof.
  split.
  - intros Hj. pose proof (Array_sort_strings_length names) as Hl.
    destruct names as [|n [|m rest]].
    + discriminate Hj.
    + cbn in Hj. by subst.
    + destruct (Array_sort (map VStr (n :: m :: rest))) as [|x [|y l]] eqn:E;
        simpl in Hl; try discriminate.
      pose proof (Array_join_two x y l) as Hin. rewrite Hj in Hin.
      vm_compute in Hin. intuition discriminate.
  - intros ->. reflexivity.
Qed.

End caloric_key.

(** C10, as the code has it.  For every [bmi] and [diseaseTypes] the two
    functions compute the same key.  An array gives its sorted elements
    joined by commas as the condition segment, so the empty array gives the
    empty segment; the fallback segment ["none"] is taken exactly by the
    values that are not arrays and are falsy (null, undefined, the empty
    string, 0, false), and a truthy value that is not an array gives its own
    string form.  The segment can still read ["none"] without the fallback:
    among arrays of strings that is the array [["none"]] and no other. *)
Theorem caloric_key_agreement `{Engine} (bmi : Q) (diseaseTypes : value) :
  let prefix := js "calorie:" ++ Number_toString (bmi_bucket bmi) ++ js ":" in
  snd (RedisClient.setCaloricResult_key bmi diseaseTypes)
    = RedisClient.getCaloricResult_key bmi diseaseTypes
  /\ RedisClient.getCaloricResult_key bmi (VArr []) = prefix
  /\ (forall items,
        RedisClient.getCaloricResult_key bmi (VArr items)
        = prefix ++ Array_join (Array_sort items) (js ","))
  /\ (Array_isArray diseaseTypes = false ->
        RedisClient.getCaloricResult_key bmi diseaseTypes
        = prefix ++ (if truthy diseaseTypes then ToString diseaseTypes
                     else js "none"))
  /\ (forall names : list jsstring,
        RedisClient.getCaloricResult_key bmi (VArr (map VStr names))
        = prefix ++ js "none"
        <-> names = [js "none"]).
Proof.
  intros prefix. split; [apply setCaloricResult_key_get|].
  assert (forall items,
            RedisClient.getCaloricResult_key bmi (VArr items)
            = prefix ++ Array_join (Array_sort items) (js ",")) as Harr.
  { intros items. unfold RedisClient.getCaloricResult_key, prefix, bmi_bucket.
    simpl ToString. by rewrite <- !app_assoc. }
  split; [|split; [exact Harr|split]].
  - rewrite Harr. unfold prefix. by rewrite app_nil_r.
  - intros Hna. unfold RedisClient.getCaloricResult_key, prefix, bmi_bucket, js_or.
    destruct diseaseTypes; try discriminate Hna;
      destruct (truthy _) eqn:Ht; simpl ToString; by rewrite <- ?app_assoc.
  - intros names. rewrite Harr. rewrite <- array_segment_none.
    split; [apply app_inv_head | by intros ->].
Qed.

(** C10, counterexample: the array [["none"]] is not a falsy non-array
    value, and its key has the segment ["none"], the very key of [null]. *)
Lemma none_segment_from_array :
  Array_isArray (VArr [VStr (js "none")]) = true
  /\ RedisClient.getCaloricResult_key (H := reference_engine) (249 # 10)
       (VArr [VStr (js "none")]) = js "calorie:22.5:none"
  /\ RedisClient.getCaloricResult_key (H := reference_engine) (249 # 10) VNull
     = js "calorie:22.5:none".
Proof. vm_compute. repeat split; reflexivity. Qed.

(** ** Password strength *)

Section strength.
Import PasswordEncryption.

Definition point (c : bool) : Z := if c then 1 else 0.


(** Some deny-listed pattern occurs in the lower-cased password. *)
Definition deny_listed (password : jsstring) : bool :=
  existsb (includes (toLowerCase password)) commonPatterns.

Lemma starts_with_head (needle hay : jsstring) (c : Z) :
  starts_with (c :: needle) hay = true -> In c hay.
Proof.
  destruct hay as [|h hay]; simpl; [done|].
  intros [Hc _]%andb_prop. apply Z.eqb_eq in Hc. by left.
Qed.

Lemma includes_head (hay needle : jsstring) (c : Z) :
  includes hay (c :: needle) = true -> In c hay.
Proof.
  induction hay as [|h hay IH]; simpl.
  - done.
  - intros [Hs|Hi]%orb_prop.
    + destruct (andb_prop _ _ Hs) as [Hc _]. apply Z.eqb_eq in Hc. by left.
    + right. by apply IH.
Qed.

(** An ASCII letter other than [i] and [k], or a digit, of the lower-cased
    string comes from that character or from its capital. *)
Lemma toLowerCase_origin (s : jsstring) (c : Z) :
  In c (toLowerCase s) -> c <> 0x69 -> c <> 0x6B -> c <> 0x307 ->
  In c s \/ (In (c - 32) s /\ 65 <= c - 32 <= 90).
Proof.
  unfold toLowerCase. intros Hin Hi Hk Hd.
  apply in_flat_map in Hin as (u & Hu & Hc).
  unfold lower_code_unit in Hc.
  destruct ((65 <=? u) && (u <=? 90)) eqn:Hup.
  - destruct Hc as [<-|[]]. right. replace (u + 32 - 32) with u by lia.
    apply andb_prop in Hup as [?%Z.leb_le ?%Z.leb_le]. auto.
  - destruct (u =? 0x130); [simpl in Hc; intuition congruence|].
    destruct (u =? 0x212A); [simpl in Hc; intuition congruence|].
    destruct Hc as [<-|[]]. by left.
Qed.

Lemma existsb_in (f : Z -> bool) (s : jsstring) (c : Z) :
  In c s -> f c = true -> existsb f s = true.
Proof. intros Hin Hf. apply existsb_exists. eauto. Qed.

(** A password that contains a deny-listed pattern contains an ASCII
    letter or digit, so it has at least one point before the deduction. *)
Lemma deny_listed_scores (password : jsstring) :
  deny_listed password = true ->
  1 <= point (test_uppercase password) + point (test_lowercase password)
       + point (test_digit password).
Proof.
  unfold deny_listed. intros Hd.
  assert (exists c, In c (toLowerCase password)
                    /\ (48 <= c <= 57 \/ 97 <= c <= 122)
                    /\ c <> 0x69 /\ c <> 0x6B /\ c <> 0x307) as (c & Hin & Hc & Hi & Hk & Hdot).
  { apply existsb_exists in Hd as (p & Hp & Hinc).
    unfold commonPatterns in Hp. vm_compute in Hp.
    repeat (destruct Hp as [<-|Hp];
            [ apply includes_head in Hinc; eexists; split; [exact Hinc|lia] | ]).
    destruct Hp. }
  unfold test_uppercase, test_lowercase, test_digit.
  destruct (toLowerCase_origin _ _ Hin Hi Hk Hdot) as [Hs|[Hs Hup]];
    [destruct Hc as [Hc|Hc]|].
  - rewrite (existsb_in (fun c => (48 <=? c) && (c <=? 57)) _ c Hs) by lia.
    unfold point. repeat destruct (existsb _ _); lia.
  - rewrite (existsb_in (fun c => (97 <=? c) && (c <=? 122)) _ c Hs) by lia.
    unfold point. repeat destruct (existsb _ _); lia.
  - rewrite (existsb_in (fun c => (65 <=? c) && (c <=? 90)) _ (c - 32) Hs) by lia.
    unfold point. repeat destruct (existsb _ _); lia.
Qed.

(** The loop deducts one point, floored at zero, on the first match. *)
Lemma check_patterns_result (patterns : list jsstring) (password : jsstring)
    (r : Strength) :
  let hit := existsb (includes (toLowerCase password)) patterns in
  let r' := check_patterns patterns password r in
  score r' = (if hit then Z.max 0 (score r - 1) else score r)
  /\ minLength (criteria r') = minLength (criteria r)
  /\ hasUppercase (criteria r') = hasUppercase (criteria r)
  /\ hasLowercase (criteria r') = hasLowercase (criteria r)
  /\ hasNumbers (criteria r') = hasNumbers (criteria r)
  /\ hasSymbols (criteria r') = hasSymbols (criteria r)
  /\ noCommonPatterns (criteria r')
     = (if hit then false else noCommonPatterns (criteria r)).
Proof.
  induction patterns as [|p ps IH]; simpl.
  - repeat split.
  - destruct (includes (toLowerCase password) p); simpl; [repeat split|apply IH].
Qed.

End strength.


(** ** The reference primitives satisfy the laws *)

Lemma lxor_byte (a b : Z) : is_byte a -> is_byte b -> is_byte (Z.lxor a b).
Proof.
  assert (forallb (fun a => forallb (fun b =>
            (0 <=? Z.lxor a b) && (Z.lxor a b <? 256)) (seqZ 0 256)) (seqZ 0 256)
          = true) as Hall by (vm_compute; reflexivity).
  intros Ha Hb. unfold is_byte in *.
  rewrite forallb_forall in Hall.
  specialize (Hall a). rewrite <- list_elem_of_In, elem_of_seqZ in Hall.
  specialize (Hall ltac:(lia)). rewrite forallb_forall in Hall.
  specialize (Hall b). rewrite <- list_elem_of_In, elem_of_seqZ in Hall.
  specialize (Hall ltac:(lia)). lia.
Qed.

Lemma xor_bytes_length (a b : bytes) :
  length (crypto.xor_bytes a b) = Nat.min (length a) (length b).
Proof. apply length_zip_with. Qed.

Lemma xor_bytes_is_bytes (a b : bytes) :
  Forall is_byte a -> Forall is_byte b -> Forall is_byte (crypto.xor_bytes a b).
Proof.
  intros Ha. revert b. induction Ha as [|x a Hx Ha IH]; intros b Hb; [constructor|].
  destruct Hb as [|y b Hy Hb]; [constructor|].
  simpl. constructor; [by apply lxor_byte | by apply IH].
Qed.

(** XOR with the same mask twice gives the bytes back, when the mask is
    long enough. *)
Lemma xor_bytes_involutive (a m : bytes) :
  (length a <= length m)%nat ->
  crypto.xor_bytes (crypto.xor_bytes a m) m = a.
Proof.
  revert m. induction a as [|x a IH]; intros m Hl; [by destruct m|].
  destruct m as [|y m]; simpl in *; [lia|].
  f_equal; [|apply IH; lia].
  by rewrite Z.lxor_assoc, Z.lxor_nilpotent, Z.lxor_0_r.
Qed.

Lemma checksum_byte (bs : bytes) : is_byte (checksum bs).
Proof.
  unfold is_byte. destruct bs as [|b bs]; simpl; [lia|].
  apply Z.mod_pos_bound. lia.
Qed.

Global Instance xor_primitives_laws : @PrimitivesLaws xor_primitives.
Proof.
  split; unfold hmac_sha512, aes256_encrypt_block, aes256_decrypt_block, xor_primitives.
  - intros k m. apply length_replicate.
  - intros k m. apply Forall_replicate, checksum_byte.
  - intros k b Hk _ Hb _. rewrite xor_bytes_length. lia.
  - intros k b _ Hk _ Hb. by apply xor_bytes_is_bytes.
  - intros k b Hk _ Hb _. apply xor_bytes_involutive. lia.
Qed.

(** ** Key derivation *)

Section key_derivation.
Context `{PrimitivesLaws}.

Lemma pbkdf2_block_spec (P S : bytes) (c i : Z) :
  length (crypto.pbkdf2_block P S c i) = 64%nat
  /\ Forall is_byte (crypto.pbkdf2_block P S c i).
Proof.
  unfold crypto.pbkdf2_block.
  set (step := fun '(T, U) => _).
  assert (forall n TU,
            (length (fst TU) = 64%nat /\ Forall is_byte (fst TU)) ->
            (length (fst (N.iter n step TU)) = 64%nat
             /\ Forall is_byte (fst (N.iter n step TU)))) as Hiter.
  { intros n. apply (N.iter_invariant n _ step
      (fun TU => length (fst TU) = 64%nat /\ Forall is_byte (fst TU))).
    intros [T U] [Hl Hb]. simpl in *. split.
    - rewrite xor_bytes_length, Hl, hmac_sha512_length. lia.
    - apply xor_bytes_is_bytes; [done|apply hmac_sha512_bytes]. }
  apply Hiter. simpl. split; [apply hmac_sha512_length|apply hmac_sha512_bytes].
Qed.

(** [pbkdf2Sync] with the digest ['sha512'], at least one iteration and a
    key length of 32 returns 32 bytes, for every password and every salt. *)
Lemma pbkdf2Sync_returns (password : jsstring) (salt : bytes) (iterations : Z) :
  1 <= iterations ->
  exists key,
    crypto.pbkdf2Sync password salt iterations 32 (js "sha512") = Return key
    /\ length key = 32%nat /\ Forall is_byte key.
Proof.
  intros Hit. unfold crypto.pbkdf2Sync.
  rewrite bool_decide_true by done. simpl negb. cbv iota.
  destruct (Z.ltb_spec iterations 1); [lia|].
  change (32 <? 0) with false. cbv iota.
  change ((32 + 63) / 64) with 1. change (seqZ 1 1) with [1].
  eexists; split; [reflexivity|].
  destruct (pbkdf2_block_spec (Buffer.from_utf8 password) salt iterations 1) as [Hl Hb].
  simpl flat_map. rewrite app_nil_r. split.
  - rewrite length_take, Hl. reflexivity.
  - by apply Forall_take.
Qed.

Lemma deriveKey_returns (password : jsstring) (salt : bytes) :
  exists key,
    PasswordEncryption.deriveKey passwordEncryption password salt = Return key
    /\ length key = 32%nat /\ Forall is_byte key.
Proof. apply pbkdf2Sync_returns. unfold passwordEncryption. simpl. lia. Qed.

End key_derivation.

(** C8, as the code has it.  [deriveKey] never looks at the length of the
    salt and has no error condition: for every password and every salt, of
    32 bytes or of any other length, it returns a 32-byte key. *)
Theorem deriveKey_total `{PrimitivesLaws} (password : jsstring) (salt : bytes) :
  exists key,
    PasswordEncryption.deriveKey passwordEncryption password salt = Return key
    /\ len key = 32.
Proof.
  destruct (deriveKey_returns password salt) as (key & Hk & Hl & _).
  exists key. split; [done|]. unfold len. by rewrite Hl.
Qed.

Lemma deriveKey_total_witness :
  exists key,
    PasswordEncryption.deriveKey (H := xor_primitives) passwordEncryption
      (js "correct horse") (replicate 32 7) = Return key
    /\ len key = 32.
Proof.
  exact (deriveKey_total (H := xor_primitives) (js "correct horse") (replicate 32 7)).
Defined.

(** C8, counterexample: a salt of three bytes is not refused; a key comes
    back. *)
Lemma deriveKey_short_salt :
  exists key,
    PasswordEncryption.deriveKey (H := xor_primitives) passwordEncryption
      (js "correct horse") [1; 2; 3] = Return key.
Proof.
  destruct (deriveKey_returns (H := xor_primitives) (js "correct horse") [1; 2; 3])
    as (key & Hk & _).
  by exists key.
Qed.

(** ** [comparePassword] never throws *)

Section compare_total.
Context `{Primitives}.







End compare_total.


(** ** The credential round trip *)

(** *** Encodings *)

(** A boolean property checked on every integer of a range holds on the
    range. *)
Lemma forallb_range (P : Z -> bool) (lo n x : Z) :
  forallb P (seqZ lo n) = true -> lo <= x < lo + n -> P x = true.
Proof.
  intros Hall Hx. rewrite forallb_forall in Hall. apply Hall.
  apply list_elem_of_In, elem_of_seqZ. lia.
Qed.

Lemma unhex_hex_digit (n : Z) :
  0 <= n < 16 -> Buffer.unhex (Buffer.hex_digit n) = Some n.
Proof.
  intros Hn.
  assert (forallb (fun n => bool_decide (Buffer.unhex (Buffer.hex_digit n) = Some n))
            (seqZ 0 16) = true) as Hall by (vm_compute; reflexivity).
  apply (forallb_range _ 0 16 n) in Hall; [|lia].
  by apply bool_decide_eq_true_1 in Hall.
Qed.

Lemma from_hex_toString_hex (bs : bytes) :
  Forall is_byte bs -> Buffer.from_hex (Buffer.toString_hex bs) = bs.
Proof.
  induction 1 as [|b bs Hb _ IH]; [done|].
  unfold is_byte in Hb. cbn [Buffer.toString_hex flat_map app Buffer.from_hex].
  rewrite !unhex_hex_digit by (Z.to_euclidean_division_equations; lia).
  fold (Buffer.toString_hex bs). rewrite IH. f_equal.
  Z.to_euclidean_division_equations; lia.
Qed.

Lemma toString_hex_app (a b : bytes) :
  Buffer.toString_hex (a ++ b) = Buffer.toString_hex a ++ Buffer.toString_hex b.
Proof. unfold Buffer.toString_hex. apply flat_map_app. Qed.

Lemma unbase64_base64_char (n : Z) :
  0 <= n < 64 ->
  Buffer.unbase64 (Buffer.base64_char n) = Some n /\ Buffer.base64_char n <> 61.
Proof.
  intros Hn.
  assert (forallb
            (fun n => bool_decide (Buffer.unbase64 (Buffer.base64_char n) = Some n)
                      && negb (Buffer.base64_char n =? 61)) (seqZ 0 64) = true)
    as Hall by (vm_compute; reflexivity).
  apply (forallb_range _ 0 64 n) in Hall; [|lia].
  apply andb_prop in Hall as [H1 H2].
  split; [by apply bool_decide_eq_true_1 in H1|].
  by apply negb_true_iff, Z.eqb_neq in H2.
Qed.

Lemma sextets_char (n : Z) (s : jsstring) :
  0 <= n < 64 ->
  Buffer.sextets (Buffer.base64_char n :: s) = n :: Buffer.sextets s.
Proof.
  intros Hn. destruct (unbase64_base64_char n Hn) as [Hu Hne].
  cbn [Buffer.sextets]. apply Z.eqb_neq in Hne. by rewrite Hne, Hu.
Qed.

(** Induction three elements at a time. *)
Lemma list_ind3 {A} (P : list A -> Prop) :
  P [] -> (forall x, P [x]) -> (forall x y, P [x; y]) ->
  (forall x y z l, P l -> P (x :: y :: z :: l)) ->
  forall l, P l.
Proof.
  intros H0 H1 H2 H3.
  assert (forall l, P l /\ (forall x, P (x :: l)) /\ (forall x y, P (x :: y :: l)))
    as Hall.
  { induction l as [|a l (IH0 & IH1 & IH2)]; [by auto|].
    split; [apply IH1|]. split; [intros x; apply IH2|]. intros x y. by apply H3. }
  intros l. apply Hall.
Qed.

Lemma from_base64_toString_base64 (bs : bytes) :
  Forall is_byte bs -> Buffer.from_base64 (Buffer.toString_base64 bs) = bs.
Proof.
  unfold Buffer.from_base64.
  induction bs as [|x|x y|x y z l IH] using list_ind3; intros Hb.
  - done.
  - apply Forall_cons_1 in Hb as [Hx _]. unfold is_byte in Hx.
    cbn [Buffer.toString_base64].
    rewrite !sextets_char by (Z.to_euclidean_division_equations; lia).
    cbn. f_equal. Z.to_euclidean_division_equations; lia.
  - apply Forall_cons_1 in Hb as [Hx [Hy _]%Forall_cons_1]. unfold is_byte in Hx, Hy.
    cbn [Buffer.toString_base64].
    rewrite !sextets_char by (Z.to_euclidean_division_equations; lia).
    cbn. f_equal; [|f_equal]; Z.to_euclidean_division_equations; lia.
  - apply Forall_cons_1 in Hb as [Hx [Hy [Hz Hl]%Forall_cons_1]%Forall_cons_1].
    unfold is_byte in Hx, Hy, Hz.
    cbn [Buffer.toString_base64 app].
    rewrite !sextets_char by (Z.to_euclidean_division_equations; lia).
    cbn [Buffer.bytes_of_sextets app]. rewrite IH by done.
    f_equal; [|f_equal; [|f_equal]]; Z.to_euclidean_division_equations; lia.
Qed.

(** Decide the comparisons of the goal one at a time, dropping the
    impossible branches. *)
Ltac decide_comparisons :=
  cbn [Buffer.code_points Buffer.p_lower Buffer.p_upper Buffer.p_need Buffer.p_cp
       app andb orb negb];
  repeat
    (match goal with
     | |- context [?a =? ?b] => destruct (Z.eqb_spec a b)
     | |- context [?a <=? ?b] => destruct (Z.leb_spec a b)
     | |- context [?a <? ?b] => destruct (Z.ltb_spec a b)
     end;
     try (exfalso; lia);
     cbn [Buffer.code_points Buffer.p_lower Buffer.p_upper Buffer.p_need Buffer.p_cp
          app andb orb negb]).

Definition is_scalar (cp : Z) : Prop :=
  0 <= cp < 0x110000 /\ ~ (0xD800 <= cp <= 0xDFFF).

(** The bytes of a code point, named: which of the four forms it takes,
    and the digits of the code point in base 64. *)
Lemma utf8_of_code_point_cases (cp : Z) :
  is_scalar cp ->
  (0 <= cp < 0x80 /\ Buffer.utf8_of_code_point cp = [cp])
  \/ (exists a b,
        Buffer.utf8_of_code_point cp = [0xC0 + a; 0x80 + b]
        /\ cp = 64 * a + b /\ 2 <= a < 32 /\ 0 <= b < 64)
  \/ (exists a b c,
        Buffer.utf8_of_code_point cp = [0xE0 + a; 0x80 + b; 0x80 + c]
        /\ cp = 4096 * a + 64 * b + c /\ 0 <= a < 16 /\ 0 <= b < 64 /\ 0 <= c < 64
        /\ (a = 0 -> 32 <= b) /\ (a = 13 -> b < 32))
  \/ (exists a b c d,
        Buffer.utf8_of_code_point cp = [0xF0 + a; 0x80 + b; 0x80 + c; 0x80 + d]
        /\ cp = 262144 * a + 4096 * b + 64 * c + d
        /\ 0 <= a < 5 /\ 0 <= b < 64 /\ 0 <= c < 64 /\ 0 <= d < 64
        /\ (a = 0 -> 16 <= b) /\ (a = 4 -> b < 16)).
Proof.
  intros [Hr Hs]. unfold Buffer.utf8_of_code_point.
  destruct (Z.ltb_spec cp 0x80); [|destruct (Z.ltb_spec cp 0x800);
                                    [|destruct (Z.ltb_spec cp 0x10000)]].
  - left. split; [lia|done].
  - right; left. exists (cp / 64), (cp mod 64). split; [done|].
    Z.to_euclidean_division_equations; lia.
  - right; right; left. exists (cp / 4096), ((cp / 64) mod 64), (cp mod 64).
    split; [done|]. Z.to_euclidean_division_equations; lia.
  - right; right; right.
    exists (cp / 262144), ((cp / 4096) mod 64), ((cp / 64) mod 64), (cp mod 64).
    split; [done|]. Z.to_euclidean_division_equations; lia.
Qed.

Lemma utf8_of_code_point_bytes (cp : Z) :
  is_scalar cp -> Forall is_byte (Buffer.utf8_of_code_point cp).
Proof.
  intros Hs. unfold is_byte.
  destruct (utf8_of_code_point_cases cp Hs)
    as [[? ->]|[(a & b & -> & ?)|[(a & b & c & -> & ?)|(a & b & c & d & -> & ?)]]];
    repeat constructor; lia.
Qed.

Lemma code_points_scalar (cp : Z) (rest : bytes) :
  is_scalar cp ->
  Buffer.code_points None (Buffer.utf8_of_code_point cp ++ rest)
  = cp :: Buffer.code_points None rest.
Proof.
  intros Hs.
  destruct (utf8_of_code_point_cases cp Hs)
    as [[? ->]|[(a & b & -> & ?)|[(a & b & c & -> & ?)|(a & b & c & d & -> & ?)]]];
    cbn [app Buffer.code_points]; unfold Buffer.lead; decide_comparisons;
    try reflexivity; f_equal; lia.
Qed.

Lemma surrogate_pair_scalar (h l : Z) :
  Buffer.is_high_surrogate h = true -> Buffer.is_low_surrogate l = true ->
  let cp := 0x10000 + (h - 0xD800) * 0x400 + (l - 0xDC00) in
  is_scalar cp /\ Buffer.utf16_of_code_point cp = [h; l].
Proof.
  intros Hh Hl cp.
  unfold Buffer.is_high_surrogate, Buffer.is_low_surrogate, is_scalar in *.
  apply andb_prop in Hh as [H1 H2]. apply andb_prop in Hl as [H3 H4].
  apply Z.leb_le in H1, H2, H3, H4.
  split; [subst cp; lia|]. unfold Buffer.utf16_of_code_point.
  destruct (Z.ltb_spec cp 0x10000); [subst cp; lia|].
  subst cp. f_equal; [|f_equal]; Z.to_euclidean_division_equations; lia.
Qed.

Lemma code_unit_scalar (c : Z) :
  is_code_unit c ->
  Buffer.is_high_surrogate c = false -> Buffer.is_low_surrogate c = false ->
  is_scalar c /\ Buffer.utf16_of_code_point c = [c].
Proof.
  unfold Buffer.is_high_surrogate, Buffer.is_low_surrogate, is_scalar, is_code_unit.
  intros Hc Hh Hl.
  apply andb_false_iff in Hh. apply andb_false_iff in Hl.
  rewrite !Z.leb_gt in Hh, Hl.
  split; [lia|]. unfold Buffer.utf16_of_code_point.
  destruct (Z.ltb_spec c 0x10000); [done|lia].
Qed.

(** The UTF-8 form of a well-formed string is made of bytes and decodes to
    the string. *)
Lemma utf8_round_trip_upto (n : nat) (s : jsstring) :
  (length s <= n)%nat -> Forall is_code_unit s -> isWellFormed s = true ->
  Forall is_byte (Buffer.from_utf8 s)
  /\ Buffer.toString_utf8 (Buffer.from_utf8 s) = s.
Proof.
  revert s. induction n as [|n IH]; intros s Hlen Hcu Hwf.
  { destruct s; [done|simpl in Hlen; lia]. }
  destruct s as [|c rest]; [done|].
  apply Forall_cons_1 in Hcu as [Hc Hrest].
  cbn [isWellFormed Buffer.from_utf8] in *.
  destruct (Buffer.is_high_surrogate c) eqn:Hh.
  - destruct rest as [|d rest']; [discriminate|].
    apply andb_prop in Hwf as [Hl Hwf]. rewrite Hl.
    apply Forall_cons_1 in Hrest as [Hd Hrest'].
    destruct (surrogate_pair_scalar c d Hh Hl) as [Hs Hu].
    destruct (IH rest') as [Hb Hrt]; [simpl in Hlen; lia|done|done|].
    split.
    + apply Forall_app. split; [by apply utf8_of_code_point_bytes|done].
    + unfold Buffer.toString_utf8 in *. rewrite code_points_scalar by done.
      cbn [flat_map]. rewrite Hu, Hrt. reflexivity.
  - apply andb_prop in Hwf as [Hl Hwf]. apply negb_true_iff in Hl. rewrite Hl.
    destruct (code_unit_scalar c Hc Hh Hl) as [Hs Hu].
    destruct (IH rest) as [Hb Hrt]; [simpl in Hlen; lia|done|done|].
    split.
    + apply Forall_app. split; [by apply utf8_of_code_point_bytes|done].
    + unfold Buffer.toString_utf8 in *. rewrite code_points_scalar by done.
      cbn [flat_map]. rewrite Hu, Hrt. reflexivity.
Qed.

Lemma utf8_round_trip (s : jsstring) :
  Forall is_code_unit s -> isWellFormed s = true ->
  Forall is_byte (Buffer.from_utf8 s)
  /\ Buffer.toString_utf8 (Buffer.from_utf8 s) = s.
Proof. by apply (utf8_round_trip_upto (length s)). Qed.

(** *** Blocks, padding and chaining *)

Definition is_block (b : bytes) : Prop := length b = 16%nat /\ Forall is_byte b.

Lemma blocks_fuel_spec (k fuel : nat) (l : bytes) :
  length l = (16 * k)%nat -> (length l <= fuel)%nat ->
  Forall (fun b => length b = 16%nat) (crypto.blocks_fuel fuel l)
  /\ List.concat (crypto.blocks_fuel fuel l) = l
  /\ length (crypto.blocks_fuel fuel l) = k.
Proof.
  revert fuel l. induction k as [|k IH]; intros fuel l Hlen Hfuel.
  - destruct l; [|simpl in Hlen; lia]. by destruct fuel.
  - destruct fuel as [|fuel]; [lia|]. destruct l as [|x l]; [simpl in Hlen; lia|].
    cbn [crypto.blocks_fuel].
    destruct (IH fuel (drop 16 (x :: l))) as (Hall & Hcat & Hk).
    { rewrite length_drop. lia. }
    { rewrite length_drop. simpl length in *. lia. }
    split; [|split].
    + constructor; [|done]. rewrite length_take. lia.
    + cbn [List.concat]. rewrite Hcat. apply take_drop.
    + cbn [length]. by rewrite Hk.
Qed.

Lemma blocks_spec (k : nat) (l : bytes) :
  length l = (16 * k)%nat ->
  Forall (fun b => length b = 16%nat) (crypto.blocks l)
  /\ List.concat (crypto.blocks l) = l
  /\ length (crypto.blocks l) = k.
Proof. intros Hlen. by apply blocks_fuel_spec. Qed.

Lemma concat_blocks_length (bs : list bytes) :
  Forall (fun b => length b = 16%nat) bs ->
  length (List.concat bs) = (16 * length bs)%nat.
Proof.
  induction 1 as [|b bs Hb _ IH]; [done|].
  cbn [List.concat length]. rewrite length_app. lia.
Qed.

(** A sequence of whole blocks is cut back into the same blocks. *)
Lemma blocks_concat (bs : list bytes) :
  Forall (fun b => length b = 16%nat) bs -> crypto.blocks (List.concat bs) = bs.
Proof.
  intros Hall. unfold crypto.blocks.
  rewrite concat_blocks_length by done.
  assert (forall fuel, (length bs <= fuel)%nat ->
                       crypto.blocks_fuel fuel (List.concat bs) = bs) as Hgen.
  { induction Hall as [|b bs Hb Hall IH]; intros fuel Hfuel.
    - by destruct fuel.
    - destruct fuel as [|fuel]; [simpl in Hfuel; lia|].
      cbn [List.concat crypto.blocks_fuel].
      destruct b as [|x b]; [discriminate|]. cbn [app].
      change (x :: b ++ List.concat bs) with ((x :: b) ++ List.concat bs).
      rewrite take_app_length' by done. rewrite drop_app_length' by done.
      rewrite IH by (simpl in Hfuel; lia). done. }
  apply Hgen. lia.
Qed.

Lemma Forall_concat_bytes (bs : list bytes) :
  Forall (Forall is_byte) bs -> Forall is_byte (List.concat bs).
Proof.
  induction 1 as [|b bs Hb _ IH]; [constructor|].
  cbn [List.concat]. by apply Forall_app.
Qed.

(** Padding a short tail gives one whole block, and unpadding gives the
    tail back. *)
Lemma pkcs7_pad_block (tail : bytes) :
  (length tail < 16)%nat -> Forall is_byte tail ->
  is_block (crypto.pkcs7_pad tail)
  /\ crypto.pkcs7_unpad (crypto.pkcs7_pad tail) = Some tail.
Proof.
  intros Hlen Hb. unfold crypto.pkcs7_pad, len.
  rewrite Z.mod_small by lia.
  set (n := 16 - Z.of_nat (length tail)).
  assert (1 <= n <= 16) as Hn by (unfold n; lia).
  assert (length (tail ++ replicate (Z.to_nat n) n) = 16%nat) as Hl.
  { rewrite length_app, length_replicate. unfold n. lia. }
  split.
  - split; [done|]. apply Forall_app. split; [done|].
    apply Forall_replicate. unfold is_byte. lia.
  - unfold crypto.pkcs7_unpad, len. rewrite Hl.
    assert (List.last (tail ++ replicate (Z.to_nat n) n) 0 = n) as ->.
    { destruct (Z.to_nat n) as [|m] eqn:Hm; [lia|].
      rewrite replicate_S_end, app_assoc. apply last_last. }
    assert ((16 - Z.to_nat n)%nat = length tail) as -> by (unfold n; lia).
    rewrite drop_app_length, take_app_length.
    destruct (Z.leb_spec 1 n); [|lia]. destruct (Z.leb_spec n 16); [|lia].
    destruct (Z.leb_spec n (Z.of_nat 16)); [|lia]. cbn [andb].
    assert (forallb (Z.eqb n) (replicate (Z.to_nat n) n) = true) as ->; [|done].
    apply forallb_forall. intros x Hx%list_elem_of_In%elem_of_replicate.
    apply Z.eqb_eq. by destruct Hx.
Qed.

Lemma blocks_sizes (bs : list bytes) :
  Forall is_block bs -> Forall (fun b => length b = 16%nat) bs.
Proof. induction 1 as [|b bs [Hl _] _ IH]; by constructor. Qed.

Lemma blocks_bytes (bs : list bytes) :
  Forall is_block bs -> Forall (Forall is_byte) bs.
Proof. induction 1 as [|b bs [_ Hb] _ IH]; by constructor. Qed.

Lemma last_cons_default {A} (x : A) (l : list A) (d : A) :
  List.last (x :: l) d = List.last l x.
Proof.
  revert x d. induction l as [|y l IH]; intros x d; [done|].
  change (List.last (x :: y :: l) d) with (List.last (y :: l) d).
  rewrite IH. symmetry. apply IH.
Qed.

Section chaining.
Context `{PrimitivesLaws}.
Variable k : bytes.
Hypothesis k_length : length k = 32%nat.
Hypothesis k_bytes : Forall is_byte k.

Lemma xor_block (a b : bytes) : is_block a -> is_block b -> is_block (crypto.xor_bytes a b).
Proof.
  intros [Hla Hba] [Hlb Hbb]. split.
  - rewrite xor_bytes_length. lia.
  - by apply xor_bytes_is_bytes.
Qed.

Lemma encrypt_block (b : bytes) : is_block b -> is_block (aes256_encrypt_block k b).
Proof.
  intros [Hl Hb]. split.
  - by apply aes256_encrypt_length.
  - by apply aes256_encrypt_bytes.
Qed.

Lemma cbc_encrypt_blocks (prev : bytes) (ps : list bytes) :
  is_block prev -> Forall is_block ps ->
  Forall is_block (crypto.cbc_encrypt k prev ps)
  /\ is_block (List.last (crypto.cbc_encrypt k prev ps) prev).
Proof.
  intros Hprev Hps. revert prev Hprev.
  induction Hps as [|p ps Hp Hps IH]; intros prev Hprev; [by split|].
  cbn [crypto.cbc_encrypt].
  assert (is_block (aes256_encrypt_block k (crypto.xor_bytes p prev))) as Hc
    by (by apply encrypt_block, xor_block).
  destruct (IH _ Hc) as [Hall Hlast]. split; [by constructor|].
  by rewrite last_cons_default.
Qed.

Lemma cbc_decrypt_encrypt (prev : bytes) (ps : list bytes) :
  is_block prev -> Forall is_block ps ->
  crypto.cbc_decrypt k prev (crypto.cbc_encrypt k prev ps) = ps.
Proof.
  intros Hprev Hps. revert prev Hprev.
  induction Hps as [|p ps Hp Hps IH]; intros prev Hprev; [done|].
  cbn [crypto.cbc_encrypt crypto.cbc_decrypt].
  pose proof (xor_block p prev Hp Hprev) as [Hxl Hxb].
  rewrite aes256_decrypt_encrypt by done.
  rewrite xor_bytes_involutive by (destruct Hp, Hprev; lia).
  f_equal. apply IH. by apply encrypt_block.
Qed.

Lemma cbc_encrypt_app (prev : bytes) (ps qs : list bytes) :
  crypto.cbc_encrypt k prev (ps ++ qs)
  = crypto.cbc_encrypt k prev ps
    ++ crypto.cbc_encrypt k (List.last (crypto.cbc_encrypt k prev ps) prev) qs.
Proof.
  revert prev. induction ps as [|p ps IH]; intros prev; [done|].
  cbn [app crypto.cbc_encrypt]. rewrite IH. cbn [app]. do 2 f_equal.
  by rewrite last_cons_default.
Qed.

Lemma singleton_blocks (b : bytes) : is_block b -> crypto.blocks b = [b].
Proof.
  intros [Hl _]. destruct (blocks_spec 1 b) as (_ & Hcat & Hone); [by rewrite Hl|].
  destruct (crypto.blocks b) as [|x [|y r]]; try discriminate.
  cbn [List.concat] in Hcat. rewrite app_nil_r in Hcat. by subst.
Qed.

(** What [update] followed by [final] writes is read back by the
    decipher's [update] followed by [final]. *)
Lemma decipher_cipher (iv pt : bytes) :
  is_block iv -> Forall is_byte pt ->
  let c0 := {| crypto.key := k; crypto.chain := iv; crypto.buffered := [] |} in
  exists c1 ct1 ct2,
    crypto.Cipher_update c0 pt = (c1, ct1)
    /\ crypto.Cipher_final c1 = Return ct2
    /\ Forall is_byte (ct1 ++ ct2)
    /\ exists d1 p1 p2,
         crypto.Decipher_update c0 (ct1 ++ ct2) = (d1, p1)
         /\ crypto.Decipher_final d1 = Return p2
         /\ p1 ++ p2 = pt.
Proof.
  intros Hiv Hpt c0.
  set (m := (length pt / 16)%nat).
  pose proof (Nat.div_mod_eq (length pt) 16) as Hdm.
  pose proof (Nat.mod_upper_bound (length pt) 16 ltac:(lia)) as Hmod.
  fold m in Hdm.
  set (head := take (m * 16) pt). set (tail := drop (m * 16) pt).
  assert (length head = (16 * m)%nat) as Hhead
    by (unfold head; rewrite length_take; lia).
  assert (length tail < 16)%nat as Htail
    by (unfold tail; rewrite length_drop; lia).
  destruct (blocks_spec m head Hhead) as (Hsz & Hcat & Hm).
  set (ps := crypto.blocks head) in *.
  assert (Forall is_block ps) as Hps.
  { assert (Forall is_byte (List.concat ps)) as Hb
      by (rewrite Hcat; by apply Forall_take).
    clear Hcat Hm. induction Hsz as [|b bs Hl _ IH]; [constructor|].
    cbn [List.concat] in Hb. apply Forall_app in Hb as [Hb1 Hb2].
    constructor; [by split | by apply IH]. }
  destruct (cbc_encrypt_blocks iv ps Hiv Hps) as [Hcs Hlast].
  set (cs := crypto.cbc_encrypt k iv ps) in *.
  destruct (pkcs7_pad_block tail Htail) as [Hpad Hunpad];
    [by apply Forall_drop|].
  set (pad := crypto.pkcs7_pad tail) in *.
  pose proof (xor_block _ _ Hpad Hlast) as Hx.
  pose proof (encrypt_block _ Hx) as Hcq.
  set (cq := aes256_encrypt_block k (crypto.xor_bytes pad (List.last cs iv))) in *.
  assert (length (List.concat cs) = (16 * length cs)%nat) as Hlcs.
  { by apply concat_blocks_length, blocks_sizes. }
  exists {| crypto.key := k; crypto.chain := List.last cs iv;
            crypto.buffered := tail |}, (List.concat cs), cq.
  split; [reflexivity|]. split.
  { unfold crypto.Cipher_final. cbn [crypto.buffered crypto.key crypto.chain].
    fold pad. rewrite (singleton_blocks pad Hpad).
    cbn [crypto.cbc_encrypt List.concat]. fold cq. by rewrite app_nil_r. }
  split.
  { apply Forall_app. split; [|by destruct Hcq].
    by apply Forall_concat_bytes, blocks_bytes. }
  exists {| crypto.key := k; crypto.chain := List.last cs iv;
            crypto.buffered := cq |}, head, tail.
  split; [|split].
  - unfold crypto.Decipher_update, c0.
    cbn [crypto.buffered crypto.key crypto.chain app].
    assert (((length (List.concat cs ++ cq) - 1) / 16 * 16)%nat
            = length (List.concat cs)) as ->.
    { rewrite length_app, Hlcs. destruct Hcq as [-> _].
      rewrite <- (Nat.div_unique (16 * length cs + 16 - 1) 16 (length cs) 15); lia. }
    rewrite take_app_length, drop_app_length.
    rewrite blocks_concat by (by apply blocks_sizes).
    unfold cs at 2. rewrite cbc_decrypt_encrypt by done. by rewrite Hcat.
  - unfold crypto.Decipher_final.
    cbn [crypto.buffered crypto.key crypto.chain].
    destruct Hcq as [Hlq Hbq]. unfold len. rewrite Hlq.
    change (Z.of_nat 16 =? 16) with true. cbv iota.
    unfold cq. destruct Hx as [Hxl Hxb].
    rewrite aes256_decrypt_encrypt by done.
    rewrite xor_bytes_involutive by (destruct Hpad, Hlast; lia).
    by rewrite Hunpad.
  - apply take_drop.
Qed.

End chaining.

(** *** Hashing, then comparing *)

Lemma randomBytes_spec (size : Z) (rnd : RandomSource) :
  length (crypto.randomBytes size rnd).1 = Z.to_nat size
  /\ Forall is_byte (crypto.randomBytes size rnd).1.
Proof.
  unfold crypto.randomBytes. cbn [fst]. split.
  - by rewrite length_map, length_seq.
  - apply Forall_map, Forall_forall. intros i _. unfold is_byte.
    apply Z.mod_pos_bound. lia.
Qed.

Lemma slice_parts (a b c : bytes) :
  length a = 32%nat -> length b = 16%nat ->
  Buffer.slice (a ++ b ++ c) 0 32 = a
  /\ Buffer.slice (a ++ b ++ c) 32 (32 + 16) = b
  /\ Buffer.slice_from (a ++ b ++ c) (32 + 16) = c.
Proof.
  intros Ha Hb. unfold Buffer.slice, Buffer.slice_from.
  change (Z.to_nat (32 - 0)) with 32%nat. change (Z.to_nat 0) with 0%nat.
  change (Z.to_nat (32 + 16 - 32)) with 16%nat.
  change (Z.to_nat 32) with 32%nat. change (Z.to_nat (32 + 16)) with 48%nat.
  split; [|split].
  - rewrite drop_0. by apply take_app_length'.
  - rewrite drop_app_length' by done. by apply take_app_length'.
  - rewrite app_assoc. apply drop_app_length'. rewrite length_app. lia.
Qed.

Section hash_compare.
Context `{PrimitivesLaws}.

Lemma createCipheriv_returns (k iv : bytes) :
  length k = 32%nat -> length iv = 16%nat ->
  crypto.createCipheriv (js "aes-256-cbc") k iv
  = Return {| crypto.key := k; crypto.chain := iv; crypto.buffered := [] |}.
Proof.
  intros Hk Hiv. unfold crypto.createCipheriv, len.
  rewrite bool_decide_eq_true_2 by done. by rewrite Hk, Hiv.
Qed.

(** Hashing succeeds, and comparing the same password against the result
    answers whether the password survives the UTF-8 round trip. *)
Lemma hash_then_compare (rnd : RandomSource) (password : jsstring) :
  Forall is_byte (Buffer.from_utf8 password) ->
  exists hashed,
    PasswordEncryption.hashPassword passwordEncryption rnd password = Return hashed
    /\ PasswordEncryption.comparePassword passwordEncryption password hashed
       = Return (bool_decide
                   (Buffer.toString_utf8 (Buffer.from_utf8 password) = password)).
Proof.
  intros Hb.
  unfold PasswordEncryption.hashPassword, PasswordEncryption.comparePassword,
    PasswordEncryption.comparePassword_try, PasswordEncryption.generateSalt,
    crypto.createDecipheriv.
  change (PasswordEncryption.saltLength passwordEncryption) with 32.
  change (PasswordEncryption.ivLength passwordEncryption) with 16.
  change (PasswordEncryption.algorithm passwordEncryption) with (js "aes-256-cbc").
  destruct (randomBytes_spec 32 rnd) as [Hsl Hsb].
  destruct (crypto.randomBytes 32 rnd) as [salt rnd1]. cbn [fst] in Hsl, Hsb.
  destruct (randomBytes_spec 16 rnd1) as [Hil Hib].
  destruct (crypto.randomBytes 16 rnd1) as [iv rnd2]. cbn [fst] in Hil, Hib.
  destruct (deriveKey_returns password salt) as (k & Hk & Hkl & Hkb).
  destruct (decipher_cipher k Hkl Hkb iv (Buffer.from_utf8 password))
    as (c1 & ct1 & ct2 & Hu & Hf & Hct & d1 & p1 & p2 & Hdu & Hdf & Hp);
    [split; assumption | assumption |].
  destruct (slice_parts salt iv (ct1 ++ ct2)) as (Hs1 & Hs2 & Hs3);
    [assumption..|].
  rewrite Hk. cbn [mbind completion_bind].
  rewrite createCipheriv_returns by assumption. cbn [mbind completion_bind].
  rewrite Hu, Hf. cbn [mbind completion_bind try_catch].
  eexists. split; [reflexivity|].
  rewrite <- toString_hex_app, from_hex_toString_hex by assumption.
  unfold Buffer.concat. cbn [List.concat]. rewrite app_nil_r.
  rewrite from_base64_toString_base64
    by (apply Forall_app; split; [assumption|];
        apply Forall_app; split; assumption).
  rewrite Hs1, Hs2, Hs3, Hk. cbn [mbind completion_bind].
  rewrite createCipheriv_returns by assumption. cbn [mbind completion_bind].
  rewrite Hdu, Hdf. cbn [mbind completion_bind]. rewrite Hp. reflexivity.
Qed.

End hash_compare.

(** A string literal of the source is made of code units. *)
Lemma js_code_units (s : string) : Forall is_code_unit (js s).
Proof.
  unfold js. apply Forall_map, Forall_forall. intros a _. unfold is_code_unit.
  pose proof (nat_ascii_bounded a). lia.
Qed.

(** C1. The credential round trip holds for every well-formed password:
    whatever the random source gives for salt and IV, [hashPassword]
    returns an envelope, and [comparePassword] of the same password
    against that envelope returns [true].  Well-formed means that no
    surrogate code unit stands alone, which is when the password's UTF-8
    form decodes back to the password. *)
Theorem credential_round_trip `{PrimitivesLaws}
    (rnd : RandomSource) (password : jsstring) :
  Forall is_code_unit password -> isWellFormed password = true ->
  exists hashed,
    PasswordEncryption.hashPassword passwordEncryption rnd password = Return hashed
    /\ PasswordEncryption.comparePassword passwordEncryption password hashed
       = Return true.
Proof.
  intros Hcu Hwf. destruct (utf8_round_trip password Hcu Hwf) as [Hb Hrt].
  destruct (hash_then_compare rnd password Hb) as (hashed & Hh & Hc).
  exists hashed. split; [exact Hh|]. rewrite Hc. by rewrite bool_decide_eq_true_2.
Qed.

(** A random source to run the model on: byte [i] of the tape is
    [37 * i + 11]. *)
Definition sample_random : RandomSource :=
  {| tape := fun i => 37 * Z.of_nat i + 11; position := 0 |}.

Lemma credential_round_trip_witness :
  exists hashed,
    PasswordEncryption.hashPassword (H := xor_primitives) passwordEncryption
      sample_random (js "TestPassword123!") = Return hashed
    /\ PasswordEncryption.comparePassword (H := xor_primitives) passwordEncryption
         (js "TestPassword123!") hashed = Return true.
Proof.
  apply (credential_round_trip (H := xor_primitives) sample_random
           (js "TestPassword123!")).
  - apply js_code_units.
  - reflexivity.
Defined.

(** C1, counterexample: the one-unit password made of the lone surrogate
    U+D800.  Its UTF-8 form is that of U+FFFD, so the decrypted text is
    U+FFFD and differs from the password: hashing succeeds, and comparing
    the password against its own envelope returns [false]. *)
Lemma lone_surrogate_rejected :
  Forall is_code_unit [0xD800]
  /\ Buffer.toString_utf8 (Buffer.from_utf8 [0xD800]) = [0xFFFD]
  /\ exists hashed,
       PasswordEncryption.hashPassword (H := xor_primitives) passwordEncryption
         sample_random [0xD800] = Return hashed
       /\ PasswordEncryption.comparePassword (H := xor_primitives)
            passwordEncryption [0xD800] hashed = Return false.
Proof.
  split; [|split].
  - constructor; [unfold is_code_unit; lia|constructor].
  - vm_compute. reflexivity.
  - destruct (hash_then_compare (H := xor_primitives) sample_random [0xD800])
      as (hashed & Hh & Hc).
    + change (Buffer.from_utf8 [0xD800]) with [0xEF; 0xBF; 0xBD].
      repeat (constructor; [unfold is_byte; lia|]). constructor.
    + exists hashed. split; [exact Hh|]. rewrite Hc. vm_compute. reflexivity.
Qed.

(** ** The reference engine satisfies the laws *)

Lemma value_nested_ind (P : value -> Prop) :
  P VUndefined -> P VNull -> (forall b, P (VBool b)) -> (forall q, P (VNum q)) ->
  P VNaN -> (forall s, P (VStr s)) ->
  (forall items, Forall P items -> P (VArr items)) ->
  (forall props, Forall (fun kv => P (snd kv)) props -> P (VObj props)) ->
  forall v, P v.
Proof.
  intros H1 H2 H3 H4 H5 H6 H7 H8.
  fix IH 1. intros [| |b|q| |s|items|props].
  - exact H1.
  - exact H2.
  - apply H3.
  - apply H4.
  - exact H5.
  - apply H6.
  - apply H7. induction items as [|x xs IHxs]; constructor; [apply IH | exact IHxs].
  - apply H8. induction props as [|[k x] xs IHxs]; constructor; [apply IH | exact IHxs].
Qed.

Lemma all_some_map_Some {A} (l : list A) : all_some (map Some l) = Some l.
Proof. induction l as [|y ys IH]; simpl; [done|]. by rewrite IH. Qed.

Lemma tree_to_value_to_tree (v : value) : tree_to_value (value_to_tree v) = Some v.
Proof.
  induction v as [| |b|q| |s|items IH|props IH] using value_nested_ind;
    simpl; auto.
  - by destruct q.
  - rewrite map_map.
    assert (map (fun x => tree_to_value (value_to_tree x)) items = map Some items)
      as ->; [|by rewrite all_some_map_Some].
    induction IH as [|x xs Hx _ IHxs]; simpl; [done|]. by rewrite Hx, IHxs.
  - rewrite map_map. simpl.
    match goal with
    | |- match all_some ?l with _ => _ end = _ =>
        assert (l = map Some props) as ->; [|by rewrite all_some_map_Some]
    end.
    induction IH as [|[k x] xs Hx _ IHxs]; simpl; [done|].
    simpl in Hx. by rewrite Hx, IHxs.
Qed.

Lemma text_positive_text (p : positive) : text_positive (positive_text p) = Some p.
Proof. induction p as [p IH|p IH|]; simpl; by rewrite ?IH. Qed.

Lemma positive_text_nonempty (p : positive) : positive_text p <> [].
Proof. by destruct p. Qed.

Global Instance reference_engine_laws : @EngineLaws reference_engine.
Proof.
  split. intros v Hsafe.
  exists (positive_text (encode (value_to_tree v))). split; [|split].
  - by destruct v.
  - apply positive_text_nonempty.
  - simpl. unfold text_value.
    by rewrite text_positive_text, decode_encode, tree_to_value_to_tree.
Qed.

(** ** Commands on a live link *)

(** The world [dt] milliseconds later. *)
Definition tick (dt : Z) (w : world) : world :=
  {| store := store w; link_up := link_up w; clock := clock w + dt |}.

(** The world after [SETEX k seconds s]. *)
Definition put (w : world) (k s : jsstring) (seconds : Z) : world :=
  with_store w (<[k := {| data := s; expires := clock w + seconds * 1000 |}]> (store w)).

Lemma redis_get_up (c : redis.Client) (k : jsstring) (w : world) :
  link_up w = true -> redis.get c k w = (Return (live w k), w).
Proof. intros Hup. unfold redis.get, redis.command. by rewrite Hup. Qed.

Lemma redis_setEx_up (c : redis.Client) (k s : jsstring) (seconds : Z) (w : world) :
  link_up w = true -> 0 < seconds ->
  redis.setEx c k seconds (Some s) w = (Return tt, put w k s seconds).
Proof.
  intros Hup Hs. unfold redis.setEx, redis.command. rewrite Hup.
  destruct (Z.leb_spec seconds 0); [lia|done].
Qed.

Lemma redis_del_up (c : redis.Client) (k : jsstring) (w : world) :
  link_up w = true ->
  exists n, redis.del c k w = (Return n, with_store w (delete k (store w))).
Proof. intros Hup. unfold redis.del, redis.command. rewrite Hup. eauto. Qed.

Lemma live_put_same (w : world) (k s : jsstring) (seconds dt : Z) :
  0 <= dt < seconds * 1000 -> live (tick dt (put w k s seconds)) k = Some s.
Proof.
  intros Hdt. unfold live, tick, put, with_store. simpl.
  rewrite lookup_insert_eq. simpl.
  destruct (Z.ltb_spec (clock w + dt) (clock w + seconds * 1000)); [done|lia].
Qed.

Lemma live_put_expired (w : world) (k s : jsstring) (seconds dt : Z) :
  seconds * 1000 <= dt -> live (tick dt (put w k s seconds)) k = None.
Proof.
  intros Hdt. unfold live, tick, put, with_store. simpl.
  rewrite lookup_insert_eq. simpl.
  destruct (Z.ltb_spec (clock w + dt) (clock w + seconds * 1000)); [lia|done].
Qed.

Lemma live_put_other (w : world) (k k' s : jsstring) (seconds dt : Z) :
  k <> k' -> live (tick dt (put w k s seconds)) k' = live (tick dt w) k'.
Proof.
  intros Hne. unfold live, tick, put, with_store. simpl.
  by rewrite lookup_insert_ne.
Qed.


(** ** Objects *)





(** ** The health-data cache *)

Section health_data.
Context `{EngineLaws}.

(** What [setHealthData] stores: the payload's own properties and the two
    timestamps. *)
Definition dataWithTimestamp (healthData : value) (now ttlSeconds : Z) : value :=
  VObj (set_prop
          (set_prop (spread healthData) (js "cachedAt") (VStr (Date_toISOString now)))
          (js "expiresAt") (VStr (Date_toISOString (now + ttlSeconds * 1000)))).






End health_data.


Definition sample_client : redis.Client := {| redis.url := js "redis://localhost:6379" |}.
Definition sample_world : world := {| store := ∅; link_up := true; clock := 1700000000000 |}.
Definition sample_user : value := VStr (js "64b7f0c2a1d3e4f5a6b7c8d9").
Definition sample_payload : value :=
  VObj [(js "height", VNum 180); (js "weight", VNum 81); (js "bmi", VNum 25)].



(** ** The calorie cache *)

Section caloric_result.
Context `{EngineLaws}.

(** The [hitCount] of the entry a key holds, if it holds a readable one. *)
Definition stored_hitCount (w : world) (k : jsstring) : option value :=
  match live w k with
  | Some (c :: s) =>
      match JSON_parse (c :: s) with
      | Return entry =>
          match get_prop entry (js "hitCount") with
          | Return h => Some h
          | Throw _ => None
          end
      | Throw _ => None
      end
  | _ => None
  end.

(** The key holds nothing, or an entry [setCaloricResult] can read. *)
Definition key_ready (w : world) (k : jsstring) : Prop :=
  match live w k with
  | Some (c :: s) => is_Some (stored_hitCount w k)
  | _ => True
  end.

(** The count [setCaloricResult] writes. *)
Definition next_hitCount (w : world) (k : jsstring) : value :=
  match stored_hitCount w k with
  | Some h => js_add (js_or h (VNum 0)) (VNum 1)
  | None => VNum 1
  end.

(** The object [setCaloricResult] writes for an array of condition names. *)
Definition resultData (bmi : Q) (names : list jsstring) (calorieData : value)
    (now : Z) (hitCount : value) : value :=
  VObj [(js "bmiRange", VNum (bmi_bucket bmi));
        (js "diseases", VArr (Array_sort (map VStr names)));
        (js "result", calorieData);
        (js "cachedAt", VStr (Date_toISOString now));
        (js "hitCount", hitCount)].

Lemma Q_same_refl (q : Q) : Q_same q q = true.
Proof. unfold Q_same. by rewrite Z.eqb_refl, Pos.eqb_refl. Qed.

Lemma Q_same_Qred (q : Q) : Q_same (Qred (Qred q)) (Qred q) = true.
Proof.
  rewrite (Qred_complete _ _ (Qred_correct q)). apply Q_same_refl.
Qed.

Lemma sort_insert_strings (x : jsstring) (l : list value) :
  forallb json_safe l = true -> forallb json_safe (sort_insert (VStr x) l) = true.
Proof.
  induction l as [|y l IH]; simpl; [done|].
  intros [Hy Hl]%andb_prop. destruct (str_lt _ _); simpl.
  - by rewrite Hy, IH.
  - by rewrite Hy, Hl.
Qed.

Lemma Array_sort_strings_safe (names : list jsstring) :
  forallb json_safe (Array_sort (map VStr names)) = true.
Proof.
  unfold Array_sort.
  assert (List.filter is_undefined (map VStr names) = []) as ->
    by (induction names; simpl; auto).
  assert (List.filter (fun x => negb (is_undefined x)) (map VStr names)
          = map VStr names) as ->
    by (induction names; simpl; f_equal; auto).
  rewrite app_nil_r.
  induction names as [|n l IH]; simpl; [done|]. by apply sort_insert_strings.
Qed.

(** [(h || 0) + 1] is a number or a string, never [NaN]. *)
Lemma js_add_or_safe (h : value) :
  json_safe (js_add (js_or h (VNum 0)) (VNum 1)) = true.
Proof.
  unfold js_or. destruct (truthy h) eqn:Ht.
  - destruct h as [| |[|]|q| |s|items|props]; try discriminate Ht;
      unfold js_add; cbn [ToPrimitive json_safe]; try reflexivity;
      apply Q_same_Qred.
  - unfold js_add. cbn [ToPrimitive json_safe]. apply Q_same_Qred.
Qed.

Lemma next_hitCount_safe (w : world) (k : jsstring) :
  json_safe (next_hitCount w k) = true.
Proof.
  unfold next_hitCount. destruct (stored_hitCount w k); [apply js_add_or_safe|done].
Qed.

Lemma resultData_safe (bmi : Q) (names : list jsstring) (calorieData : value)
    (now : Z) (hitCount : value) :
  json_safe calorieData = true -> json_safe hitCount = true ->
  json_safe (resultData bmi names calorieData now hitCount) = true.
Proof.
  intros Hc Hh. unfold resultData. cbn [json_safe forallb snd map fst].
  rewrite Hc, Hh, Array_sort_strings_safe. unfold bmi_bucket.
  rewrite Q_same_Qred. rewrite bool_decide_true; [done|].
  apply (bool_decide_unpack _). vm_compute. exact I.
Qed.

Lemma setCaloricResult_key_array (bmi : Q) (names : list jsstring) :
  RedisClient.setCaloricResult_key bmi (VArr (map VStr names))
  = (bmi_bucket bmi, VArr (Array_sort (map VStr names)),
     RedisClient.getCaloricResult_key bmi (VArr (map VStr names))).
Proof. reflexivity. Qed.

(** A write stores the entry under the bucketed key, with the next count. *)
Lemma setCaloricResult_stores (c : redis.Client) (bmi : Q) (names : list jsstring)
    (calorieData : value) (ttlSeconds : Z) (w : world) :
  let k := RedisClient.getCaloricResult_key bmi (VArr (map VStr names)) in
  link_up w = true -> 0 < ttlSeconds -> json_safe calorieData = true ->
  key_ready w k ->
  exists s,
    s <> []
    /\ JSON_parse s
       = Return (resultData bmi names calorieData (clock w) (next_hitCount w k))
    /\ RedisClient.setCaloricResult (connected c) bmi (VArr (map VStr names))
         calorieData (Some ttlSeconds) w
       = (Return true, put w k s ttlSeconds).
Proof.
  intros k Hup Httl Hsafe Hready.
  destruct (JSON_round_trip _
              (resultData_safe bmi names calorieData (clock w) (next_hitCount w k)
                 Hsafe (next_hitCount_safe w k))) as (s & Hstr & Hne & Hparse).
  exists s. split; [done|]. split; [done|].
  unfold RedisClient.setCaloricResult, connected.
  cbn [RedisClient.isConnected RedisClient.client default]. unfold id.
  rewrite setCaloricResult_key_array. fold k.
  unfold io_try, io_bind, Date_now, io_ret, io_lift. cbv beta iota.
  rewrite redis_get_up by done.
  unfold key_ready, next_hitCount, stored_hitCount in *.
  destruct (live w k) as [[|ch s0]|] eqn:Hlive.
  - unfold resultData in Hstr. rewrite Hstr. by rewrite redis_setEx_up.
  - destruct (JSON_parse (ch :: s0)) as [entry|e]; [|by destruct Hready].
    destruct (get_prop entry (js "hitCount")) as [h|e]; [|by destruct Hready].
    change (set_prop _ (js "hitCount") ?v)
      with [(js "bmiRange", VNum (bmi_bucket bmi));
            (js "diseases", VArr (Array_sort (map VStr names)));
            (js "result", calorieData);
            (js "cachedAt", VStr (Date_toISOString (clock w)));
            (js "hitCount", v)].
    unfold resultData in Hstr. rewrite Hstr. by rewrite redis_setEx_up.
  - unfold resultData in Hstr. rewrite Hstr. by rewrite redis_setEx_up.
Qed.

Lemma getCaloricResult_hit (c : redis.Client) (bmi : Q) (diseaseTypes : value)
    (w : world) (s : jsstring) (entry v : value) :
  link_up w = true ->
  live w (RedisClient.getCaloricResult_key bmi diseaseTypes) = Some s ->
  s <> [] -> JSON_parse s = Return entry ->
  get_prop entry (js "result") = Return v ->
  RedisClient.getCaloricResult (connected c) bmi diseaseTypes w = (Return v, w).
Proof.
  intros Hup Hlive Hne Hparse Hprop.
  unfold RedisClient.getCaloricResult, connected, io_try, io_bind, io_lift, io_ret.
  cbn [RedisClient.isConnected RedisClient.client].
  rewrite redis_get_up by done. rewrite Hlive.
  destruct s as [|ch s]; [done|]. by rewrite Hparse, Hprop.
Qed.


(** Equal buckets and equal sorted condition lists give equal keys. *)
Lemma same_bucket_same_key (bmi1 bmi2 : Q) (names1 names2 : list jsstring) :
  bmi_bucket bmi1 = bmi_bucket bmi2 ->
  Array_sort (map VStr names1) = Array_sort (map VStr names2) ->
  RedisClient.getCaloricResult_key bmi1 (VArr (map VStr names1))
  = RedisClient.getCaloricResult_key bmi2 (VArr (map VStr names2)).
Proof.
  unfold RedisClient.getCaloricResult_key, bmi_bucket. by intros -> ->.
Qed.

(** A read within the TTL of a write, for any BMI in the same bucket and
    any conditions with the same sorted list, returns what was written. *)
Lemma setCaloricResult_getCaloricResult (c : redis.Client) (bmi1 bmi2 : Q)
    (names1 names2 : list jsstring) (calorieData : value) (ttlSeconds dt : Z)
    (w : world) :
  bmi_bucket bmi1 = bmi_bucket bmi2 ->
  Array_sort (map VStr names1) = Array_sort (map VStr names2) ->
  link_up w = true -> 0 < ttlSeconds -> json_safe calorieData = true ->
  0 <= dt < ttlSeconds * 1000 ->
  key_ready w (RedisClient.getCaloricResult_key bmi1 (VArr (map VStr names1))) ->
  exists w',
    RedisClient.setCaloricResult (connected c) bmi1 (VArr (map VStr names1))
      calorieData (Some ttlSeconds) w = (Return true, w')
    /\ RedisClient.getCaloricResult (connected c) bmi2 (VArr (map VStr names2))
         (tick dt w') = (Return calorieData, tick dt w').
Proof.
  intros Hb Hn Hup Httl Hsafe Hdt Hready.
  destruct (setCaloricResult_stores c bmi1 names1 calorieData ttlSeconds w
              Hup Httl Hsafe Hready) as (s & Hne & Hparse & Hset).
  eexists. split; [exact Hset|].
  eapply getCaloricResult_hit; [done| |exact Hne|exact Hparse|reflexivity].
  rewrite <- (same_bucket_same_key bmi1 bmi2 names1 names2 Hb Hn).
  by apply live_put_same.
Qed.

End caloric_result.

(** C4. Two BMI values in the same 2.5-wide bucket (24.9 and 23.1 are both
    in bucket 22.5) with the same sorted condition list give the same key
    [calorie:<bucket>:<joined>] in [setCaloricResult] and
    [getCaloricResult]; so on a connected backend a [getCaloricResult] for
    one, issued within the TTL of a [setCaloricResult] for the other,
    returns the value stored.  No user identity enters either call. *)
Theorem bucketing_collision `{EngineLaws} (c : redis.Client) (bmi1 bmi2 : Q)
    (names1 names2 : list jsstring) (calorieData : value) (ttlSeconds dt : Z)
    (w : world) :
  bmi_bucket bmi1 = bmi_bucket bmi2 ->
  Array_sort (map VStr names1) = Array_sort (map VStr names2) ->
  link_up w = true -> 0 < ttlSeconds -> json_safe calorieData = true ->
  0 <= dt < ttlSeconds * 1000 ->
  key_ready w (RedisClient.getCaloricResult_key bmi1 (VArr (map VStr names1))) ->
  snd (RedisClient.setCaloricResult_key bmi1 (VArr (map VStr names1)))
    = RedisClient.getCaloricResult_key bmi2 (VArr (map VStr names2))
  /\ RedisClient.getCaloricResult_key bmi2 (VArr (map VStr names2))
     = js "calorie:" ++ Number_toString (bmi_bucket bmi1) ++ js ":"
       ++ Array_join (Array_sort (map VStr names1)) (js ",")
  /\ (exists w',
        RedisClient.setCaloricResult (connected c) bmi1 (VArr (map VStr names1))
          calorieData (Some ttlSeconds) w = (Return true, w')
        /\ RedisClient.getCaloricResult (connected c) bmi2 (VArr (map VStr names2))
             (tick dt w') = (Return calorieData, tick dt w'))
  /\ bmi_bucket (249 # 10) = 45 # 2
  /\ bmi_bucket (231 # 10) = 45 # 2.
Proof.
  intros Hb Hn Hup Httl Hsafe Hdt Hready.
  split; [|split; [|split; [|split]]].
  - rewrite setCaloricResult_key_get. by apply same_bucket_same_key.
  - rewrite <- (same_bucket_same_key bmi1 bmi2 names1 names2 Hb Hn).
    unfold RedisClient.getCaloricResult_key, bmi_bucket. simpl ToString.
    by rewrite <- ?app_assoc.
  - by apply setCaloricResult_getCaloricResult.
  - reflexivity.
  - reflexivity.
Qed.

Definition sample_advice : value :=
  VObj [(js "calories", VNum 2100); (js "content", VStr (js "Balanced diet"))].

Lemma bucketing_collision_witness :
  RedisClient.getCaloricResult_key (H := reference_engine) (231 # 10)
    (VArr (map VStr [js "diabetes"; js "asthma"]))
  = js "calorie:22.5:asthma,diabetes"
  /\ exists w',
       RedisClient.setCaloricResult (H := reference_engine) (connected sample_client)
         (249 # 10) (VArr (map VStr [js "asthma"; js "diabetes"])) sample_advice
         (Some 7200) sample_world = (Return true, w')
       /\ RedisClient.getCaloricResult (H := reference_engine) (connected sample_client)
            (231 # 10) (VArr (map VStr [js "diabetes"; js "asthma"]))
            (tick 5000 w') = (Return sample_advice, tick 5000 w').
Proof.
  destruct (bucketing_collision (H := reference_engine) sample_client
              (249 # 10) (231 # 10) [js "asthma"; js "diabetes"]
              [js "diabetes"; js "asthma"] sample_advice 7200 5000 sample_world)
    as (_ & Hkey & Hrun & _).
  - reflexivity.
  - reflexivity.
  - reflexivity.
  - lia.
  - reflexivity.
  - lia.
  - exact I.
  - split; [|exact Hrun]. rewrite Hkey. vm_compute. reflexivity.
Defined.

(** ** The hit counter *)






Section hit_count.
Context `{EngineLaws}.
Variable c : redis.Client.
Variable bmi : Q.
Variable names : list jsstring.
Variable ttlSeconds : Z.


Let k := RedisClient.getCaloricResult_key bmi (VArr (map VStr names)).

(** The entry under the key was written [age] milliseconds ago with
    result [calorieData] and count [n], and the link is up. *)
Definition counted (age n : Z) (calorieData : value) (w : world) : Prop :=
  link_up w = true
  /\ exists s now,
       s <> []
       /\ JSON_parse s
          = Return (resultData bmi names calorieData now (VNum (inject_Z n)))
       /\ forall dt, 0 <= dt -> age + dt < ttlSeconds * 1000 ->
                     live (tick dt w) k = Some s.


Lemma tick_0 (w : world) : tick 0 w = w.
Proof. destruct w as [s l t]. unfold tick. simpl. f_equal. lia. Qed.


Lemma counted_stored (age n : Z) (d : value) (w : world) :
  age < ttlSeconds * 1000 -> counted age n d w ->
  stored_hitCount w k = Some (VNum (inject_Z n)).
Proof.
  intros Hage (Hup & s & now & Hne & Hparse & Hlive).
  assert (live (tick 0 w) k = Some s) as Hl by (apply Hlive; lia).
  rewrite tick_0 in Hl. unfold stored_hitCount. rewrite Hl.
  destruct s as [|ch s]; [done|]. rewrite Hparse. reflexivity.
Qed.




(** A write on a fresh key starts the count at one. *)
Lemma first_write_counted (calorieData : value) (w : world) :
  link_up w = true -> 0 < ttlSeconds -> json_safe calorieData = true ->
  live w k = None ->
  exists w1,
    RedisClient.setCaloricResult (connected c) bmi (VArr (map VStr names))
      calorieData (Some ttlSeconds) w = (Return true, w1)
    /\ counted 0 1 calorieData w1.
Proof.
  intros Hup Httl Hsafe Hfresh.
  destruct (setCaloricResult_stores c bmi names calorieData ttlSeconds w
              Hup Httl Hsafe) as (s & Hne & Hparse & Hset).
  { unfold key_ready. fold k. by rewrite Hfresh. }
  fold k in Hparse, Hset. eexists. split; [exact Hset|].
  split; [done|]. exists s, (clock w). split; [done|]. split.
  - rewrite Hparse. unfold next_hitCount, stored_hitCount. by rewrite Hfresh.
  - intros dt Hdt Hage. apply live_put_same. lia.
Qed.







End hit_count.





(** ** Invalidation *)

Section invalidation.
Context `{Engine}.

(** [RedisClient.del] touches no key but its own. *)
Lemma del_frame (this : RedisClient.t) (k k' : jsstring) (w : world) :
  k' <> k ->
  store (snd (RedisClient.del this k w)) !! k' = store w !! k'.
Proof.
  intros Hne. unfold RedisClient.del, io_try, io_bind, io_ret.
  destruct (RedisClient.isConnected this), (RedisClient.client this); try done.
  unfold redis.del, redis.command. destruct (link_up w); [|done].
  simpl. by rewrite lookup_delete_ne.
Qed.

Lemma delete_matching_frame (this : RedisClient.t) (keys : list jsstring)
    (needle k' : jsstring) (w : world) :
  k' ∉ keys ->
  store (snd (cache.delete_matching this keys needle w)) !! k' = store w !! k'.
Proof.
  revert w. induction keys as [|k keys IH]; intros w Hnot; [done|].
  apply not_elem_of_cons in Hnot as [Hne Hnot].
  cbn [cache.delete_matching]. unfold io_bind at 1.
  destruct (includes k needle).
  - unfold io_bind at 1.
    pose proof (del_frame this k k' w Hne) as Hdel.
    destruct (RedisClient.del this k w) as [[b|e] w1]; simpl in Hdel.
    + unfold io_ret at 1. rewrite IH by done. exact Hdel.
    + exact Hdel.
  - unfold io_ret at 1. by apply IH.
Qed.

Lemma invalidate_pattern_frame (this : RedisClient.t) (userId : value)
    (pattern k' : jsstring) (w : world) :
  k' ∉ cache.keysToDelete userId ->
  store (snd (cache.invalidate_pattern this userId pattern w)) !! k' = store w !! k'.
Proof.
  intros Hnot. unfold cache.invalidate_pattern, io_try.
  pose proof (delete_matching_frame this (cache.keysToDelete userId)
                (String_replace
                   (String_replace
                      (String_replace pattern (js ":userId") (ToString userId))
                      (js "cache:") []) (js ":userId:") (ToString userId))
                k' w Hnot) as Hd.
  destruct (cache.delete_matching _ _ _ w) as [[u|e] w1]; exact Hd.
Qed.

Lemma forEach_frame (this : RedisClient.t) (userId : value)
    (patterns : list jsstring) (k' : jsstring) (w : world) :
  k' ∉ cache.keysToDelete userId ->
  store (snd (cache.forEach this userId patterns w)) !! k' = store w !! k'.
Proof.
  intros Hnot. revert w. induction patterns as [|p ps IH]; intros w; [done|].
  cbn [cache.forEach]. unfold io_bind.
  pose proof (invalidate_pattern_frame this userId p k' w Hnot) as Hp.
  destruct (cache.invalidate_pattern this userId p w) as [[u|e] w1]; simpl in Hp.
  - by rewrite IH.
  - exact Hp.
Qed.

(** Whatever the patterns, the user and the status, the middleware
    changes no key outside the seven it lists for that user. *)
Lemma invalidateCache_frame (this : RedisClient.t) (patterns : list jsstring)
    (user : value) (statusCode : Z) (k' : jsstring) (w : world) :
  k' ∉ cache.keysToDelete (cache.request_userId user) ->
  store (snd (cache.invalidateCache this patterns user statusCode w)) !! k'
  = store w !! k'.
Proof.
  intros Hnot. unfold cache.invalidateCache, cache.invalidateAfterResponse.
  destruct (negb (RedisClient.isConnected this)); [done|].
  destruct (negb (truthy _)); [done|].
  destruct ((statusCode >=? 200) && (statusCode <? 300)); [|done].
  by apply forEach_frame.
Qed.

(** The profile-cache key is none of the seven. *)
Lemma healthData_not_listed (userId : value) :
  js "healthData:" ++ ToString userId ∉ cache.keysToDelete userId.
Proof.
  unfold cache.keysToDelete.
  change (js "healthData:") with (104 :: js "ealthData:").
  change (js "cache:") with (99 :: js "ache:").
  rewrite !elem_of_cons, elem_of_nil. simpl. intuition discriminate.
Qed.

End invalidation.

(** C6, what the code does instead.  Whatever the patterns (["health"]
    included), the user and the status, [invalidateCache] leaves the
    profile-cache entry [healthData:<id>] of the requesting user as it was:
    that key is not among the keys the middleware can delete. *)
Theorem invalidation_keeps_profile_cache `{Engine} (this : RedisClient.t)
    (patterns : list jsstring) (user : value) (statusCode : Z) (w : world) :
  let healthKey := js "healthData:" ++ ToString (cache.request_userId user) in
  store (snd (cache.invalidateCache this patterns user statusCode w)) !! healthKey
  = store w !! healthKey.
Proof. intros healthKey. apply invalidateCache_frame, healthData_not_listed. Qed.

(** The cache of a user after [GET /api/health/metrics]: the profile
    entry written by [setHealthData], the response cached by the [cache]
    middleware under [healthCacheKey('metrics')], and, to watch the
    invalidation work, entries under two of the keys it lists. *)
Definition sample_request_user : value := VObj [(js "_id", sample_user)].

Definition stale (text : string) : entry :=
  {| data := js text; expires := 1700003600000 |}.

Definition cached_world : world :=
  {| store :=
       <[js "healthData:64b7f0c2a1d3e4f5a6b7c8d9" := stale "profile"]>
       (<[js "cache:health:64b7f0c2a1d3e4f5a6b7c8d9:metrics" := stale "metrics"]>
       (<[js "cache:64b7f0c2a1d3e4f5a6b7c8d9:/api/health/metrics" := stale "listed"]>
       (<[js "cache:64b7f0c2a1d3e4f5a6b7c8d9:/api/meals/daily" := stale "meals"]> ∅)));
     link_up := true;
     clock := 1700000000000 |}.

(** C6 at a concrete input: after a successful [PUT /api/health/metrics],
    which runs [invalidateCache(['health', 'summary'])], the listed health
    key is gone and the listed meals key is kept, but the profile-cache
    entry and the cached metrics response of the same user are both still
    there, stale. *)
Example invalidation_misses_health_entries :
  let w' :=
    snd (cache.invalidateCache (H := reference_engine) (connected sample_client)
           [js "health"; js "summary"] sample_request_user 200 cached_world) in
  cache.healthCacheKey (H := reference_engine) (js "metrics") sample_request_user
    = js "cache:health:64b7f0c2a1d3e4f5a6b7c8d9:metrics"
  /\ store w' !! js "cache:64b7f0c2a1d3e4f5a6b7c8d9:/api/health/metrics" = None
  /\ store w' !! js "cache:64b7f0c2a1d3e4f5a6b7c8d9:/api/meals/daily" = Some (stale "meals")
  /\ store w' !! js "healthData:64b7f0c2a1d3e4f5a6b7c8d9" = Some (stale "profile")
  /\ store w' !! js "cache:health:64b7f0c2a1d3e4f5a6b7c8d9:metrics" = Some (stale "metrics").
Proof. vm_compute. repeat split; reflexivity. Qed.

(** ** The generic operations of the client *)

Section generic_ops.
Context `{EngineLaws}.

Lemma set_stores (c : redis.Client) (key : jsstring) (data : value)
    (expireInSeconds : option Z) (w : world) :
  link_up w = true -> 0 < default 3600 expireInSeconds -> json_safe data = true ->
  exists s,
    s <> [] /\ JSON_parse s = Return data
    /\ RedisClient.set (connected c) key data expireInSeconds w
       = (Return true, put w key s (default 3600 expireInSeconds)).
Proof.
  intros Hup Httl Hsafe.
  destruct (JSON_round_trip data Hsafe) as (s & Hs & Hne & Hparse).
  exists s. split; [done|]. split; [done|].
  unfold RedisClient.set, connected, io_try, io_bind, io_ret.
  cbn [RedisClient.isConnected RedisClient.client].
  rewrite Hs. by rewrite redis_setEx_up.
Qed.

Lemma get_live (c : redis.Client) (key s : jsstring) (v : value) (w : world) :
  link_up w = true -> live w key = Some s -> s <> [] -> JSON_parse s = Return v ->
  RedisClient.get (connected c) key w = (Return v, w).
Proof.
  intros Hup Hlive Hne Hparse.
  unfold RedisClient.get, connected, io_try, io_bind, io_lift, io_ret.
  cbn [RedisClient.isConnected RedisClient.client].
  rewrite redis_get_up by done. rewrite Hlive.
  destruct s as [|ch s]; [done|]. cbn [RedisClient.parse_or_null]. by rewrite Hparse.
Qed.

Lemma get_absent (c : redis.Client) (key : jsstring) (w : world) :
  link_up w = true -> live w key = None ->
  RedisClient.get (connected c) key w = (Return VNull, w).
Proof.
  intros Hup Hlive.
  unfold RedisClient.get, connected, io_try, io_bind, io_lift, io_ret.
  cbn [RedisClient.isConnected RedisClient.client].
  rewrite redis_get_up by done. by rewrite Hlive.
Qed.

Lemma exists_up (c : redis.Client) (key : jsstring) (w : world) :
  link_up w = true ->
  RedisClient.exists_ (connected c) key w
  = (Return (bool_decide (is_Some (live w key))), w).
Proof.
  intros Hup.
  unfold RedisClient.exists_, connected, io_try, io_bind, io_ret,
    redis.exists_, redis.command.
  cbn [RedisClient.isConnected RedisClient.client]. rewrite Hup.
  by destruct (live w key).
Qed.

Lemma del_up (c : redis.Client) (key : jsstring) (w : world) :
  link_up w = true ->
  RedisClient.del (connected c) key w
  = (Return true, with_store w (delete key (store w))).
Proof.
  intros Hup.
  unfold RedisClient.del, connected, io_try, io_bind, io_ret,
    redis.del, redis.command.
  cbn [RedisClient.isConnected RedisClient.client]. by rewrite Hup.
Qed.

End generic_ops.

(** X1.  On a live connection, [set(key, data, ttl)] followed by
    [get(key)] within the time to live returns [data], for every value
    JSON carries, and [exists(key)] returns true.  An omitted time to live
    is 3600 seconds. *)
Theorem set_get_round_trip `{EngineLaws} (c : redis.Client) (key : jsstring)
    (data : value) (expireInSeconds : option Z) (dt : Z) (w : world) :
  let ttl := default 3600 expireInSeconds in
  link_up w = true -> 0 < ttl -> json_safe data = true ->
  0 <= dt < ttl * 1000 ->
  exists w',
    RedisClient.set (connected c) key data expireInSeconds w = (Return true, w')
    /\ RedisClient.get (connected c) key (tick dt w') = (Return data, tick dt w')
    /\ RedisClient.exists_ (connected c) key (tick dt w')
       = (Return true, tick dt w').
Proof.
  intros ttl Hup Httl Hsafe Hdt.
  destruct (set_stores c key data expireInSeconds w Hup Httl Hsafe)
    as (s & Hne & Hparse & Hset).
  eexists. split; [exact Hset|].
  assert (live (tick dt (put w key s ttl)) key = Some s) as Hlive
    by (by apply live_put_same).
  split.
  - by apply get_live with s.
  - rewrite exists_up by done. fold ttl. by rewrite Hlive.
Qed.

Lemma set_get_round_trip_witness :
  exists w',
    RedisClient.set (H := reference_engine) (connected sample_client)
      (js "perf:test") sample_payload (Some 60) sample_world = (Return true, w')
    /\ RedisClient.get (H := reference_engine) (connected sample_client)
         (js "perf:test") (tick 1000 w') = (Return sample_payload, tick 1000 w')
    /\ RedisClient.exists_ (connected sample_client) (js "perf:test")
         (tick 1000 w') = (Return true, tick 1000 w').
Proof.
  apply (set_get_round_trip (H := reference_engine) sample_client (js "perf:test")
           sample_payload (Some 60) 1000 sample_world).
  - reflexivity.
  - reflexivity.
  - reflexivity.
  - cbn. lia.
Defined.

(** X2.  An entry written by [set] is gone once its time to live has
    passed: from then on [get] returns null and [exists] returns false. *)
Theorem entry_expires `{EngineLaws} (c : redis.Client) (key : jsstring)
    (data : value) (expireInSeconds : option Z) (dt : Z) (w : world) :
  let ttl := default 3600 expireInSeconds in
  link_up w = true -> 0 < ttl -> json_safe data = true ->
  ttl * 1000 <= dt ->
  exists w',
    RedisClient.set (connected c) key data expireInSeconds w = (Return true, w')
    /\ RedisClient.get (connected c) key (tick dt w') = (Return VNull, tick dt w')
    /\ RedisClient.exists_ (connected c) key (tick dt w')
       = (Return false, tick dt w').
Proof.
  intros ttl Hup Httl Hsafe Hdt.
  destruct (set_stores c key data expireInSeconds w Hup Httl Hsafe)
    as (s & Hne & Hparse & Hset).
  eexists. split; [exact Hset|].
  assert (live (tick dt (put w key s ttl)) key = None) as Hlive
    by (by apply live_put_expired).
  split.
  - by apply get_absent.
  - rewrite exists_up by done. fold ttl. by rewrite Hlive.
Qed.

Lemma entry_expires_witness :
  exists w',
    RedisClient.set (H := reference_engine) (connected sample_client)
      (js "perf:test") sample_payload (Some 60) sample_world = (Return true, w')
    /\ RedisClient.get (H := reference_engine) (connected sample_client)
         (js "perf:test") (tick 60000 w') = (Return VNull, tick 60000 w')
    /\ RedisClient.exists_ (connected sample_client) (js "perf:test")
         (tick 60000 w') = (Return false, tick 60000 w').
Proof.
  apply (entry_expires (H := reference_engine) sample_client (js "perf:test")
           sample_payload (Some 60) 60000 sample_world).
  - reflexivity.
  - reflexivity.
  - reflexivity.
  - cbn. lia.
Defined.

(** X3.  [del(key)] on a live connection returns true whether or not the
    key was there; afterwards [get(key)] returns null and [exists(key)]
    false, and every other key reads as before. *)
Theorem del_then_get `{Engine} (c : redis.Client) (key : jsstring) (dt : Z)
    (w : world) :
  link_up w = true ->
  exists w',
    RedisClient.del (connected c) key w = (Return true, w')
    /\ RedisClient.get (connected c) key (tick dt w') = (Return VNull, tick dt w')
    /\ RedisClient.exists_ (connected c) key (tick dt w')
       = (Return false, tick dt w')
    /\ forall key', key' <> key -> live (tick dt w') key' = live (tick dt w) key'.
Proof.
  intros Hup. eexists. split; [by apply del_up|].
  set (w' := with_store w (delete key (store w))).
  assert (live (tick dt w') key = None) as Hgone.
  { unfold live, tick, w', with_store. cbn [store]. by rewrite lookup_delete_eq. }
  split; [|split].
  - unfold RedisClient.get, connected, io_try, io_bind, io_lift, io_ret.
    cbn [RedisClient.isConnected RedisClient.client].
    rewrite redis_get_up by done. by rewrite Hgone.
  - rewrite exists_up by done. by rewrite Hgone.
  - intros key' Hne. unfold live, tick, w', with_store. cbn [store clock].
    by rewrite lookup_delete_ne.
Qed.

Lemma del_then_get_witness :
  let key := js "healthData:64b7f0c2a1d3e4f5a6b7c8d9" in
  exists w',
    RedisClient.del (connected sample_client) key cached_world = (Return true, w')
    /\ RedisClient.get (H := reference_engine) (connected sample_client) key
         (tick 0 w') = (Return VNull, tick 0 w')
    /\ RedisClient.exists_ (connected sample_client) key (tick 0 w')
       = (Return false, tick 0 w')
    /\ forall key', key' <> key -> live (tick 0 w') key' = live (tick 0 cached_world) key'.
Proof.
  apply (del_then_get (H := reference_engine) sample_client
           (js "healthData:64b7f0c2a1d3e4f5a6b7c8d9") 0 cached_world).
  reflexivity.
Defined.

Section link_down.
Context `{Engine}.

Lemma command_down {A} (run : world -> completion A * world) (w : world) :
  link_up w = false ->
  redis.command run w = (Throw (Error "The client is closed"), w).
Proof. intros Hdown. unfold redis.command. by rewrite Hdown. Qed.

Lemma setEx_down (c : redis.Client) (k : jsstring) (seconds : Z)
    (v : option jsstring) (w : world) :
  link_up w = false -> exists e, redis.setEx c k seconds v w = (Throw e, w).
Proof.
  intros Hdown. unfold redis.setEx. destruct v; [|by eexists].
  rewrite command_down by done. by eexists.
Qed.

(** The pipeline [mset] queues: one [SETEX] for each pair, in order. *)
Lemma mset_pipeline (c : redis.Client) (pairs : list (jsstring * value))
    (seconds : Z) :
  fold_left
    (fun pipeline '(key, value) =>
       redis.pipeline_setEx pipeline key seconds (JSON_stringify value))
    pairs (redis.multi c)
  = map (fun kv => (kv.1, seconds, JSON_stringify kv.2)) pairs.
Proof.
  unfold redis.multi.
  rewrite <- (app_nil_l (map _ pairs)). generalize (@nil (jsstring * Z * option jsstring)).
  induction pairs as [|[k v] pairs IH]; intros p; cbn [fold_left map].
  - by rewrite app_nil_r.
  - rewrite IH. unfold redis.pipeline_setEx. by rewrite <- app_assoc.
Qed.

End link_down.

(** X4.  The client is marked connected but the link to the server is
    down, so that every command throws.  Each operation catches the
    exception: it returns its empty value (null, false or the empty list)
    and leaves the store as it was; for [mset], when there is a pair to
    write. *)
Theorem link_down_fails_soft `{Engine} (this : RedisClient.t) (w : world) :
  link_up w = false ->
  (forall key, RedisClient.get this key w = (Return VNull, w))
  /\ (forall key data ttl, RedisClient.set this key data ttl w = (Return false, w))
  /\ (forall key, RedisClient.del this key w = (Return false, w))
  /\ (forall key, RedisClient.exists_ this key w = (Return false, w))
  /\ (forall keys, RedisClient.mget this keys w = (Return [], w))
  /\ (forall pairs ttl, pairs <> [] ->
        RedisClient.mset this pairs ttl w = (Return false, w))
  /\ (forall userId token ttl,
        RedisClient.setSession this userId token ttl w = (Return false, w))
  /\ (forall userId, RedisClient.getSession this userId w = (Return None, w))
  /\ (forall userId, RedisClient.deleteSession this userId w = (Return false, w))
  /\ (forall userId healthData ttl,
        RedisClient.setHealthData this userId healthData ttl w = (Return false, w))
  /\ (forall userId, RedisClient.getHealthData this userId w = (Return VNull, w))
  /\ (forall bmi diseaseTypes calorieData ttl,
        RedisClient.setCaloricResult this bmi diseaseTypes calorieData ttl w
        = (Return false, w))
  /\ (forall bmi diseaseTypes,
        RedisClient.getCaloricResult this bmi diseaseTypes w = (Return VNull, w)).
Proof.
  intros Hdown. destruct this as [[c|] [|]]; repeat split; intros; try reflexivity.
  all: unfold RedisClient.get, RedisClient.set, RedisClient.del, RedisClient.exists_,
         RedisClient.mget, RedisClient.mset, RedisClient.setSession,
         RedisClient.getSession, RedisClient.deleteSession,
         RedisClient.setHealthData, RedisClient.getHealthData,
         RedisClient.setCaloricResult, RedisClient.getCaloricResult,
         io_try, io_bind, io_ret, Date_now;
       cbn [RedisClient.isConnected RedisClient.client].
  - unfold redis.get. by rewrite command_down.
  - match goal with |- context [redis.setEx ?c ?k ?s ?v w] =>
      destruct (setEx_down c k s v w Hdown) as [e ->] end. done.
  - unfold redis.del. by rewrite command_down.
  - unfold redis.exists_. by rewrite command_down.
  - match goal with |- context [match ?keys with [] => _ | _ :: _ => _ end] =>
      destruct keys end; [done|].
    unfold redis.mGet. by rewrite command_down.
  - rewrite mset_pipeline.
    match goal with Hne : ?pairs <> [] |- _ => destruct pairs as [|[k v] pairs] end;
      [done|].
    cbn [map redis.exec redis.exec_all fst snd]. unfold io_bind.
    match goal with |- context [redis.setEx ?c ?k ?s ?v w] =>
      destruct (setEx_down c k s v w Hdown) as [e ->] end. done.
  - match goal with |- context [redis.setEx ?c ?k ?s ?v w] =>
      destruct (setEx_down c k s v w Hdown) as [e ->] end. done.
  - unfold redis.get. by rewrite command_down.
  - unfold redis.del. by rewrite command_down.
  - match goal with |- context [redis.setEx ?c ?k ?s ?v w] =>
      destruct (setEx_down c k s v w Hdown) as [e ->] end. done.
  - unfold redis.get. by rewrite command_down.
  - match goal with |- context [RedisClient.setCaloricResult_key ?bmi ?diseaseTypes] =>
      destruct (RedisClient.setCaloricResult_key bmi diseaseTypes) as [[r d] k] end.
    unfold redis.get. by rewrite command_down.
  - unfold redis.get. by rewrite command_down.
Qed.

Lemma link_down_fails_soft_witness :
  link_up quiet_world = false
  /\ RedisClient.get (H := reference_engine) (connected sample_client)
       (js "perf:test") quiet_world = (Return VNull, quiet_world)
  /\ RedisClient.set (H := reference_engine) (connected sample_client)
       (js "perf:test") sample_payload (Some 60) quiet_world
     = (Return false, quiet_world).
Proof.
  split; [reflexivity|].
  destruct (link_down_fails_soft (H := reference_engine) (connected sample_client)
              quiet_world eq_refl) as (Hget & Hset & _).
  split; [apply Hget|apply Hset].
Defined.

Section many_keys.
Context `{EngineLaws}.

(** Running the queued commands writes every pair, and nothing else. *)
Lemma exec_all_stores (c : redis.Client) (pairs : list (jsstring * value))
    (seconds : Z) (w : world) :
  link_up w = true -> 0 < seconds -> NoDup (map fst pairs) ->
  Forall (fun kv => json_safe kv.2 = true) pairs ->
  exists w',
    redis.exec_all c (map (fun kv => (kv.1, seconds, JSON_stringify kv.2)) pairs) w
    = (Return tt, w')
    /\ link_up w' = true /\ clock w' = clock w
    /\ (forall k, k ∉ map fst pairs -> store w' !! k = store w !! k)
    /\ Forall (fun kv =>
                 exists s, s <> [] /\ JSON_parse s = Return kv.2
                           /\ store w' !! kv.1
                              = Some {| data := s;
                                        expires := clock w + seconds * 1000 |})
         pairs.
Proof.
  intros Hup Hs Hnd Hsafe. revert w Hup.
  induction pairs as [|[k v] pairs IH]; intros w Hup.
  { exists w. by repeat split. }
  cbn [map fst snd] in *. apply list.NoDup_cons in Hnd as [Hk Hnd].
  apply Forall_cons_1 in Hsafe as [Hv Hsafe]. cbn [snd] in Hv.
  destruct (JSON_round_trip v Hv) as (s & Hstr & Hne & Hparse).
  destruct (IH Hnd Hsafe (put w k s seconds)) as (w' & Hrun & Hup' & Hclock & Hframe & Hall);
    [done|].
  exists w'. cbn [redis.exec_all]. unfold io_bind at 1.
  rewrite Hstr, redis_setEx_up by done. split; [exact Hrun|].
  split; [done|]. split; [done|]. split; [|constructor].
  - intros k' Hk'. apply not_elem_of_cons in Hk' as [Hne' Hk'].
    rewrite Hframe by done. unfold put, with_store. cbn [store].
    by rewrite lookup_insert_ne.
  - exists s. split; [done|]. split; [done|]. cbn [fst].
    rewrite Hframe by done. unfold put, with_store. cbn [store].
    by rewrite lookup_insert_eq.
  - exact Hall.
Qed.

Lemma parse_all_live (pairs : list (jsstring * value)) (w : world) :
  Forall (fun kv =>
            exists s, s <> [] /\ JSON_parse s = Return kv.2
                      /\ live w kv.1 = Some s) pairs ->
  RedisClient.parse_all (map (live w) (map fst pairs)) = Return (map snd pairs).
Proof.
  induction 1 as [|[k v] pairs (s & Hne & Hparse & Hlive) _ IH]; [done|].
  cbn [map fst snd RedisClient.parse_all] in *. rewrite Hlive.
  destruct s as [|ch s]; [done|]. cbn [RedisClient.parse_or_null].
  by rewrite Hparse, IH.
Qed.

End many_keys.

(** X5.  [mset] of pairs with distinct keys and values JSON carries,
    followed by [mget] of the same keys within the time to live, returns
    the values, in the order of the keys. *)
Theorem mset_mget_round_trip `{EngineLaws} (c : redis.Client)
    (pairs : list (jsstring * value)) (expireInSeconds : option Z) (dt : Z)
    (w : world) :
  let ttl := default 3600 expireInSeconds in
  link_up w = true -> 0 < ttl -> NoDup (map fst pairs) ->
  Forall (fun kv => json_safe kv.2 = true) pairs ->
  0 <= dt < ttl * 1000 ->
  exists w',
    RedisClient.mset (connected c) pairs expireInSeconds w = (Return true, w')
    /\ RedisClient.mget (connected c) (map fst pairs) (tick dt w')
       = (Return (map snd pairs), tick dt w').
Proof.
  intros ttl Hup Httl Hnd Hsafe Hdt.
  destruct (exec_all_stores c pairs ttl w Hup Httl Hnd Hsafe)
    as (w' & Hrun & Hup' & Hclock & _ & Hall).
  exists w'. split.
  - unfold RedisClient.mset, connected, io_try, io_bind, io_ret.
    cbn [RedisClient.isConnected RedisClient.client].
    rewrite mset_pipeline. unfold redis.exec. fold ttl. by rewrite Hrun.
  - unfold RedisClient.mget, connected, io_try, io_bind, io_lift, io_ret.
    cbn [RedisClient.isConnected RedisClient.client].
    destruct pairs as [|kv pairs]; [done|].
    change (map fst (kv :: pairs)) with (kv.1 :: map fst pairs).
    unfold redis.mGet, redis.command. cbn [link_up tick]. rewrite Hup'.
    change (kv.1 :: map fst pairs) with (map fst (kv :: pairs)).
    rewrite parse_all_live; [done|].
    eapply list.Forall_impl; [exact Hall|].
    intros [k v] (s & Hne & Hparse & Hst). exists s. split; [done|]. split; [done|].
    unfold live, tick. cbn [store clock fst] in *. rewrite Hst. cbn [expires data].
    destruct (Z.ltb_spec (clock w' + dt) (clock w + ttl * 1000)); [done|lia].
Qed.

Definition sample_pairs : list (jsstring * value) :=
  [(js "profile", sample_payload); (js "advice", sample_advice)].

Lemma mset_mget_round_trip_witness :
  exists w',
    RedisClient.mset (H := reference_engine) (connected sample_client) sample_pairs
      (Some 60) sample_world = (Return true, w')
    /\ RedisClient.mget (H := reference_engine) (connected sample_client)
         [js "profile"; js "advice"] (tick 1000 w')
       = (Return [sample_payload; sample_advice], tick 1000 w').
Proof.
  apply (mset_mget_round_trip (H := reference_engine) sample_client sample_pairs
           (Some 60) 1000 sample_world).
  - reflexivity.
  - reflexivity.
  - apply (bool_decide_unpack _). vm_compute. exact I.
  - repeat constructor.
  - cbn. lia.
Defined.

(** ** Sessions *)

Section sessions.
Context `{Engine}.

Lemma getSession_up (c : redis.Client) (userId : value) (w : world) :
  link_up w = true ->
  RedisClient.getSession (connected c) userId w
  = (Return (live w (js "session:" ++ ToString userId)), w).
Proof.
  intros Hup. unfold RedisClient.getSession, connected, io_try, io_bind, io_ret.
  cbn [RedisClient.isConnected RedisClient.client]. by rewrite redis_get_up.
Qed.

Lemma setSession_up (c : redis.Client) (userId : value) (token : jsstring)
    (ttlSeconds : option Z) (w : world) :
  link_up w = true -> 0 < default 3600 ttlSeconds ->
  RedisClient.setSession (connected c) userId token ttlSeconds w
  = (Return true,
     put w (js "session:" ++ ToString userId) token (default 3600 ttlSeconds)).
Proof.
  intros Hup Httl. unfold RedisClient.setSession, connected, io_try, io_bind, io_ret.
  cbn [RedisClient.isConnected RedisClient.client]. by rewrite redis_setEx_up.
Qed.

Lemma deleteSession_up (c : redis.Client) (userId : value) (w : world) :
  link_up w = true ->
  RedisClient.deleteSession (connected c) userId w
  = (Return true,
     with_store w (delete (js "session:" ++ ToString userId) (store w))).
Proof.
  intros Hup.
  unfold RedisClient.deleteSession, connected, io_try, io_bind, io_ret,
    redis.del, redis.command.
  cbn [RedisClient.isConnected RedisClient.client]. by rewrite Hup.
Qed.

End sessions.

(** X6.  [setSession(userId, token, ttl)] stores the token:
    [getSession(userId)] returns it until the time to live has passed and
    null afterwards, it returns null after [deleteSession(userId)], and
    what [getSession] returns for a user with another id is what it
    returned before. *)
Theorem session_round_trip `{Engine} (c : redis.Client) (userId : value)
    (token : jsstring) (ttlSeconds : option Z) (w : world) :
  let ttl := default 3600 ttlSeconds in
  link_up w = true -> 0 < ttl ->
  exists w1,
    RedisClient.setSession (connected c) userId token ttlSeconds w = (Return true, w1)
    /\ (forall dt, 0 <= dt < ttl * 1000 ->
          RedisClient.getSession (connected c) userId (tick dt w1)
          = (Return (Some token), tick dt w1))
    /\ (forall dt, ttl * 1000 <= dt ->
          RedisClient.getSession (connected c) userId (tick dt w1)
          = (Return None, tick dt w1))
    /\ (forall dt, exists w2,
          RedisClient.deleteSession (connected c) userId (tick dt w1)
          = (Return true, w2)
          /\ RedisClient.getSession (connected c) userId w2 = (Return None, w2))
    /\ (forall dt other,
          ToString other <> ToString userId ->
          RedisClient.getSession (connected c) other (tick dt w1)
          = (Return (live (tick dt w) (js "session:" ++ ToString other)),
             tick dt w1)).
Proof.
  intros ttl Hup Httl. eexists. split; [by apply setSession_up|].
  fold ttl. split; [|split; [|split]].
  - intros dt Hdt. rewrite getSession_up by done. by rewrite live_put_same.
  - intros dt Hdt. rewrite getSession_up by done. by rewrite live_put_expired.
  - intros dt. eexists. split; [by apply deleteSession_up|].
    rewrite getSession_up by done. unfold live, with_store. cbn [store].
    by rewrite lookup_delete_eq.
  - intros dt other Hne. rewrite getSession_up by done.
    rewrite live_put_other; [done|]. intros Heq. by apply app_inv_head in Heq.
Qed.

Lemma session_round_trip_witness :
  exists w1,
    RedisClient.setSession (H := reference_engine) (connected sample_client)
      sample_user (js "header.payload.signature") (Some 604800) sample_world
    = (Return true, w1)
    /\ RedisClient.getSession (H := reference_engine) (connected sample_client)
         sample_user (tick 1000 w1)
       = (Return (Some (js "header.payload.signature")), tick 1000 w1)
    /\ RedisClient.getSession (H := reference_engine) (connected sample_client)
         sample_user (tick 604800000 w1) = (Return None, tick 604800000 w1).
Proof.
  destruct (session_round_trip (H := reference_engine) sample_client sample_user
              (js "header.payload.signature") (Some 604800) sample_world
              eq_refl eq_refl) as (w1 & Hset & Hget & Hgone & _).
  exists w1. split; [exact Hset|]. split.
  - apply Hget. cbn. lia.
  - apply Hgone. cbn. lia.
Defined.

(** ** The calorie cache after expiry *)

(** X7.  The hit counter does not outlive its entry.  When a calorie
    result is written again after the time to live of the first write has
    passed, the read in between misses, and the [hitCount] of the new
    entry is 1 again. *)
Theorem hit_count_restarts_after_expiry `{EngineLaws} (c : redis.Client) (bmi : Q)
    (names : list jsstring) (ttlSeconds : Z) (first second : value) (dt : Z)
    (w : world) :
  let this := connected c in
  let diseaseTypes := VArr (map VStr names) in
  let k := RedisClient.getCaloricResult_key bmi diseaseTypes in
  link_up w = true -> 0 < ttlSeconds ->
  json_safe first = true -> json_safe second = true ->
  live w k = None -> ttlSeconds * 1000 <= dt ->
  exists w1 w2,
    RedisClient.setCaloricResult this bmi diseaseTypes first (Some ttlSeconds) w
    = (Return true, w1)
    /\ RedisClient.getCaloricResult this bmi diseaseTypes (tick dt w1)
       = (Return VNull, tick dt w1)
    /\ RedisClient.setCaloricResult this bmi diseaseTypes second (Some ttlSeconds)
         (tick dt w1) = (Return true, w2)
    /\ stored_hitCount w2 k = Some (VNum 1).
Proof.
  intros this diseaseTypes k Hup Httl Hs1 Hs2 Hfresh Hdt.
  destruct (setCaloricResult_stores c bmi names first ttlSeconds w Hup Httl Hs1)
    as (s & Hne & Hparse & Hset).
  { unfold key_ready. fold diseaseTypes k. by rewrite Hfresh. }
  fold diseaseTypes k in Hset.
  set (w1 := put w k s ttlSeconds) in *.
  assert (live (tick dt w1) k = None) as Hgone by (by apply live_put_expired).
  destruct (first_write_counted c bmi names ttlSeconds second (tick dt w1))
    as (w2 & Hset2 & Hc); [done..|].
  exists w1, w2. split; [exact Hset|]. split; [|split; [exact Hset2|]].
  - unfold RedisClient.getCaloricResult, this, connected, io_try, io_bind, io_ret.
    cbn [RedisClient.isConnected RedisClient.client].
    rewrite redis_get_up by done. fold k. by rewrite Hgone.
  - apply (counted_stored bmi names ttlSeconds 0 1 second w2); [lia|exact Hc].
Qed.

Lemma hit_count_restarts_after_expiry_witness :
  let this := connected sample_client in
  let diseaseTypes := VArr (map VStr [js "asthma"]) in
  let k := RedisClient.getCaloricResult_key (H := reference_engine) (249 # 10) diseaseTypes in
  exists w1 w2,
    RedisClient.setCaloricResult (H := reference_engine) this (249 # 10)
      diseaseTypes sample_advice (Some 7200) sample_world = (Return true, w1)
    /\ RedisClient.getCaloricResult (H := reference_engine) this (249 # 10)
         diseaseTypes (tick 7200000 w1) = (Return VNull, tick 7200000 w1)
    /\ RedisClient.setCaloricResult (H := reference_engine) this (249 # 10)
         diseaseTypes sample_advice (Some 7200) (tick 7200000 w1) = (Return true, w2)
    /\ stored_hitCount (H := reference_engine) w2 k = Some (VNum 1).
Proof.
  apply (hit_count_restarts_after_expiry (H := reference_engine) sample_client
           (249 # 10) [js "asthma"] 7200 sample_advice sample_advice 7200000
           sample_world).
  - reflexivity.
  - lia.
  - reflexivity.
  - reflexivity.
  - reflexivity.
  - lia.
Defined.

(** ** What the invalidation deletes *)

Section invalidation_effect.
Context `{Engine}.

Lemma delete_matching_effect (c : redis.Client) (keys : list jsstring)
    (needle : jsstring) (w : world) :
  link_up w = true ->
  exists w',
    cache.delete_matching (connected c) keys needle w = (Return tt, w')
    /\ link_up w' = true /\ clock w' = clock w
    /\ forall k,
         store w' !! k
         = if bool_decide (k ∈ keys) && includes k needle then None
           else store w !! k.
Proof.
  revert w. induction keys as [|key keys IH]; intros w Hup.
  { exists w. by repeat split. }
  cbn [cache.delete_matching]. unfold io_bind at 1.
  destruct (includes key needle) eqn:Hinc.
  - unfold io_bind at 1. rewrite del_up by done. unfold io_ret at 1.
    destruct (IH (with_store w (delete key (store w)))) as (w' & Hrun & Hup' & Hclock & Hst);
      [done|].
    exists w'. split; [exact Hrun|]. split; [done|]. split; [done|].
    intros k. rewrite Hst. cbn [store with_store].
    destruct (decide (k = key)) as [->|Hne].
    + rewrite lookup_delete_eq, Hinc.
      rewrite (bool_decide_true (key ∈ key :: keys)) by apply list_elem_of_here.
      by destruct (bool_decide (key ∈ keys)).
    + rewrite lookup_delete_ne by done.
      assert (bool_decide (k ∈ key :: keys) = bool_decide (k ∈ keys)) as ->; [|done].
      apply bool_decide_ext. rewrite elem_of_cons.
      split; [by intros [?|?]|by right].
  - unfold io_ret at 1.
    destruct (IH w Hup) as (w' & Hrun & Hup' & Hclock & Hst).
    exists w'. split; [exact Hrun|]. split; [done|]. split; [done|].
    intros k. rewrite Hst.
    destruct (decide (k = key)) as [->|Hne].
    + rewrite Hinc, !andb_false_r. done.
    + assert (bool_decide (k ∈ key :: keys) = bool_decide (k ∈ keys)) as ->; [|done].
      apply bool_decide_ext. rewrite elem_of_cons.
      split; [by intros [?|?]|by right].
Qed.

(** The text a pattern is reduced to before it is looked for in a key. *)
Definition needle (userId : value) (pattern : jsstring) : jsstring :=
  String_replace
    (String_replace
       (String_replace pattern (js ":userId") (ToString userId))
       (js "cache:") [])
    (js ":userId:") (ToString userId).

Lemma forEach_effect (c : redis.Client) (userId : value)
    (patterns : list jsstring) (w : world) :
  link_up w = true ->
  exists w',
    cache.forEach (connected c) userId patterns w = (Return tt, w')
    /\ link_up w' = true /\ clock w' = clock w
    /\ forall k,
         store w' !! k
         = if bool_decide (k ∈ cache.keysToDelete userId)
              && existsb (fun pattern => includes k (needle userId pattern)) patterns
           then None
           else store w !! k.
Proof.
  revert w. induction patterns as [|pattern patterns IH]; intros w Hup.
  { exists w. repeat split; try done. intros k. by rewrite andb_false_r. }
  cbn [cache.forEach]. unfold io_bind at 1.
  unfold cache.invalidate_pattern, io_try. fold (needle userId pattern).
  destruct (delete_matching_effect c (cache.keysToDelete userId)
              (needle userId pattern) w Hup) as (w1 & -> & Hup1 & Hclock1 & Hst1).
  destruct (IH w1 Hup1) as (w' & Hrun & Hup' & Hclock & Hst).
  exists w'. split; [exact Hrun|]. split; [done|]. split; [congruence|].
  intros k. rewrite Hst, Hst1. cbn [existsb].
  destruct (bool_decide (k ∈ cache.keysToDelete userId)); [|done].
  cbn [andb]. destruct (includes k (needle userId pattern)); cbn [orb].
  - by destruct (existsb _ patterns).
  - done.
Qed.

End invalidation_effect.

(** X8.  What [invalidateCache(patterns)] deletes, exactly.  On a live
    connection a key loses its entry when the request carries a user id,
    the status is 2xx, the key is one of the seven listed for that user,
    and for some pattern the key contains the pattern after its three
    replacements; every other key keeps its entry. *)
Theorem invalidateCache_effect `{Engine} (c : redis.Client)
    (patterns : list jsstring) (user : value) (statusCode : Z) (w : world)
    (k : jsstring) :
  let userId := cache.request_userId user in
  let w' := snd (cache.invalidateCache (connected c) patterns user statusCode w) in
  link_up w = true ->
  store w' !! k
  = if truthy userId
       && bool_decide (200 <= statusCode < 300)
       && bool_decide (k ∈ cache.keysToDelete userId)
       && existsb (fun pattern => includes k (needle userId pattern)) patterns
    then None
    else store w !! k.
Proof.
  intros userId w' Hup. unfold w', cache.invalidateCache, cache.invalidateAfterResponse.
  cbn [connected RedisClient.isConnected negb]. fold userId.
  destruct (truthy userId); [|done]. cbn [negb andb].
  destruct (Z.geb_spec statusCode 200), (Z.ltb_spec statusCode 300);
    cbn [andb]; try (rewrite bool_decide_false by lia; done).
  rewrite bool_decide_true by lia. cbn [andb].
  destruct (forEach_effect c userId patterns w Hup) as (w1 & -> & _ & _ & Hst).
  apply Hst.
Qed.

Lemma invalidateCache_effect_witness :
  let userId := cache.request_userId sample_request_user in
  let w' :=
    snd (cache.invalidateCache (H := reference_engine) (connected sample_client)
           [js "health"; js "summary"] sample_request_user 200 cached_world) in
  let k := js "cache:64b7f0c2a1d3e4f5a6b7c8d9:/api/health/metrics" in
  store w' !! k
  = if truthy userId
       && bool_decide (200 <= 200 < 300)
       && bool_decide (k ∈ cache.keysToDelete (H := reference_engine) userId)
       && existsb (fun pattern =>
                     includes k (needle (H := reference_engine) userId pattern))
            [js "health"; js "summary"]
    then None
    else store cached_world !! k.
Proof.
  apply (invalidateCache_effect (H := reference_engine) sample_client
           [js "health"; js "summary"] sample_request_user 200 cached_world
           (js "cache:64b7f0c2a1d3e4f5a6b7c8d9:/api/health/metrics")).
  reflexivity.
Defined.

(** ** The keys of the key generators *)

(** A text that ends in a colon and has no other, put before a user id,
    never gives the user id followed by [:/]. *)
Lemma tagged_key_not_listed (tag U a b : jsstring) :
  58 ∉ tag -> (forall t, tag <> 47 :: t) -> tag <> [] ->
  tag ++ 58 :: U ++ 58 :: a <> U ++ 58 :: 47 :: b.
Proof.
  intros Hcolon Hslash Hne.
  remember (length U) as n eqn:Hn. revert U Hn a.
  induction n as [n IH] using lt_wf_ind. intros U Hn a Heq.
  change (tag ++ 58 :: U ++ 58 :: a) with (tag ++ [58] ++ U ++ 58 :: a) in Heq.
  rewrite app_assoc in Heq.
  apply app_eq_app in Heq as [l [[Htag Hrest]|[HU Hrest]]].
  - (* the tag reaches past the user id *)
    destruct l as [|x l].
    + rewrite app_nil_r in Htag. subst U.
      destruct tag as [|t0 tag]; [done|]. cbn [app] in Hrest.
      injection Hrest as <- _. apply Hcolon. left.
    + cbn [app] in Hrest. injection Hrest as <- Hrest.
      assert (U = tag /\ l = []) as [-> ->].
      { clear -Htag Hcolon. revert U Htag.
        induction tag as [|t0 tag IHt]; intros U Htag.
        - destruct U as [|u U]; [by injection Htag as <-|].
          injection Htag as _ Htag. by destruct U.
        - apply not_elem_of_cons in Hcolon as [Ht0 Hcolon].
          destruct U as [|u U]; [by injection Htag as ?|].
          injection Htag as -> Htag.
          destruct (IHt Hcolon U Htag) as [-> ->]. done. }
      destruct tag as [|t0 tag]; [done|]. cbn [app] in Hrest.
      injection Hrest as <- _. by eapply Hslash.
  - (* the user id begins with the tag *)
    subst U. rewrite <- !app_assoc in Hrest. cbn [app] in Hrest.
    apply (IH (length l)) with l a; [|done|exact Hrest].
    rewrite Hn, !length_app. cbn [length]. lia.
Qed.

Section survivors.
Context `{Engine}.

Lemma tagged_key_survives (tag : jsstring) (userId : value) (a : jsstring) :
  58 ∉ tag -> (forall t, tag <> 47 :: t) -> tag <> [] ->
  js "cache:" ++ tag ++ js ":" ++ ToString userId ++ js ":" ++ a
  ∉ cache.keysToDelete userId.
Proof.
  intros Hcolon Hslash Hne. unfold cache.keysToDelete.
  rewrite !elem_of_cons, elem_of_nil.
  intros Hin.
  repeat (destruct Hin as [Hin|Hin];
          [apply app_inv_head in Hin;
           by apply tagged_key_not_listed in Hin|]).
  done.
Qed.

End survivors.

(** X9.  No key built by [healthCacheKey], [userCacheKey] or
    [mealCacheKey] is ever deleted by [invalidateCache], whatever the
    patterns, the status and the state of the connection: the responses
    cached under these keys for the request's user stay until they
    expire. *)
Theorem keyed_caches_survive `{Engine} (this : RedisClient.t)
    (patterns : list jsstring) (req : cache.Request) (statusCode : Z) (w : world) :
  let w' := snd (cache.invalidateCache this patterns (cache.user req) statusCode w) in
  (forall dataType,
     store w' !! cache.healthCacheKey dataType (cache.user req)
     = store w !! cache.healthCacheKey dataType (cache.user req))
  /\ (forall endpoint,
        store w' !! cache.userCacheKey endpoint (cache.user req)
        = store w !! cache.userCacheKey endpoint (cache.user req))
  /\ (forall timeframe w0 key w1,
        cache.mealCacheKey timeframe req w0 = (Return key, w1) ->
        store w' !! key = store w !! key).
Proof.
  intros w'. split; [|split].
  - intros dataType. apply invalidateCache_frame.
    apply (tagged_key_survives (js "health")); [|done..].
    apply (bool_decide_unpack _). vm_compute. exact I.
  - intros endpoint. apply invalidateCache_frame.
    apply (tagged_key_survives (js "user")); [|done..].
    apply (bool_decide_unpack _). vm_compute. exact I.
  - intros timeframe w0 key w1 Hkey. apply invalidateCache_frame.
    unfold cache.mealCacheKey, io_bind, io_lift, io_ret, Date_now in Hkey.
    destruct (get_prop (cache.query req) (js "date")) as [queryDate|e]; [|done].
    injection Hkey as <- _.
    apply (tagged_key_survives (js "meals")); [|done..].
    apply (bool_decide_unpack _). vm_compute. exact I.
Qed.

(** ** The response cache *)

Section response_cache.
Context `{EngineLaws}.

(** The key the middleware looks under: the key generator's, or for want
    of one the user id (or [anonymous]) and the URL. *)
Definition cacheKey_of (keyGenerator : option (cache.Request -> io jsstring))
    (req : cache.Request) : io jsstring :=
  match keyGenerator with
  | Some keyGenerator => keyGenerator req
  | None =>
      let userId :=
        js_or (cache.request_userId (cache.user req)) (VStr (js "anonymous")) in
      let path := js_or (VStr (cache.originalUrl req)) (VStr (cache.path req)) in
      io_ret (js "cache:" ++ ToString userId ++ js ":" ++ ToString path)
  end.

(** A hit: the cached data is the answer, with status 200, and the rest of
    the route does not run. *)
Lemma cache_hit (c : redis.Client) (expireInSeconds : option Z)
    (keyGenerator : option (cache.Request -> io jsstring)) (req : cache.Request)
    (next : world -> cache.Response * world) (key s : jsstring) (v : value)
    (w : world) :
  link_up w = true -> cacheKey_of keyGenerator req w = (Return key, w) ->
  live w key = Some s -> s <> [] -> JSON_parse s = Return v -> truthy v = true ->
  cache.cache (connected c) expireInSeconds keyGenerator req next w
  = ({| cache.statusCode := 200; cache.body := v |}, w).
Proof.
  intros Hup Hkey Hlive Hne Hparse Htruthy. unfold cache.cache.
  cbn [connected RedisClient.isConnected negb]. unfold io_bind at 1.
  fold (cacheKey_of keyGenerator req).
  rewrite Hkey. unfold io_bind at 1.
  rewrite (get_live c key s v w) by done. unfold io_ret. by rewrite Htruthy.
Qed.

(** A miss: the rest of the route runs, and what it answers is stored. *)
Lemma cache_miss (c : redis.Client) (expireInSeconds : option Z)
    (keyGenerator : option (cache.Request -> io jsstring)) (req : cache.Request)
    (next : world -> cache.Response * world) (key : jsstring)
    (response : cache.Response) (w w1 : world) :
  link_up w = true -> cacheKey_of keyGenerator req w = (Return key, w) ->
  live w key = None -> next w = (response, w1) ->
  cache.cache (connected c) expireInSeconds keyGenerator req next w
  = (response,
     snd (RedisClient.set (connected c) key (cache.body response)
            (Some (default 3600 expireInSeconds)) w1)).
Proof.
  intros Hup Hkey Hlive Hnext. unfold cache.cache.
  cbn [connected RedisClient.isConnected negb]. unfold io_bind at 1.
  fold (cacheKey_of keyGenerator req).
  rewrite Hkey. unfold io_bind at 1.
  rewrite (get_absent c key w) by done. unfold io_ret. cbn [truthy].
  by rewrite Hnext.
Qed.

End response_cache.

(** X10.  The [cache] middleware replays what the route answered.  After
    a miss, the body the handler sends is stored whatever its status, and
    until the time to live has passed every request with the same key is
    answered with that body and status 200, without the handler being
    run.  The key is the key generator's or, without one, the default
    key. *)
Theorem cache_replays_response `{EngineLaws} (c : redis.Client)
    (expireInSeconds : option Z)
    (keyGenerator : option (cache.Request -> io jsstring))
    (req : cache.Request) (next : world -> cache.Response * world)
    (key : jsstring) (response : cache.Response) (w w1 : world) :
  let ttl := default 3600 expireInSeconds in
  let middleware := cache.cache (connected c) expireInSeconds keyGenerator req in
  link_up w = true -> 0 < ttl ->
  (forall w0, cacheKey_of keyGenerator req w0 = (Return key, w0)) ->
  live w key = None ->
  next w = (response, w1) -> link_up w1 = true ->
  json_safe (cache.body response) = true -> truthy (cache.body response) = true ->
  exists w2,
    middleware next w = (response, w2)
    /\ forall dt later,
         0 <= dt < ttl * 1000 ->
         middleware later (tick dt w2)
         = ({| cache.statusCode := 200; cache.body := cache.body response |},
            tick dt w2).
Proof.
  intros ttl middleware Hup Httl Hkey Hfresh Hnext Hup1 Hsafe Htruthy.
  destruct (set_stores c key (cache.body response) (Some ttl) w1 Hup1 Httl Hsafe)
    as (s & Hne & Hparse & Hset).
  exists (put w1 key s ttl). split.
  - unfold middleware. rewrite (cache_miss c _ _ _ _ key response w w1) by done.
    fold ttl. by rewrite Hset.
  - intros dt later Hdt. unfold middleware.
    apply cache_hit with key s; try done.
    by apply live_put_same.
Qed.

(** A request for [GET /api/health/metrics], and the answer of the route
    when the user is not found. *)
Definition metrics_request : cache.Request :=
  {| cache.user := sample_request_user;
     cache.originalUrl := js "/api/health/metrics";
     cache.path := js "/metrics";
     cache.query := VObj [] |}.

Definition not_found : cache.Response :=
  {| cache.statusCode := 404;
     cache.body := VObj [(js "message", VStr (js "User not found"))] |}.

Definition metrics_key : option (cache.Request -> io jsstring) :=
  Some (fun req =>
          io_ret (cache.healthCacheKey (H := reference_engine) (js "metrics")
                    (cache.user req))).

Lemma cache_replays_response_witness :
  let middleware :=
    cache.cache (H := reference_engine) (connected sample_client) (Some 3600)
      metrics_key metrics_request in
  exists w2,
    middleware (fun w => (not_found, w)) sample_world = (not_found, w2)
    /\ forall dt later,
         0 <= dt < 3600 * 1000 ->
         middleware later (tick dt w2)
         = ({| cache.statusCode := 200; cache.body := cache.body not_found |},
            tick dt w2).
Proof.
  apply (cache_replays_response (H := reference_engine) sample_client (Some 3600)
           metrics_key metrics_request (fun w => (not_found, w))
           (js "cache:health:64b7f0c2a1d3e4f5a6b7c8d9:metrics") not_found
           sample_world sample_world).
  - reflexivity.
  - reflexivity.
  - intros w0. reflexivity.
  - reflexivity.
  - reflexivity.
  - reflexivity.
  - reflexivity.
  - reflexivity.
Defined.

Section warming.
Context `{EngineLaws}.

(** [set] always returns, and changes at most the entry under its key. *)
Lemma set_frame (this : RedisClient.t) (key : jsstring) (data : value)
    (expireInSeconds : option Z) (w : world) :
  exists b w',
    RedisClient.set this key data expireInSeconds w = (Return b, w')
    /\ link_up w' = link_up w /\ clock w' = clock w
    /\ forall key', key' <> key -> store w' !! key' = store w !! key'.
Proof.
  unfold RedisClient.set, io_try, io_bind, io_ret.
  destruct (RedisClient.isConnected this), (RedisClient.client this) as [c|];
    try (by eexists _, _).
  unfold redis.setEx.
  destruct (JSON_stringify data) as [s|]; [|by eexists _, _].
  unfold redis.command. destruct (link_up w) eqn:Hup; [|by eexists _, _].
  destruct (default 3600 expireInSeconds <=? 0); [by eexists _, _|].
  eexists _, _. split; [done|]. split; [done|]. split; [done|].
  intros key' Hne. cbn [with_store store]. by rewrite lookup_insert_ne.
Qed.

Lemma warmCache_stores_metrics (c : redis.Client) (userId userData healthMetrics : value)
    (w : world) :
  link_up w = true ->
  get_prop userData (js "healthMetrics") = Return healthMetrics ->
  json_safe healthMetrics = true ->
  exists s w1,
    s <> [] /\ JSON_parse s = Return healthMetrics
    /\ cache.warmCache (connected c) userId userData w = (Return tt, w1)
    /\ link_up w1 = true /\ clock w1 = clock w
    /\ store w1 !! (js "cache:health:" ++ ToString userId ++ js ":metrics")
       = Some {| data := s; expires := clock w + 3600 * 1000 |}.
Proof.
  intros Hup Hmetrics Hsafe.
  destruct (set_stores c (js "cache:health:" ++ ToString userId ++ js ":metrics")
              healthMetrics (Some 3600) w Hup ltac:(done) Hsafe)
    as (s & Hne & Hparse & Hset).
  cbn [default] in Hset. unfold id in Hset.
  set (key := js "cache:health:" ++ ToString userId ++ js ":metrics") in *.
  set (wa := put w key s 3600) in *.
  assert (store wa !! key = Some {| data := s; expires := clock w + 3600 * 1000 |})
    as Hstored by (unfold wa, put, with_store; cbn [store]; by rewrite lookup_insert_eq).
  assert (forall a, a <> js "metrics" ->
                    js "cache:health:" ++ ToString userId ++ js ":" ++ a <> key) as Hother.
  { intros a Ha Heq. unfold key in Heq.
    apply app_inv_head, app_inv_head in Heq.
    change (js ":metrics") with (js ":" ++ js "metrics") in Heq.
    by apply app_inv_head in Heq. }
  exists s.
  unfold cache.warmCache, io_try.
  cbn [connected RedisClient.isConnected negb].
  unfold io_bind at 1, io_lift at 1. rewrite Hmetrics. cbv beta iota.
  unfold io_bind at 1. fold key. rewrite Hset. cbv beta iota.
  assert (exists diseases, get_prop userData (js "diseases") = Return diseases)
    as [diseases Hd].
  { destruct userData; try done; by eexists. }
  assert (exists medications, get_prop userData (js "medications") = Return medications)
    as [medications Hm].
  { destruct userData; try done; by eexists. }
  unfold io_bind at 1, io_lift at 1. rewrite Hd. cbv beta iota.
  destruct (set_frame (connected c)
              (js "cache:health:" ++ ToString userId ++ js ":diseases")
              diseases (Some 3600) wa) as (b2 & wb & Hset2 & Hupb & Hclockb & Hframeb).
  unfold io_bind at 1. rewrite Hset2. cbv beta iota.
  unfold io_bind at 1, io_lift at 1. rewrite Hm. cbv beta iota.
  assert (store wb !! key = store wa !! key) as Hkeep2.
  { apply Hframeb. intros Heq. symmetry in Heq.
    change (js ":diseases") with (js ":" ++ js "diseases") in Heq.
    by apply Hother in Heq. }
  unfold io_bind at 1, io_lift at 1.
  destruct (match medications with
            | VArr items => kept ← cache.filter_active items; Return (VArr kept)
            | _ => Throw (TypeError "filter is not a function")
            end) as [active|e].
  - destruct (set_frame (connected c)
                (js "cache:health:" ++ ToString userId ++ js ":medications")
                active (Some 3600) wb) as (b3 & wc & Hset3 & Hupc & Hclockc & Hframec).
    cbv beta iota. unfold io_bind at 1. rewrite Hset3. unfold io_ret.
    exists wc. split; [done|]. split; [done|]. split; [done|].
    split; [by rewrite Hupc, Hupb|]. split; [by rewrite Hclockc, Hclockb|].
    rewrite Hframec, Hkeep2; [done|]. intros Heq. symmetry in Heq.
    change (js ":medications") with (js ":" ++ js "medications") in Heq.
    by apply Hother in Heq.
  - unfold io_ret. exists wb. split; [done|]. split; [done|]. split; [done|].
    split; [by rewrite Hupb|]. split; [by rewrite Hclockb|]. by rewrite Hkeep2.
Qed.

End warming.

(** X11.  [warmCache(userId, userData)] of [middleware/cache.js] stores
    the health metrics under the key [healthCacheKey('metrics')] builds
    for that user: for the next hour a route behind
    [cache(3600, healthCacheKey('metrics'))] answers the user's requests
    with the warmed metrics, without running its handler. *)
Theorem warmCache_feeds_cache `{EngineLaws} (c : redis.Client)
    (userData healthMetrics : value) (req : cache.Request) (w : world) :
  let userId := cache.request_userId (cache.user req) in
  let middleware :=
    cache.cache (connected c) (Some 3600)
      (Some (fun req => io_ret (cache.healthCacheKey (js "metrics") (cache.user req))))
      req in
  link_up w = true ->
  get_prop userData (js "healthMetrics") = Return healthMetrics ->
  json_safe healthMetrics = true -> truthy healthMetrics = true ->
  exists w1,
    cache.warmCache (connected c) userId userData w = (Return tt, w1)
    /\ forall dt next,
         0 <= dt < 3600 * 1000 ->
         middleware next (tick dt w1)
         = ({| cache.statusCode := 200; cache.body := healthMetrics |},
            tick dt w1).
Proof.
  intros userId middleware Hup Hmetrics Hsafe Htruthy.
  destruct (warmCache_stores_metrics c userId userData healthMetrics w
              Hup Hmetrics Hsafe)
    as (s & w1 & Hne & Hparse & Hrun & Hup1 & Hclock & Hstored).
  exists w1. split; [exact Hrun|]. intros dt next Hdt. unfold middleware.
  apply cache_hit with (cache.healthCacheKey (js "metrics") (cache.user req)) s;
    try done.
  unfold live, tick, cache.healthCacheKey. cbn [store clock]. fold userId.
  change (js "cache:health:" ++ ToString userId ++ js ":" ++ js "metrics")
    with (js "cache:health:" ++ ToString userId ++ js ":metrics").
  rewrite Hstored. cbn [expires data].
  destruct (Z.ltb_spec (clock w1 + dt) (clock w + 3600 * 1000)); [done|lia].
Qed.

(** A user document, as far as the cache reads it. *)
Definition sample_document : value :=
  VObj [(js "_id", sample_user); (js "healthMetrics", sample_payload);
        (js "diseases", VArr []); (js "medications", VArr [])].

Lemma warmCache_feeds_cache_witness :
  let middleware :=
    cache.cache (H := reference_engine) (connected sample_client) (Some 3600)
      (Some (fun req =>
               io_ret (cache.healthCacheKey (H := reference_engine) (js "metrics")
                         (cache.user req))))
      metrics_request in
  exists w1,
    cache.warmCache (H := reference_engine) (connected sample_client) sample_user
      sample_document sample_world = (Return tt, w1)
    /\ forall dt next,
         0 <= dt < 3600 * 1000 ->
         middleware next (tick dt w1)
         = ({| cache.statusCode := 200; cache.body := sample_payload |},
            tick dt w1).
Proof.
  apply (warmCache_feeds_cache (H := reference_engine) sample_client
           sample_document sample_payload metrics_request sample_world);
    reflexivity.
Defined.

(** ** Login and logout *)

Section logout.
Context `{Engine}.
Variable jwt_verify : jsstring -> completion value.
Variable development : bool.

(** The keys [POST /logout] deletes for a user. *)
Definition logout_keys (userId : value) : list jsstring :=
  [js "session:" ++ ToString userId;
   js "session:legacy:" ++ ToString userId;
   js "user:" ++ ToString userId ++ js ":profile";
   js "healthData:" ++ ToString userId].

Lemma lookup_with_store_delete (w : world) (key k : jsstring) :
  store (with_store w (delete key (store w))) !! k
  = if bool_decide (k = key) then None else store w !! k.
Proof.
  cbn [with_store store]. case_bool_decide as Hk.
  - subst. apply lookup_delete_eq.
  - by apply lookup_delete_ne.
Qed.

Lemma logout_effect (c : redis.Client) (authorization : value)
    (token : jsstring) (decoded userId : value) (w : world) :
  link_up w = true ->
  auth.bearer_token authorization = Return (VStr token) -> token <> [] ->
  jwt_verify token = Return decoded ->
  get_prop decoded (js "userId") = Return userId ->
  exists w',
    auth.logout jwt_verify development (connected c) authorization w
    = ({| cache.statusCode := 200;
          cache.body := VObj [(js "message", VStr (js "Logout successful"))] |},
       w')
    /\ link_up w' = true /\ clock w' = clock w
    /\ forall k,
         store w' !! k
         = if bool_decide (k ∈ logout_keys userId) then None else store w !! k.
Proof.
  intros Hup Hbearer Hne Hverify HuserId.
  unfold auth.logout, io_bind, io_lift, io_ret. rewrite Hbearer.
  destruct token as [|ch token]; [done|]. rewrite Hverify, HuserId.
  rewrite deleteSession_up by done.
  cbn [connected RedisClient.isConnected].
  rewrite !del_up by done.
  eexists. split; [reflexivity|]. split; [done|]. split; [done|].
  intros k. rewrite !lookup_with_store_delete. unfold logout_keys.
  repeat case_bool_decide; try done;
    rewrite ?elem_of_cons, ?elem_of_nil in *; tauto.
Qed.

End logout.

Section login.
Context `{Engine}.

Lemma setEx_frame (c : redis.Client) (k : jsstring) (seconds : Z)
    (v : option jsstring) (w : world) :
  exists r w',
    redis.setEx c k seconds v w = (r, w')
    /\ link_up w' = link_up w /\ clock w' = clock w
    /\ forall k', k' <> k -> store w' !! k' = store w !! k'.
Proof.
  unfold redis.setEx. destruct v as [s|]; [|by eexists _, _].
  unfold redis.command. destruct (link_up w) eqn:Hup; [|by eexists _, _].
  destruct (seconds <=? 0); [by eexists _, _|].
  eexists _, _. split; [done|]. split; [done|]. split; [done|].
  intros k' Hne. cbn [with_store store]. by rewrite lookup_insert_ne.
Qed.

(** The record [POST /login] keeps under [session:legacy:<id>]. *)
Definition legacy_record (userId : value) (now : Z) : value :=
  VObj [(js "userId", userId); (js "loginTime", VStr (Date_toISOString now))].

(** Login, step by step: the token is stored for seven days, then the
    profile (when it can be serialised), then the legacy record. *)
Lemma storeSession_steps (c : redis.Client) (user userId : value)
    (token : jsstring) (w : world) :
  link_up w = true ->
  get_prop user (js "_id") = Return userId ->
  let session := js "session:" ++ ToString userId in
  let profile := js "user:" ++ ToString userId ++ js ":profile" in
  let legacy := js "session:legacy:" ++ ToString userId in
  let w1 := put w session token 604800 in
  let w2 :=
    match JSON_stringify user with
    | Some s => put w1 profile s 3600
    | None => w1
    end in
  let w3 :=
    match JSON_stringify (legacy_record userId (clock w)) with
    | Some s => put w2 legacy s 604800
    | None => w2
    end in
  auth.storeSession (connected c) user token w = (Return tt, w3).
Proof.
  intros Hup Hid session profile legacy w1 w2 w3. unfold auth.storeSession.
  cbn [connected RedisClient.isConnected RedisClient.client].
  set (legacy_step :=
         io_try
           (_id <- io_lift (get_prop user (js "_id"));;
            now <- Date_now;;
            redis.set_EX c (js "session:legacy:" ++ ToString _id)
              (JSON_stringify
                 (VObj [(js "userId", _id);
                        (js "loginTime", VStr (Date_toISOString now))]))
              604800)
           (fun _ => io_ret tt)).
  unfold io_bind at 1. unfold io_try at 1. unfold io_bind at 1, io_lift at 1.
  rewrite Hid. cbv beta iota.
  unfold io_bind at 1.
  rewrite (setSession_up c userId token (Some 604800) w Hup) by done.
  cbn [default]. unfold id. cbv beta iota. fold session w1.
  assert (link_up w1 = true /\ clock w1 = clock w) as [Hup1 Hclock1] by done.
  assert (auth.warmCache (connected c) userId user w1 = (Return tt, w2)) as ->.
  { unfold auth.warmCache, io_try, redis.set_EX, w2.
    cbn [connected RedisClient.isConnected RedisClient.client]. fold profile.
    destruct (JSON_stringify user) as [s|]; [|done].
    by rewrite redis_setEx_up. }
  cbv beta iota.
  assert (link_up w2 = true /\ clock w2 = clock w) as [Hup2 Hclock2]
    by (unfold w2; by destruct (JSON_stringify user)).
  unfold legacy_step, io_try, io_bind, io_lift, Date_now, redis.set_EX.
  rewrite Hid. fold legacy. rewrite Hclock2. fold (legacy_record userId (clock w)).
  unfold w3. destruct (JSON_stringify (legacy_record userId (clock w))) as [s|]; [|done].
  by rewrite redis_setEx_up.
Qed.

Lemma login_keys_differ (userId : value) :
  let session := js "session:" ++ ToString userId in
  let profile := js "user:" ++ ToString userId ++ js ":profile" in
  let legacy := js "session:legacy:" ++ ToString userId in
  profile <> session /\ legacy <> session /\ legacy <> profile.
Proof.
  intros session profile legacy. unfold session, profile, legacy.
  split; [|split].
  - change (js "user:") with (117 :: js "ser:").
    change (js "session:") with (115 :: js "ession:"). discriminate.
  - change (js "session:legacy:") with (js "session:" ++ js "legacy:").
    rewrite <- app_assoc. intros Heq%app_inv_head.
    apply (f_equal length) in Heq. rewrite length_app in Heq.
    change (length (js "legacy:")) with 7%nat in Heq. lia.
  - change (js "user:") with (117 :: js "ser:").
    change (js "session:legacy:") with (115 :: js "ession:legacy:"). discriminate.
Qed.

(** Login writes under three keys of the user, all of them keys that
    logout deletes; one holds the token for seven days. *)
Lemma storeSession_effect (c : redis.Client) (user userId : value)
    (token : jsstring) (w : world) :
  link_up w = true ->
  get_prop user (js "_id") = Return userId ->
  exists w',
    auth.storeSession (connected c) user token w = (Return tt, w')
    /\ link_up w' = true /\ clock w' = clock w
    /\ (forall k, k ∉ logout_keys userId -> store w' !! k = store w !! k)
    /\ store w' !! (js "session:" ++ ToString userId)
       = Some {| data := token; expires := clock w + 604800 * 1000 |}.
Proof.
  intros Hup Hid. eexists. split; [by apply storeSession_steps|].
  destruct (login_keys_differ userId) as (Hps & Hls & Hlp).
  set (session := js "session:" ++ ToString userId) in *.
  set (profile := js "user:" ++ ToString userId ++ js ":profile") in *.
  set (legacy := js "session:legacy:" ++ ToString userId) in *.
  destruct (JSON_stringify user) as [s2|],
    (JSON_stringify (legacy_record userId (clock w))) as [s3|];
    (split; [done|]); (split; [done|]); split;
    try (intros k Hk; unfold logout_keys in Hk;
         rewrite !elem_of_cons, elem_of_nil in Hk;
         fold session profile legacy in Hk);
    unfold put, with_store; cbn [store clock];
    rewrite ?lookup_insert_ne by (try done; intros ?; subst; tauto);
    try done; by rewrite lookup_insert_eq.
Qed.

End login.

(** X12.  A [POST /logout] with a token that [jwt.verify] accepts answers
    200 and deletes the entries [session:<id>], [session:legacy:<id>],
    [user:<id>:profile] and [healthData:<id>] of the user: afterwards
    [getSession] and [getHealthData] return null for that user.  No other
    key changes; in particular every key that begins with [cache:], where
    the [cache] middleware keeps its responses, is left as it was. *)
Theorem logout_clears_user_entries `{Engine}
    (jwt_verify : jsstring -> completion value) (development : bool)
    (c : redis.Client) (authorization : value) (token : jsstring)
    (decoded userId : value) (w : world) :
  link_up w = true ->
  auth.bearer_token authorization = Return (VStr token) -> token <> [] ->
  jwt_verify token = Return decoded ->
  get_prop decoded (js "userId") = Return userId ->
  exists w',
    auth.logout jwt_verify development (connected c) authorization w
    = ({| cache.statusCode := 200;
          cache.body := VObj [(js "message", VStr (js "Logout successful"))] |},
       w')
    /\ RedisClient.getSession (connected c) userId w' = (Return None, w')
    /\ RedisClient.getHealthData (connected c) userId w' = (Return VNull, w')
    /\ (forall k, k ∉ logout_keys userId -> store w' !! k = store w !! k)
    /\ (forall rest, store w' !! (js "cache:" ++ rest) = store w !! (js "cache:" ++ rest)).
Proof.
  intros Hup Hbearer Hne Hverify HuserId.
  destruct (logout_effect jwt_verify development c authorization token decoded
              userId w Hup Hbearer Hne Hverify HuserId)
    as (w' & Hrun & Hup' & Hclock & Hst).
  assert (forall k, k ∈ logout_keys userId -> live w' k = None) as Hgone.
  { intros k Hk. unfold live. by rewrite Hst, bool_decide_true. }
  exists w'. split; [exact Hrun|]. split; [|split; [|split]].
  - rewrite getSession_up by done. rewrite Hgone; [done|]. left.
  - unfold RedisClient.getHealthData, connected, io_try, io_bind, io_ret.
    cbn [RedisClient.isConnected RedisClient.client].
    rewrite redis_get_up by done. rewrite Hgone; [done|].
    unfold logout_keys. do 3 right. left.
  - intros k Hk. by rewrite Hst, bool_decide_false.
  - intros rest. rewrite Hst, bool_decide_false; [done|].
    unfold logout_keys. rewrite !elem_of_cons, elem_of_nil.
    change (js "cache:") with (99 :: js "ache:").
    change (js "session:") with (115 :: js "ession:").
    change (js "session:legacy:") with (115 :: js "ession:legacy:").
    change (js "user:") with (117 :: js "ser:").
    change (js "healthData:") with (104 :: js "ealthData:").
    cbn [app]. intuition discriminate.
Qed.

(** A verification that accepts one token, that of the sample user. *)
Definition sample_token : jsstring := js "header.payload.signature".

Definition sample_verify (token : jsstring) : completion value :=
  if bool_decide (token = sample_token)
  then Return (VObj [(js "userId", sample_user)])
  else Throw (Error "invalid signature").

Lemma logout_clears_user_entries_witness :
  let key := js "cache:health:64b7f0c2a1d3e4f5a6b7c8d9:metrics" in
  exists w',
    auth.logout (H := reference_engine) sample_verify false
      (connected sample_client) (VStr (js "Bearer header.payload.signature"))
      cached_world
    = ({| cache.statusCode := 200;
          cache.body := VObj [(js "message", VStr (js "Logout successful"))] |},
       w')
    /\ RedisClient.getHealthData (H := reference_engine) (connected sample_client)
         sample_user w' = (Return VNull, w')
    /\ store w' !! key = store cached_world !! key.
Proof.
  destruct (logout_clears_user_entries (H := reference_engine) sample_verify false
              sample_client (VStr (js "Bearer header.payload.signature"))
              sample_token (VObj [(js "userId", sample_user)]) sample_user
              cached_world eq_refl eq_refl ltac:(discriminate) eq_refl eq_refl)
    as (w' & Hrun & _ & Hhealth & _ & Hcache).
  exists w'. split; [exact Hrun|]. split; [exact Hhealth|].
  apply (Hcache (js "health:64b7f0c2a1d3e4f5a6b7c8d9:metrics")).
Defined.

(** X13.  Login, then logout.  The session management of [POST /login]
    stores the token, which [getSession] returns during seven days; a
    logout with that token within that time answers 200 and leaves the
    store as it was before the login, except that the four keys of the
    user that logout deletes are absent. *)
Theorem logout_undoes_login `{Engine}
    (jwt_verify : jsstring -> completion value) (development : bool)
    (c : redis.Client) (user userId decoded : value) (token : jsstring)
    (authorization : value) (dt : Z) (w : world) :
  link_up w = true ->
  get_prop user (js "_id") = Return userId ->
  auth.bearer_token authorization = Return (VStr token) -> token <> [] ->
  jwt_verify token = Return decoded ->
  get_prop decoded (js "userId") = Return userId ->
  0 <= dt < 604800 * 1000 ->
  exists w1 response w2,
    auth.storeSession (connected c) user token w = (Return tt, w1)
    /\ RedisClient.getSession (connected c) userId (tick dt w1)
       = (Return (Some token), tick dt w1)
    /\ auth.logout jwt_verify development (connected c) authorization (tick dt w1)
       = (response, w2)
    /\ cache.statusCode response = 200
    /\ forall k,
         store w2 !! k
         = if bool_decide (k ∈ logout_keys userId) then None else store w !! k.
Proof.
  intros Hup Hid Hbearer Hne Hverify HuserId Hdt.
  destruct (storeSession_effect c user userId token w Hup Hid)
    as (w1 & Hlogin & Hup1 & Hclock1 & Hframe1 & Hsession).
  destruct (logout_effect jwt_verify development c authorization token decoded
              userId (tick dt w1)) as (w2 & Hlogout & Hup2 & Hclock2 & Hst2);
    [done..|].
  exists w1. eexists. exists w2.
  split; [exact Hlogin|]. split; [|split; [exact Hlogout|split; [done|]]].
  - rewrite getSession_up by done. unfold live, tick. cbn [store clock].
    rewrite Hsession. cbn [expires data].
    destruct (Z.ltb_spec (clock w1 + dt) (clock w + 604800 * 1000)); [done|lia].
  - intros k. rewrite Hst2. case_bool_decide as Hk; [done|].
    cbn [tick store]. by apply Hframe1.
Qed.

Lemma logout_undoes_login_witness :
  exists w1 response w2,
    auth.storeSession (H := reference_engine) (connected sample_client)
      sample_document sample_token sample_world = (Return tt, w1)
    /\ RedisClient.getSession (H := reference_engine) (connected sample_client)
         sample_user (tick 1000 w1) = (Return (Some sample_token), tick 1000 w1)
    /\ auth.logout (H := reference_engine) sample_verify false
         (connected sample_client) (VStr (js "Bearer header.payload.signature"))
         (tick 1000 w1) = (response, w2)
    /\ cache.statusCode response = 200
    /\ forall k,
         store w2 !! k
         = if bool_decide (k ∈ logout_keys (H := reference_engine) sample_user)
           then None else store sample_world !! k.
Proof.
  apply (logout_undoes_login (H := reference_engine) sample_verify false
           sample_client sample_document sample_user
           (VObj [(js "userId", sample_user)]) sample_token
           (VStr (js "Bearer header.payload.signature")) 1000 sample_world).
  - reflexivity.
  - reflexivity.
  - reflexivity.
  - discriminate.
  - reflexivity.
  - reflexivity.
  - lia.
Defined.

Section always_returns.
Context `{Engine}.

Lemma del_returns (this : RedisClient.t) (key : jsstring) (w : world) :
  exists b w', RedisClient.del this key w = (Return b, w').
Proof.
  unfold RedisClient.del, io_try, io_bind, io_ret.
  destruct (RedisClient.isConnected this), (RedisClient.client this) as [c|];
    try (by eexists _, _).
  destruct (redis.del c key w) as [[n|e] w']; by eexists _, _.
Qed.

Lemma deleteSession_returns (this : RedisClient.t) (userId : value) (w : world) :
  exists b w', RedisClient.deleteSession this userId w = (Return b, w').
Proof.
  unfold RedisClient.deleteSession, io_try, io_bind, io_ret.
  destruct (RedisClient.isConnected this), (RedisClient.client this) as [c|];
    try (by eexists _, _).
  destruct (redis.del c _ w) as [[n|e] w']; by eexists _, _.
Qed.

End always_returns.

(** X14.  [POST /logout] answers 200, 401 or 500, and when it answers
    401 or 500 (no token, a token that [jwt.verify] refuses, a payload
    that cannot be read) the store is as it was. *)
Theorem logout_refused_changes_nothing `{Engine}
    (jwt_verify : jsstring -> completion value) (development : bool)
    (this : RedisClient.t) (authorization : value) (w : world) :
  let answer := auth.logout jwt_verify development this authorization w in
  cache.statusCode answer.1 = 200
  \/ (answer.2 = w
      /\ (cache.statusCode answer.1 = 401 \/ cache.statusCode answer.1 = 500)).
Proof.
  intros answer. unfold answer, auth.logout, io_bind, io_lift, io_ret.
  destruct (auth.bearer_token authorization) as [token|e]; [|right; auto].
  destruct token as [| | | | |[|ch token]| |]; try (right; by auto).
  destruct (jwt_verify (ch :: token)) as [decoded|e]; [|right; auto].
  destruct (get_prop decoded (js "userId")) as [userId|e]; [|right; auto].
  destruct (deleteSession_returns this userId w) as (b0 & w0 & ->).
  destruct (RedisClient.isConnected this); [|by left].
  destruct (del_returns this (js "session:legacy:" ++ ToString userId) w0)
    as (b1 & w1 & ->).
  destruct (del_returns this (js "user:" ++ ToString userId ++ js ":profile") w1)
    as (b2 & w2 & ->).
  destruct (del_returns this (js "healthData:" ++ ToString userId) w2)
    as (b3 & w3 & ->).
  by left.
Qed.

(** ** Cache analytics *)

(** A pattern made of a literal prefix and [*] matches the keys that begin
    with the prefix. *)
Lemma glob_prefix (prefix k : jsstring) :
  Forall (fun c => c <> 42 /\ c <> 63) prefix ->
  redis.glob (prefix ++ [42]) k = starts_with prefix k.
Proof.
  intros Hlit. revert k. induction Hlit as [|p prefix [H42 H63] _ IH]; intros k.
  - cbn [app redis.glob starts_with]. cbn [Z.eqb Pos.eqb].
    induction k as [|c k IHk]; [done|]. cbn [orb]. exact IHk.
  - cbn [app redis.glob starts_with].
    destruct (Z.eqb_spec p 42); [done|].
    destruct k as [|c k]; [done|].
    destruct (Z.eqb_spec p 63); [done|]. cbn [orb]. by rewrite IH.
Qed.

(** The entries a [KEYS] call counts: those that match and have not
    expired. *)
Definition counted_entry (pattern : jsstring) (now : Z) (kv : jsstring * entry)
  : bool :=
  redis.glob pattern kv.1 && (now <? expires kv.2).

Definition count_entries (pattern : jsstring) (now : Z)
    (m : gmap (list Z) entry) : nat :=
  length (List.filter (counted_entry pattern now) (map_to_list m)).

Lemma filter_length_permutation {A} (f : A -> bool) (l l' : list A) :
  l ≡ₚ l' -> length (List.filter f l) = length (List.filter f l').
Proof.
  induction 1 as [|x l l' _ IH|x y l|l l' l'' _ IH1 _ IH2]; cbn [List.filter].
  - done.
  - destruct (f x); cbn [length]; by rewrite IH.
  - by destruct (f x), (f y).
  - by rewrite IH1.
Qed.

Lemma count_insert_fresh (pattern : jsstring) (now : Z)
    (m : gmap (list Z) entry) (k : jsstring) (e : entry) :
  m !! k = None ->
  count_entries pattern now (<[k := e]> m)
  = ((if counted_entry pattern now (k, e) then 1 else 0)
     + count_entries pattern now m)%nat.
Proof.
  intros Hfresh. unfold count_entries.
  rewrite (filter_length_permutation _ _ _ (map_to_list_insert m k e Hfresh)).
  cbn [List.filter]. by destruct (counted_entry pattern now (k, e)).
Qed.

Lemma count_delete (pattern : jsstring) (now : Z)
    (m : gmap (list Z) entry) (k : jsstring) :
  redis.glob pattern k = false ->
  count_entries pattern now (delete k m) = count_entries pattern now m.
Proof.
  intros Hno. destruct (m !! k) as [e|] eqn:Hk.
  - unfold count_entries.
    rewrite <- (filter_length_permutation _ _ _ (map_to_list_delete m k e Hk)).
    cbn [List.filter]. unfold counted_entry at 2. cbn [fst]. by rewrite Hno.
  - by rewrite delete_id.
Qed.

(** Writing under a key that does not match leaves the count as it was. *)
Lemma count_insert_unmatched (pattern : jsstring) (now : Z)
    (m : gmap (list Z) entry) (k : jsstring) (e : entry) :
  redis.glob pattern k = false ->
  count_entries pattern now (<[k := e]> m) = count_entries pattern now m.
Proof.
  intros Hno. rewrite <- (insert_delete_eq m).
  rewrite count_insert_fresh by apply lookup_delete_eq.
  unfold counted_entry. cbn [fst]. rewrite Hno. cbn [andb].
  by apply count_delete.
Qed.

Section analytics.
Context `{Engine}.

Lemma keys_length (c : redis.Client) (pattern : jsstring) (w : world) :
  link_up w = true ->
  exists ks,
    redis.keys c pattern w = (Return ks, w)
    /\ length ks = count_entries pattern (clock w) (store w).
Proof.
  intros Hup. unfold redis.keys, redis.command. rewrite Hup.
  eexists. split; [reflexivity|]. unfold count_entries.
  assert (forall l : list (jsstring * entry),
            (forall kv, kv ∈ l -> store w !! kv.1 = Some kv.2) ->
            length (List.filter
                      (fun k => redis.glob pattern k
                                && match live w k with
                                   | Some _ => true
                                   | None => false
                                   end) (map fst l))
            = length (List.filter (counted_entry pattern (clock w)) l)) as Hgen.
  { induction l as [|[k e] l IH]; intros Hl; [done|].
    cbn [map List.filter fst].
    assert (redis.glob pattern k
            && match live w k with Some _ => true | None => false end
            = counted_entry pattern (clock w) (k, e)) as ->.
    { pose proof (Hl (k, e) (list_elem_of_here _ _)) as Hke.
      cbn [fst snd] in Hke. unfold counted_entry, live. rewrite Hke. cbn [fst snd].
      by destruct (clock w <? expires e). }
    destruct (counted_entry pattern (clock w) (k, e)); cbn [length];
      rewrite IH; try done; intros kv Hkv; apply Hl;
      by apply list_elem_of_further. }
  apply Hgen. intros [k e] Hkv. by apply elem_of_map_to_list in Hkv.
Qed.

(** The number the dashboard shows as active sessions. *)
Lemma activeSessions_count (c : redis.Client) (w : world) :
  link_up w = true ->
  exists analytics,
    RedisClient.getCacheAnalytics (connected c) w = (Return analytics, w)
    /\ get_prop analytics (js "activeSessions")
       = Return (VNum (inject_Z
                         (Z.of_nat
                            (count_entries (js "session:*") (clock w) (store w))))).
Proof.
  intros Hup.
  destruct (keys_length c (js "session:*") w Hup) as (ks1 & Hk1 & Hl1).
  destruct (keys_length c (js "healthData:*") w Hup) as (ks2 & Hk2 & _).
  destruct (keys_length c (js "calorie:*") w Hup) as (ks3 & Hk3 & _).
  unfold RedisClient.getCacheAnalytics, connected, io_try, io_bind, io_ret.
  cbn [RedisClient.isConnected RedisClient.client].
  rewrite Hk1, Hk2, Hk3. eexists. split; [reflexivity|].
  unfold len. by rewrite Hl1.
Qed.

End analytics.

(** X21.  One login counts as two active sessions.  For a user with no
    session entry, the session management of [POST /login] raises
    [activeSessions] of [getCacheAnalytics] by two: the entries
    [session:<id>] and [session:legacy:<id>] both match [session:*]. *)
Theorem login_counts_as_two_sessions `{EngineLaws} (c : redis.Client)
    (user userId : value) (token : jsstring) (w : world) :
  link_up w = true ->
  get_prop user (js "_id") = Return userId -> json_safe userId = true ->
  store w !! (js "session:" ++ ToString userId) = None ->
  store w !! (js "session:legacy:" ++ ToString userId) = None ->
  exists w' before after n,
    auth.storeSession (connected c) user token w = (Return tt, w')
    /\ RedisClient.getCacheAnalytics (connected c) w = (Return before, w)
    /\ RedisClient.getCacheAnalytics (connected c) w' = (Return after, w')
    /\ get_prop before (js "activeSessions") = Return (VNum (inject_Z n))
    /\ get_prop after (js "activeSessions") = Return (VNum (inject_Z (n + 2))).
Proof.
  intros Hup Hid Hsafe Hnew Hnew'.
  pose proof (storeSession_steps c user userId token w Hup Hid) as Hlogin.
  cbv zeta in Hlogin.
  destruct (login_keys_differ userId) as (Hps & Hls & Hlp).
  set (session := js "session:" ++ ToString userId) in *.
  set (profile := js "user:" ++ ToString userId ++ js ":profile") in *.
  set (legacy := js "session:legacy:" ++ ToString userId) in *.
  destruct (JSON_round_trip (legacy_record userId (clock w)))
    as (s3 & Hs3 & _ & _).
  { unfold legacy_record. cbn [json_safe map fst snd forallb].
    rewrite Hsafe. cbn [andb]. rewrite andb_true_r.
    apply bool_decide_eq_true_2. apply (bool_decide_unpack _). vm_compute. exact I. }
  rewrite Hs3 in Hlogin.
  set (w2 := match JSON_stringify user with
             | Some s => put (put w session token 604800) profile s 3600
             | None => put w session token 604800
             end) in *.
  assert (link_up w2 = true /\ clock w2 = clock w
          /\ store w2 !! legacy = None
          /\ count_entries (js "session:*") (clock w) (store w2)
             = S (count_entries (js "session:*") (clock w) (store w)))
    as (Hup2 & Hclock2 & Hlegacy2 & Hcount2).
  { assert (count_entries (js "session:*") (clock w)
              (store (put w session token 604800))
            = S (count_entries (js "session:*") (clock w) (store w))) as Hone.
    { unfold put, with_store. cbn [store]. rewrite count_insert_fresh by done.
      unfold counted_entry. cbn [fst snd expires].
      change (js "session:*") with (js "session:" ++ [42]).
      rewrite glob_prefix
        by (apply (bool_decide_unpack _); vm_compute; exact I).
      assert (starts_with (js "session:") session = true) as ->.
      { unfold session. clear. induction (js "session:") as [|x l IH]; [done|].
        cbn [app starts_with]. by rewrite Z.eqb_refl. }
      destruct (Z.ltb_spec (clock w) (clock w + 604800 * 1000)); [done|lia]. }
    unfold w2. destruct (JSON_stringify user) as [s|].
    - split; [done|]. split; [done|]. split.
      + unfold put, with_store. cbn [store].
        by rewrite !lookup_insert_ne.
      + rewrite <- Hone. unfold put at 1, with_store. cbn [store clock].
        apply count_insert_unmatched.
        unfold profile. change (js "session:*") with (115 :: js "ession:*").
        change (js "user:") with (117 :: js "ser:"). reflexivity.
    - split; [done|]. split; [done|]. split; [|done].
      unfold put, with_store. cbn [store]. by rewrite lookup_insert_ne. }
  set (w3 := put w2 legacy s3 604800) in *.
  destruct (activeSessions_count c w Hup) as (before & Hbefore & Hn).
  destruct (activeSessions_count c w3) as (after & Hafter & Hn'); [done|].
  exists w3, before, after,
    (Z.of_nat (count_entries (js "session:*") (clock w) (store w))).
  split; [exact Hlogin|]. split; [exact Hbefore|]. split; [exact Hafter|].
  split; [exact Hn|]. rewrite Hn'. do 3 f_equal.
  unfold w3, put, with_store. cbn [store clock]. rewrite Hclock2.
  rewrite count_insert_fresh by done. rewrite Hcount2.
  unfold counted_entry. cbn [fst snd expires].
  change (js "session:*") with (js "session:" ++ [42]).
  rewrite glob_prefix by (apply (bool_decide_unpack _); vm_compute; exact I).
  assert (starts_with (js "session:") legacy = true) as ->.
  { unfold legacy. change (js "session:legacy:") with (js "session:" ++ js "legacy:").
    rewrite <- app_assoc. clear. induction (js "session:") as [|x l IH]; [done|].
    cbn [app starts_with]. by rewrite Z.eqb_refl. }
  destruct (Z.ltb_spec (clock w) (clock w + 604800 * 1000)); [|lia].
  cbn [andb]. lia.
Qed.

Lemma login_counts_as_two_sessions_witness :
  exists w' before after n,
    auth.storeSession (H := reference_engine) (connected sample_client)
      sample_document sample_token sample_world = (Return tt, w')
    /\ RedisClient.getCacheAnalytics (connected sample_client) sample_world
       = (Return before, sample_world)
    /\ RedisClient.getCacheAnalytics (connected sample_client) w'
       = (Return after, w')
    /\ get_prop before (js "activeSessions") = Return (VNum (inject_Z n))
    /\ get_prop after (js "activeSessions") = Return (VNum (inject_Z (n + 2))).
Proof.
  apply (login_counts_as_two_sessions (H := reference_engine) sample_client
           sample_document sample_user sample_token sample_world);
    reflexivity.
Defined.

(** ** Passwords that are not well formed *)

(** What the UTF-8 form of a string decodes to: the string with every lone
    surrogate replaced by U+FFFD. *)
Fixpoint toWellFormed (s : jsstring) : jsstring :=
  match s with
  | [] => []
  | c :: rest =>
      if Buffer.is_high_surrogate c then
        match rest with
        | d :: rest' =>
            if Buffer.is_low_surrogate d then c :: d :: toWellFormed rest'
            else 0xFFFD :: toWellFormed rest
        | [] => [0xFFFD]
        end
      else if Buffer.is_low_surrogate c then 0xFFFD :: toWellFormed rest
      else c :: toWellFormed rest
  end.

Lemma replacement_scalar :
  is_scalar Buffer.replacement_character
  /\ Buffer.utf16_of_code_point Buffer.replacement_character = [0xFFFD].
Proof. split; [|reflexivity]. unfold is_scalar, Buffer.replacement_character. lia. Qed.

Lemma utf8_decode_encode_upto (n : nat) (s : jsstring) :
  (length s <= n)%nat -> Forall is_code_unit s ->
  Forall is_byte (Buffer.from_utf8 s)
  /\ Buffer.toString_utf8 (Buffer.from_utf8 s) = toWellFormed s.
Proof.
  destruct replacement_scalar as [Hrs Hru].
  revert s. induction n as [|n IH]; intros s Hlen Hcu.
  { destruct s; [done|simpl in Hlen; lia]. }
  destruct s as [|c rest]; [done|].
  apply Forall_cons_1 in Hcu as [Hc Hrest].
  assert (Forall is_byte (Buffer.from_utf8 rest)
          /\ Buffer.toString_utf8 (Buffer.from_utf8 rest) = toWellFormed rest)
    as [Hb Hrt] by (apply IH; [simpl in Hlen; lia|done]).
  cbn [toWellFormed Buffer.from_utf8].
  destruct (Buffer.is_high_surrogate c) eqn:Hh.
  - destruct rest as [|d rest'].
    + split; [by apply utf8_of_code_point_bytes|].
      unfold Buffer.toString_utf8.
      rewrite <- (app_nil_r (Buffer.utf8_of_code_point _)).
      rewrite code_points_scalar by done. cbn [Buffer.code_points flat_map].
      by rewrite Hru.
    + destruct (Buffer.is_low_surrogate d) eqn:Hl.
      * apply Forall_cons_1 in Hrest as [Hd Hrest'].
        destruct (surrogate_pair_scalar c d Hh Hl) as [Hs Hu].
        destruct (IH rest') as [Hb' Hrt']; [simpl in Hlen; lia|done|].
        split; [apply Forall_app; split; [by apply utf8_of_code_point_bytes|done]|].
        unfold Buffer.toString_utf8 in *. rewrite code_points_scalar by done.
        cbn [flat_map]. by rewrite Hu, Hrt'.
      * split; [apply Forall_app; split; [by apply utf8_of_code_point_bytes|done]|].
        unfold Buffer.toString_utf8 in *. rewrite code_points_scalar by done.
        cbn [flat_map]. by rewrite Hru, Hrt.
  - destruct (Buffer.is_low_surrogate c) eqn:Hl.
    + split; [apply Forall_app; split; [by apply utf8_of_code_point_bytes|done]|].
      unfold Buffer.toString_utf8 in *. rewrite code_points_scalar by done.
      cbn [flat_map]. by rewrite Hru, Hrt.
    + destruct (code_unit_scalar c Hc Hh Hl) as [Hs Hu].
      split; [apply Forall_app; split; [by apply utf8_of_code_point_bytes|done]|].
      unfold Buffer.toString_utf8 in *. rewrite code_points_scalar by done.
      cbn [flat_map]. by rewrite Hu, Hrt.
Qed.

Lemma utf8_decode_encode (s : jsstring) :
  Forall is_code_unit s ->
  Forall is_byte (Buffer.from_utf8 s)
  /\ Buffer.toString_utf8 (Buffer.from_utf8 s) = toWellFormed s.
Proof. by apply (utf8_decode_encode_upto (length s)). Qed.

(** Only a well-formed string is left as it is. *)
Lemma toWellFormed_fixed_upto (n : nat) (s : jsstring) :
  (length s <= n)%nat ->
  bool_decide (toWellFormed s = s) = isWellFormed s.
Proof.
  revert s. induction n as [|n IH]; intros s Hlen.
  { destruct s; [done|simpl in Hlen; lia]. }
  destruct s as [|c rest]; [done|].
  cbn [toWellFormed isWellFormed].
  assert (forall x, Buffer.is_high_surrogate x || Buffer.is_low_surrogate x = true ->
                    0xFFFD <> x) as Hsur.
  { intros x Hx <-. vm_compute in Hx. discriminate. }
  destruct (Buffer.is_high_surrogate c) eqn:Hh.
  - destruct rest as [|d rest'].
    + apply bool_decide_eq_false_2. intros [= Heq]. apply (Hsur c); [|done].
      by rewrite Hh.
    + destruct (Buffer.is_low_surrogate d) eqn:Hl.
      * cbn [andb]. rewrite <- (IH rest') by (simpl in Hlen; lia).
        apply bool_decide_ext. split; [by intros [= ->]|by intros ->].
      * cbn [andb]. apply bool_decide_eq_false_2. intros [= Heq _].
        apply (Hsur c); [|done]. by rewrite Hh.
  - destruct (Buffer.is_low_surrogate c) eqn:Hl.
    + cbn [negb andb]. apply bool_decide_eq_false_2. intros [= Heq _].
      apply (Hsur c); [|done]. by rewrite Hl, orb_true_r.
    + cbn [negb andb]. rewrite <- (IH rest) by (simpl in Hlen; lia).
      apply bool_decide_ext. split; [by intros [= ->]|by intros ->].
Qed.

(** X15.  [comparePassword] of a password against the envelope
    [hashPassword] made for it returns [true] when the password is well
    formed and [false] when a surrogate stands alone in it; hashing always
    succeeds, and the comparison never throws. *)
Theorem compare_own_hash_iff_well_formed `{PrimitivesLaws}
    (rnd : RandomSource) (password : jsstring) :
  Forall is_code_unit password ->
  exists hashed,
    PasswordEncryption.hashPassword passwordEncryption rnd password = Return hashed
    /\ PasswordEncryption.comparePassword passwordEncryption password hashed
       = Return (isWellFormed password).
Proof.
  intros Hcu. destruct (utf8_decode_encode password Hcu) as [Hb Hrt].
  destruct (hash_then_compare rnd password Hb) as (hashed & Hh & Hc).
  exists hashed. split; [exact Hh|]. rewrite Hc, Hrt.
  f_equal. by apply (toWellFormed_fixed_upto (length password)).
Qed.

Lemma compare_own_hash_iff_well_formed_witness :
  exists hashed,
    PasswordEncryption.hashPassword (H := xor_primitives) passwordEncryption
      sample_random [0x70; 0x77; 0xDC00] = Return hashed
    /\ PasswordEncryption.comparePassword (H := xor_primitives) passwordEncryption
         [0x70; 0x77; 0xDC00] hashed = Return false.
Proof.
  apply (compare_own_hash_iff_well_formed (H := xor_primitives) sample_random
           [0x70; 0x77; 0xDC00]).
  repeat (constructor; [unfold is_code_unit; lia|]). constructor.
Defined.

(** ** The envelope *)

Section envelope.
Context `{PrimitivesLaws}.

Lemma cbc_encrypt_length (k prev : bytes) (ps : list bytes) :
  length (crypto.cbc_encrypt k prev ps) = length ps.
Proof.
  revert prev. induction ps as [|p ps IH]; intros prev; [done|].
  cbn [crypto.cbc_encrypt length]. by rewrite IH.
Qed.

(** [update] and [final] write one block more than the whole blocks of the
    plaintext. *)
Lemma cipher_output_length (k iv pt : bytes) :
  length k = 32%nat -> Forall is_byte k -> is_block iv -> Forall is_byte pt ->
  let c0 := {| crypto.key := k; crypto.chain := iv; crypto.buffered := [] |} in
  exists ct2,
    crypto.Cipher_final (crypto.Cipher_update c0 pt).1 = Return ct2
    /\ length ((crypto.Cipher_update c0 pt).2 ++ ct2)
       = (16 * (length pt / 16 + 1))%nat.
Proof.
  intros Hkl Hkb Hiv Hpt c0.
  set (m := (length pt / 16)%nat).
  pose proof (Nat.div_mod_eq (length pt) 16) as Hdm.
  pose proof (Nat.mod_upper_bound (length pt) 16 ltac:(lia)) as Hmod.
  fold m in Hdm.
  set (head := take (m * 16) pt). set (tail := drop (m * 16) pt).
  assert (length head = (16 * m)%nat) as Hhead
    by (unfold head; rewrite length_take; lia).
  assert (length tail < 16)%nat as Htail
    by (unfold tail; rewrite length_drop; lia).
  destruct (blocks_spec m head Hhead) as (Hsz & Hcat & Hm).
  set (ps := crypto.blocks head) in *.
  assert (Forall is_block ps) as Hps.
  { assert (Forall is_byte (List.concat ps)) as Hb
      by (rewrite Hcat; by apply Forall_take).
    clear Hcat Hm. induction Hsz as [|b bs Hl _ IH]; [constructor|].
    cbn [List.concat] in Hb. apply Forall_app in Hb as [Hb1 Hb2].
    constructor; [by split | by apply IH]. }
  destruct (cbc_encrypt_blocks k Hkl Hkb iv ps Hiv Hps) as [Hcs Hlast].
  set (cs := crypto.cbc_encrypt k iv ps) in *.
  destruct (pkcs7_pad_block tail Htail) as [Hpad _]; [by apply Forall_drop|].
  set (pad := crypto.pkcs7_pad tail) in *.
  pose proof (xor_block k Hkl _ _ Hpad Hlast) as Hx.
  pose proof (encrypt_block k Hkl Hkb _ Hx) as [Hcq _].
  set (cq := aes256_encrypt_block k (crypto.xor_bytes pad (List.last cs iv))) in *.
  exists cq.
  change (crypto.Cipher_update c0 pt)
    with ({| crypto.key := k; crypto.chain := List.last cs iv;
             crypto.buffered := tail |}, List.concat cs).
  cbn [fst snd]. split.
  - unfold crypto.Cipher_final. cbn [crypto.buffered crypto.key crypto.chain].
    fold pad. rewrite (singleton_blocks pad Hpad).
    cbn [crypto.cbc_encrypt List.concat]. fold cq. by rewrite app_nil_r.
  - rewrite length_app, Hcq, concat_blocks_length by (by apply blocks_sizes).
    unfold cs. rewrite cbc_encrypt_length, Hm. lia.
Qed.

(** The envelope [hashPassword] returns: the salt, the IV and the
    ciphertext, in base64. *)
Lemma hashPassword_envelope (rnd : RandomSource) (password : jsstring) :
  Forall is_byte (Buffer.from_utf8 password) ->
  let salt := (crypto.randomBytes 32 rnd).1 in
  let iv := (crypto.randomBytes 16 (crypto.randomBytes 32 rnd).2).1 in
  exists ct,
    PasswordEncryption.hashPassword passwordEncryption rnd password
    = Return (Buffer.toString_base64 (salt ++ iv ++ ct))
    /\ Forall is_byte (salt ++ iv ++ ct)
    /\ length salt = 32%nat /\ length iv = 16%nat
    /\ length ct = (16 * (length (Buffer.from_utf8 password) / 16 + 1))%nat.
Proof.
  intros Hb salt iv.
  destruct (randomBytes_spec 32 rnd) as [Hsl Hsb]. fold salt in Hsl, Hsb.
  destruct (randomBytes_spec 16 (crypto.randomBytes 32 rnd).2) as [Hil Hib].
  fold iv in Hil, Hib.
  unfold PasswordEncryption.hashPassword, PasswordEncryption.generateSalt.
  change (PasswordEncryption.saltLength passwordEncryption) with 32.
  change (PasswordEncryption.ivLength passwordEncryption) with 16.
  change (PasswordEncryption.algorithm passwordEncryption) with (js "aes-256-cbc").
  destruct (crypto.randomBytes 32 rnd) as [salt' rnd1] eqn:E1.
  cbn [fst snd] in iv, salt. 
  destruct (crypto.randomBytes 16 rnd1) as [iv' rnd2] eqn:E2.
  cbn [fst snd] in iv. subst salt iv.
  destruct (deriveKey_returns password salt') as (k & Hk & Hkl & Hkb).
  destruct (decipher_cipher k Hkl Hkb iv' (Buffer.from_utf8 password))
    as (c1 & ct1 & ct2 & Hu & Hf & Hct & _); [split; assumption | assumption |].
  destruct (cipher_output_length k iv' (Buffer.from_utf8 password) Hkl Hkb)
    as (ct2' & Hf' & Hlen); [split; assumption | assumption |].
  rewrite Hu in Hf', Hlen. cbn [fst snd] in Hf', Hlen.
  rewrite Hf in Hf'. injection Hf' as <-.
  exists (ct1 ++ ct2).
  rewrite Hk. cbn [mbind completion_bind].
  rewrite createCipheriv_returns by assumption. cbn [mbind completion_bind].
  rewrite Hu, Hf. cbn [mbind completion_bind try_catch].
  rewrite <- toString_hex_app, from_hex_toString_hex by assumption.
  unfold Buffer.concat. cbn [List.concat]. rewrite app_nil_r.
  split; [reflexivity|]. split; [|split; [assumption|split; assumption]].
  apply Forall_app; split; [assumption|]. apply Forall_app; split; assumption.
Qed.

End envelope.

(** X16.  The layout of the envelope.  Decoded from base64, its first 32
    bytes are the salt that was drawn and the next 16 the IV that was
    drawn, and its length is 48 plus the padded length of the password's
    UTF-8 form: [16 * (n / 16 + 1)] for [n] bytes. *)
Theorem envelope_layout `{PrimitivesLaws} (rnd : RandomSource)
    (password : jsstring) :
  Forall is_code_unit password ->
  exists hashed,
    PasswordEncryption.hashPassword passwordEncryption rnd password = Return hashed
    /\ Buffer.slice (Buffer.from_base64 hashed) 0 32 = (crypto.randomBytes 32 rnd).1
    /\ Buffer.slice (Buffer.from_base64 hashed) 32 48
       = (crypto.randomBytes 16 (crypto.randomBytes 32 rnd).2).1
    /\ len (Buffer.from_base64 hashed)
       = 48 + 16 * (len (Buffer.from_utf8 password) / 16 + 1).
Proof.
  intros Hcu. destruct (utf8_decode_encode password Hcu) as [Hb _].
  destruct (hashPassword_envelope rnd password Hb)
    as (ct & Hh & Hbytes & Hsl & Hil & Hcl).
  eexists. split; [exact Hh|].
  rewrite from_base64_toString_base64 by assumption.
  destruct (slice_parts _ _ ct Hsl Hil) as (Hs1 & Hs2 & _).
  split; [exact Hs1|]. split; [exact Hs2|].
  unfold len. rewrite !length_app, Hsl, Hil, Hcl.
  rewrite Nat2Z.inj_add, Nat2Z.inj_add, Nat2Z.inj_mul, Nat2Z.inj_add, Nat2Z.inj_div.
  change (Z.of_nat 16) with 16. change (Z.of_nat 32) with 32.
  change (Z.of_nat 1) with 1. lia.
Qed.

Lemma envelope_layout_witness :
  exists hashed,
    PasswordEncryption.hashPassword (H := xor_primitives) passwordEncryption
      sample_random (js "TestPassword123!") = Return hashed
    /\ Buffer.slice (Buffer.from_base64 hashed) 0 32
       = (crypto.randomBytes 32 sample_random).1
    /\ Buffer.slice (Buffer.from_base64 hashed) 32 48
       = (crypto.randomBytes 16 (crypto.randomBytes 32 sample_random).2).1
    /\ len (Buffer.from_base64 hashed)
       = 48 + 16 * (len (Buffer.from_utf8 (js "TestPassword123!")) / 16 + 1).
Proof.
  apply (envelope_layout (H := xor_primitives) sample_random
           (js "TestPassword123!")).
  apply js_code_units.
Defined.

(** X17.  Two runs of [hashPassword] on the same password that draw
    different salts, or different IVs, return different envelopes. *)
Theorem fresh_salt_fresh_envelope `{PrimitivesLaws} (rnd rnd' : RandomSource)
    (password : jsstring) :
  Forall is_code_unit password ->
  (crypto.randomBytes 32 rnd).1 <> (crypto.randomBytes 32 rnd').1
  \/ (crypto.randomBytes 16 (crypto.randomBytes 32 rnd).2).1
     <> (crypto.randomBytes 16 (crypto.randomBytes 32 rnd').2).1 ->
  PasswordEncryption.hashPassword passwordEncryption rnd password
  <> PasswordEncryption.hashPassword passwordEncryption rnd' password.
Proof.
  intros Hcu Hdiff Heq. destruct (utf8_decode_encode password Hcu) as [Hb _].
  destruct (hashPassword_envelope rnd password Hb)
    as (ct & He & Hbytes & Hsl & Hil & Hcl).
  destruct (hashPassword_envelope rnd' password Hb)
    as (ct' & He' & Hbytes' & Hsl' & Hil' & Hcl').
  assert (forall a b : jsstring, @Return jsstring a = Return b -> a = b) as Hinj
    by (by intros a b [= ->]).
  rewrite Heq, He' in He. apply Hinj in He.
  apply (f_equal Buffer.from_base64) in He.
  rewrite !from_base64_toString_base64 in He by assumption.
  apply app_inj_1 in He as [Hs Hrest]; [|by rewrite Hsl, Hsl'].
  apply app_inj_1 in Hrest as [Hi _]; [|by rewrite Hil, Hil'].
  destruct Hdiff as [Hd|Hd]; by apply Hd.
Qed.

Definition other_random : RandomSource :=
  {| tape := fun i => 41 * Z.of_nat i + 7; position := 0 |}.

Lemma fresh_salt_fresh_envelope_witness :
  PasswordEncryption.hashPassword (H := xor_primitives) passwordEncryption
    sample_random (js "TestPassword123!")
  <> PasswordEncryption.hashPassword (H := xor_primitives) passwordEncryption
       other_random (js "TestPassword123!").
Proof.
  apply (fresh_salt_fresh_envelope (H := xor_primitives) sample_random
           other_random (js "TestPassword123!")).
  - apply js_code_units.
  - left. vm_compute. discriminate.
Defined.

(** ** More on the strength of a password *)

Section strength_more.
Import PasswordEncryption.

Lemma check_patterns_suggestions (patterns : list jsstring) (password : jsstring)
    (r : Strength) :
  suggestions (check_patterns patterns password r)
  = suggestions r
    ++ (if existsb (includes (toLowerCase password)) patterns
        then [js "Avoid common patterns"] else []).
Proof.
  induction patterns as [|p ps IH]; cbn [check_patterns existsb].
  - by rewrite app_nil_r.
  - destruct (includes (toLowerCase password) p); [done|]. apply IH.
Qed.

(** The score and the suggestions of a password, by its five criteria and
    the deny-list. *)
Lemma validatePasswordStrength_tally (password : jsstring) :
  let r := validatePasswordStrength password in
  let met :=
    point (len password >=? 8) + point (test_uppercase password)
    + point (test_lowercase password) + point (test_digit password)
    + point (test_symbol password) in
  score r = met - (if deny_listed password then 1 else 0)
  /\ len (suggestions r) = 5 - met + (if deny_listed password then 1 else 0)
  /\ isValid r = (score r >=? 3)
  /\ strength r
     = (if score r >=? 4 then js "strong"
        else if score r >=? 3 then js "medium" else js "weak").
Proof.
  intros r met. pose proof (deny_listed_scores password) as Hdeny.
  subst r. unfold validatePasswordStrength.
  match goal with
  | |- context [check_patterns commonPatterns password ?r0] => set (r0' := r0)
  end.
  destruct (check_patterns_result commonPatterns password r0') as (Hscore & _).
  pose proof (check_patterns_suggestions commonPatterns password r0') as Hsug.
  fold (deny_listed password) in Hscore, Hsug.
  set (r1 := check_patterns commonPatterns password r0') in *.
  assert (score r0' = met) as Hmet by (unfold r0', met, point; cbn [score]; lia).
  assert (len (suggestions r0') = 5 - met) as Hadv.
  { unfold r0', met, point. cbn [suggestions].
    destruct (len password >=? 8), (test_uppercase password),
      (test_lowercase password), (test_digit password), (test_symbol password);
      reflexivity. }
  assert (score r1 = met - (if deny_listed password then 1 else 0)
          /\ len (suggestions r1)
             = 5 - met + (if deny_listed password then 1 else 0)) as [Hs Hl].
  { rewrite Hscore, Hsug, Hmet. unfold len in *. rewrite length_app.
    destruct (deny_listed password).
    - specialize (Hdeny eq_refl). cbn [length].
      assert (1 <= met).
      { unfold met. unfold point in *.
        repeat match goal with
               | |- context [if ?b then _ else _] => destruct b
               end; lia. }
      lia.
    - cbn [length]. lia. }
  destruct (score r1 >=? 4) eqn:E4; [|destruct (score r1 >=? 3) eqn:E3];
    cbn [score suggestions isValid strength]; rewrite ?E4, ?E3;
    repeat split; try done; lia.
Qed.

End strength_more.

(** X18.  Every point not scored is a suggestion: the score of
    [validatePasswordStrength] and the number of its suggestions add up to
    5, the score lies between 0 and 5, and there is no suggestion exactly
    when the score is 5. *)
Theorem score_and_suggestions (password : jsstring) :
  let r := PasswordEncryption.validatePasswordStrength password in
  PasswordEncryption.score r + len (PasswordEncryption.suggestions r) = 5
  /\ 0 <= PasswordEncryption.score r <= 5
  /\ (PasswordEncryption.suggestions r = [] <-> PasswordEncryption.score r = 5).
Proof.
  intros r. destruct (validatePasswordStrength_tally password) as (Hs & Hl & _).
  fold r in Hs, Hl.
  assert (PasswordEncryption.score r + len (PasswordEncryption.suggestions r) = 5)
    as Hsum by (rewrite Hs, Hl; ring).
  assert (0 <= PasswordEncryption.score r) as Hlow.
  { rewrite Hs. pose proof (deny_listed_scores password) as Hdeny.
    unfold point in *.
    destruct (deny_listed password); [specialize (Hdeny eq_refl)|];
      repeat match goal with
             | |- context [if ?b then _ else _] => destruct b
             end; lia. }
  assert (0 <= len (PasswordEncryption.suggestions r)) as Hnn by (unfold len; lia).
  split; [done|]. split; [lia|]. split.
  - intros Hnil. rewrite Hnil in Hsum. unfold len in Hsum. cbn [length] in Hsum. lia.
  - intros H5. destruct (PasswordEncryption.suggestions r); [done|].
    unfold len in Hsum. cbn [length] in Hsum. lia.
Qed.

(** X19.  A password with an uppercase letter, a lowercase letter, a
    digit and a symbol is valid whatever its length, even when it contains
    a common pattern; when it contains none it is rated strong. *)
Theorem four_classes_suffice (password : jsstring) :
  PasswordEncryption.test_uppercase password = true ->
  PasswordEncryption.test_lowercase password = true ->
  PasswordEncryption.test_digit password = true ->
  PasswordEncryption.test_symbol password = true ->
  let r := PasswordEncryption.validatePasswordStrength password in
  PasswordEncryption.isValid r = true
  /\ 3 <= PasswordEncryption.score r
  /\ (deny_listed password = false -> PasswordEncryption.strength r = js "strong").
Proof.
  intros Hu Hl Hd Hs r.
  destruct (validatePasswordStrength_tally password) as (Hscore & _ & Hvalid & Hstrength).
  fold r in Hscore, Hvalid, Hstrength. rewrite Hu, Hl, Hd, Hs in Hscore.
  unfold point in Hscore.
  assert (3 <= PasswordEncryption.score r) as H3
    by (destruct (len password >=? 8), (deny_listed password); lia).
  split; [|split; [done|]].
  - rewrite Hvalid. by apply Z.geb_le.
  - intros Hno. rewrite Hno in Hscore. rewrite Hstrength.
    destruct (Z.geb_spec (PasswordEncryption.score r) 4); [done|].
    destruct (len password >=? 8); lia.
Qed.

Lemma four_classes_suffice_witness :
  let r := PasswordEncryption.validatePasswordStrength (js "Qwerty1!") in
  PasswordEncryption.isValid r = true
  /\ 3 <= PasswordEncryption.score r
  /\ (deny_listed (js "Qwerty1!") = false
      -> PasswordEncryption.strength r = js "strong").
Proof. apply (four_classes_suffice (js "Qwerty1!")); reflexivity. Defined.

(** ** Generated passwords *)

Lemma insert_by_permutation comparefn (x : Z) (sorted : list Z) (rnd : RandomSource) :
  (insert_by comparefn x sorted rnd).1 ≡ₚ x :: sorted.
Proof.
  revert rnd. induction sorted as [|y rest IH]; intros rnd; [done|].
  cbn [insert_by]. destruct (comparefn x y rnd) as [order rnd1].
  destruct (order <? 0); [done|].
  specialize (IH rnd1). destruct (insert_by comparefn x rest rnd1) as [placed rnd2].
  cbn [fst] in *. rewrite IH. apply Permutation_swap.
Qed.

Global Instance insertion_sorting_laws : @SortingLaws insertion_sorting.
Proof.
  constructor. intros comparefn items rnd. cbn [Array_sort_by insertion_sorting].
  revert rnd. induction items as [|x rest IH]; intros rnd; [done|].
  cbn [insertion_sort]. specialize (IH rnd).
  destruct (insertion_sort comparefn rest rnd) as [sorted rnd1]. cbn [fst] in IH.
  rewrite insert_by_permutation. by rewrite IH.
Qed.

Section generated.
Import PasswordEncryption.

Lemma randomInt_range (max : Z) (rnd : RandomSource) :
  0 < max -> 0 <= (crypto.randomInt max rnd).1 < max.
Proof. intros Hmax. unfold crypto.randomInt. cbn [fst]. by apply Z.mod_pos_bound. Qed.

Lemma String_at_in (s : jsstring) (i : Z) :
  0 <= i < len s -> exists c, String_at s i = [c] /\ c ∈ s.
Proof.
  intros Hi. unfold String_at, len in *.
  destruct (Z.ltb_spec i 0); [lia|].
  destruct (lookup_lt_is_Some_2 s (Z.to_nat i)) as [c Hc]; [lia|].
  rewrite Hc. exists c. split; [done|]. by eapply list_elem_of_lookup_2.
Qed.

(** One character drawn from an alphabet. *)
Lemma draw_in (alphabet : jsstring) (rnd : RandomSource) :
  alphabet <> [] ->
  exists c, String_at alphabet (crypto.randomInt (len alphabet) rnd).1 = [c]
            /\ c ∈ alphabet.
Proof.
  intros Hne. apply String_at_in, randomInt_range.
  unfold len. destruct alphabet; [done|]. cbn [length]. lia.
Qed.

Lemma fill_spec (n : nat) (password : jsstring) (rnd : RandomSource) :
  exists more,
    (fill n password rnd).1 = password ++ more
    /\ length more = n /\ Forall (fun c => c ∈ charset) more.
Proof.
  revert password rnd. induction n as [|n IH]; intros password rnd.
  { exists []. by rewrite app_nil_r. }
  cbn [fill].
  destruct (draw_in charset rnd) as (c & Hc & Hin); [done|].
  destruct (crypto.randomInt (len charset) rnd) as [i rnd1]. cbn [fst] in Hc.
  rewrite Hc. destruct (IH (password ++ [c]) rnd1) as (more & -> & Hlen & Hall).
  exists (c :: more). rewrite <- app_assoc. split; [done|].
  split; [by rewrite <- Hlen|]. by constructor.
Qed.

Lemma existsb_member (f : Z -> bool) (s : jsstring) (c : Z) :
  c ∈ s -> f c = true -> existsb f s = true.
Proof. intros Hin Hf. apply existsb_exists. exists c. by rewrite <- list_elem_of_In. Qed.

Lemma existsb_permutation (f : Z -> bool) (s t : jsstring) :
  s ≡ₚ t -> existsb f s = existsb f t.
Proof.
  induction 1 as [|x s t _ IH|x y s|s t u _ IH1 _ IH2]; cbn [existsb].
  - done.
  - by rewrite IH.
  - by rewrite !orb_assoc, (orb_comm (f y)).
  - by rewrite IH1.
Qed.

Lemma alphabet_facts :
  Forall (fun c => (65 <=? c) && (c <=? 90) = true) uppercase
  /\ Forall (fun c => (97 <=? c) && (c <=? 122) = true) lowercase
  /\ Forall (fun c => (48 <=? c) && (c <=? 57) = true) numbers
  /\ Forall (fun c => existsb (Z.eqb c) symbol_class = true) symbols
  /\ Forall (fun c => c ∈ charset) (uppercase ++ lowercase ++ numbers ++ symbols).
Proof.
  repeat split; apply (bool_decide_unpack _); vm_compute; exact I.
Qed.

(** What [generateSecurePassword] returns: its length, its alphabet and
    one character of each class. *)
Lemma generateSecurePassword_spec `{SortingLaws} (length : option Z)
    (rnd : RandomSource) :
  let password := (generateSecurePassword length rnd).1 in
  len password = Z.max 4 (default 16 length)
  /\ Forall (fun c => c ∈ charset) password
  /\ test_uppercase password = true /\ test_lowercase password = true
  /\ test_digit password = true /\ test_symbol password = true.
Proof.
  destruct alphabet_facts as (Hup & Hlow & Hnum & Hsym & Hall).
  cbv zeta. unfold generateSecurePassword.
  destruct (draw_in uppercase rnd) as (u & Hu & Huin); [done|].
  destruct (crypto.randomInt (len uppercase) rnd) as [i1 rnd1]. cbn [fst] in Hu.
  destruct (draw_in lowercase rnd1) as (l & Hl & Hlin); [done|].
  destruct (crypto.randomInt (len lowercase) rnd1) as [i2 rnd2]. cbn [fst] in Hl.
  destruct (draw_in numbers rnd2) as (d & Hd & Hdin); [done|].
  destruct (crypto.randomInt (len numbers) rnd2) as [i3 rnd3]. cbn [fst] in Hd.
  destruct (draw_in symbols rnd3) as (s & Hs & Hsin); [done|].
  destruct (crypto.randomInt (len symbols) rnd3) as [i4 rnd4]. cbn [fst] in Hs.
  rewrite Hu, Hl, Hd, Hs. cbn [app].
  change (len [u; l; d; s]) with 4.
  destruct (fill_spec (Z.to_nat (default 16 length - 4)) [u; l; d; s] rnd4)
    as (more & Hfill & Hlen & Hmore).
  destruct (fill (Z.to_nat (default 16 length - 4)) [u; l; d; s] rnd4)
    as [filled rnd5]. cbn [fst] in Hfill. subst filled.
  pose proof (Array_sort_by_permutation
                (fun _ _ rnd => let '(r, rnd) := crypto.randomInt 3 rnd in (r - 1, rnd))
                ([u; l; d; s] ++ more) rnd5) as Hperm.
  set (sorted := (Array_sort_by _ _ rnd5).1) in *.
  split; [|split].
  - unfold len. rewrite Hperm, length_app, Hlen. cbn [List.length]. lia.
  - rewrite Hperm. apply Forall_app. split; [|done].
    rewrite !Forall_app in Hall. destruct Hall as (Ha1 & Ha2 & Ha3 & Ha4).
    rewrite list.Forall_forall in Ha1, Ha2, Ha3, Ha4.
    apply Forall_cons_2; [by apply Ha1|]. apply Forall_cons_2; [by apply Ha2|].
    apply Forall_cons_2; [by apply Ha3|]. apply Forall_cons_2; [by apply Ha4|].
    constructor.
  - rewrite list.Forall_forall in Hup, Hlow, Hnum, Hsym.
    unfold test_uppercase, test_lowercase, test_digit, test_symbol.
    rewrite !(existsb_permutation _ _ _ Hperm).
    repeat split.
    + apply existsb_member with u; [rewrite elem_of_app, !elem_of_cons; auto 10|by apply Hup].
    + apply existsb_member with l; [rewrite elem_of_app, !elem_of_cons; auto 10|by apply Hlow].
    + apply existsb_member with d; [rewrite elem_of_app, !elem_of_cons; auto 10|by apply Hnum].
    + apply existsb_member with s; [rewrite elem_of_app, !elem_of_cons; auto 10|by apply Hsym].
Qed.

End generated.

(** X20.  [generateSecurePassword(length)], for an integer length (16 by
    default), returns [max(4, length)] characters of the charset, among
    them one of each class, so that [validatePasswordStrength] accepts the
    password, and rates it strong when the length asked for is at least 8.
    This holds for every sort that returns a permutation of its input. *)
Theorem generated_password_is_valid `{SortingLaws} (length : option Z)
    (rnd : RandomSource) :
  let password := (PasswordEncryption.generateSecurePassword length rnd).1 in
  let r := PasswordEncryption.validatePasswordStrength password in
  len password = Z.max 4 (default 16 length)
  /\ Forall (fun c => c ∈ PasswordEncryption.charset) password
  /\ PasswordEncryption.hasUppercase (PasswordEncryption.criteria r) = true
  /\ PasswordEncryption.hasLowercase (PasswordEncryption.criteria r) = true
  /\ PasswordEncryption.hasNumbers (PasswordEncryption.criteria r) = true
  /\ PasswordEncryption.hasSymbols (PasswordEncryption.criteria r) = true
  /\ PasswordEncryption.isValid r = true
  /\ (8 <= default 16 length -> PasswordEncryption.strength r = js "strong").
Proof.
  intros password r.
  destruct (generateSecurePassword_spec length rnd)
    as (Hlen & Hall & Hu & Hl & Hd & Hs).
  fold password in Hlen, Hall, Hu, Hl, Hd, Hs.
  destruct (validatePasswordStrength_tally password)
    as (Hscore & _ & Hvalid & Hstrength).
  fold r in Hscore, Hvalid, Hstrength.
  rewrite Hu, Hl, Hd, Hs in Hscore. unfold point in Hscore.
  assert (3 <= PasswordEncryption.score r) as H3
    by (destruct (len password >=? 8), (deny_listed password); lia).
  split; [done|]. split; [done|].
  assert (PasswordEncryption.hasUppercase (PasswordEncryption.criteria r) = true
          /\ PasswordEncryption.hasLowercase (PasswordEncryption.criteria r) = true
          /\ PasswordEncryption.hasNumbers (PasswordEncryption.criteria r) = true
          /\ PasswordEncryption.hasSymbols (PasswordEncryption.criteria r) = true)
    as (? & ? & ? & ?).
  { unfold r, PasswordEncryption.validatePasswordStrength.
    match goal with
    | |- context [PasswordEncryption.check_patterns _ password ?r0] =>
        destruct (check_patterns_result PasswordEncryption.commonPatterns password r0)
          as (_ & _ & Hc2 & Hc3 & Hc4 & Hc5 & _);
        set (r1 := PasswordEncryption.check_patterns _ password r0) in *
    end.
    cbn [PasswordEncryption.criteria PasswordEncryption.hasUppercase
         PasswordEncryption.hasLowercase PasswordEncryption.hasNumbers
         PasswordEncryption.hasSymbols] in Hc2, Hc3, Hc4, Hc5.
    rewrite Hu in Hc2. rewrite Hl in Hc3. rewrite Hd in Hc4. rewrite Hs in Hc5.
    destruct (PasswordEncryption.score r1 >=? 4);
      [|destruct (PasswordEncryption.score r1 >=? 3)];
      cbn [PasswordEncryption.criteria]; by repeat split. }
  repeat (split; [done|]). split.
  - rewrite Hvalid. by apply Z.geb_le.
  - intros H8. rewrite Hstrength.
    destruct (Z.geb_spec (PasswordEncryption.score r) 4); [done|].
    destruct (Z.geb_spec (len password) 8); [|lia].
    destruct (deny_listed password); lia.
Qed.

Lemma generated_password_is_valid_witness :
  let password :=
    (PasswordEncryption.generateSecurePassword (H := insertion_sorting)
       (Some 12) sample_random).1 in
  password = js "|%Lw5|)U5Grd"
  /\ PasswordEncryption.isValid
       (PasswordEncryption.validatePasswordStrength password) = true.
Proof.
  split; [vm_compute; reflexivity|].
  apply (generated_password_is_valid (H := insertion_sorting) (Some 12) sample_random).
Defined.
